(** * HTML nesting linter: rule catalog, tokenizer and nesting checker

    A shallow embedding of [nestingRules.ts] (the rule catalog and its
    index), of [parser.js] (region extraction, tag tokenizer and the
    stack-based nesting checker) and of the diagnostics built in
    [extension.js], followed by the properties established about them.

    Conventions.
    - A JavaScript string that holds document text is a [list N] of UTF-16
      code units, so that every offset below is the offset JavaScript
      computes.  Tag names, language ids and rule texts are [string]s: tag
      names only ever hold the ASCII characters [a-z0-9-], and rule texts
      are only stored and compared.
    - [Map<string, NestingRule>] is a [gmap string NestingRule]; the
      membership-only [Set<string>]s are [gset string]s, the sets that the
      source iterates over are lists in insertion order.
    - A regular expression literal is a [regex] matched by backtracking;
      [exec] searches the leftmost match from [lastIndex].
    - Code that can throw or loop returns an [outcome]. *)

From Stdlib Require Import NArith Ascii.
From stdpp Require Import gmap strings list fin_maps.

Local Open Scope string_scope.
Local Open Scope nat_scope.
Local Open Scope list_scope.

(** ** Outcomes of JavaScript code

    [Ret v]: normal completion with value [v].  [Throw]: an exception (the
    only candidate in this program is a TypeError from a property read on
    [undefined]).  [NoFuel]: the bound put on a [while] loop was reached
    before the loop ended. *)

Inductive outcome (A : Type) : Type :=
  | Ret (a : A)
  | Throw
  | NoFuel.

Arguments Ret {A} a.
Arguments Throw {A}.
Arguments NoFuel {A}.

#[export] Instance outcome_ret : MRet outcome := fun A a => Ret a.

#[export] Instance outcome_bind : MBind outcome := fun A B k m =>
  match m with
  | Ret a => k a
  | Throw => Throw
  | NoFuel => NoFuel
  end.

(** ** The rule catalog ([nestingRules.ts]) *)

Module NestingRules.

Record Reference : Type := mkRef { label : string; url : string }.

Record NestingRule : Type := mkRule {
  parent : string;
  child : string;
  reason : string;
  alternatives : list string;
  references : list Reference
}.

#[export] Instance Reference_eq_dec : EqDecision Reference.
Proof. solve_decision. Defined.

#[export] Instance NestingRule_eq_dec : EqDecision NestingRule.
Proof. solve_decision. Defined.

(** The catalog of standard tags, in source order. *)
Definition ALL_HTML_TAGS : list string :=
  ["a"; "abbr"; "address"; "area"; "article"; "aside"; "audio"; "b";
   "base"; "bdi"; "bdo"; "blockquote"; "body"; "br"; "button"; "canvas";
   "caption"; "cite"; "code"; "col"; "colgroup"; "data"; "datalist"; "dd";
   "del"; "details"; "dfn"; "dialog"; "div"; "dl"; "dt"; "em"; "embed";
   "fieldset"; "figcaption"; "figure"; "footer"; "form"; "h1"; "h2"; "h3";
   "h4"; "h5"; "h6"; "head"; "header"; "hgroup"; "hr"; "html"; "i";
   "iframe"; "img"; "input"; "ins"; "kbd"; "label"; "legend"; "li"; "link";
   "main"; "map"; "mark"; "menu"; "meta"; "meter"; "nav"; "noscript";
   "object"; "ol"; "optgroup"; "option"; "output"; "p"; "param"; "picture";
   "pre"; "progress"; "q"; "rp"; "rt"; "ruby"; "s"; "samp"; "script";
   "search"; "section"; "select"; "slot"; "small"; "source"; "span";
   "strong"; "style"; "sub"; "summary"; "sup"; "table"; "tbody"; "td";
   "template"; "textarea"; "tfoot"; "th"; "thead"; "time"; "title"; "tr";
   "track"; "u"; "ul"; "var"; "video"; "wbr"].

Definition HTML_TAGS_SET : gset string := list_to_set ALL_HTML_TAGS.

Definition PHRASING_CONTENT_TAGS : gset string :=
  list_to_set
  ["a"; "abbr"; "audio"; "b"; "bdi"; "bdo"; "br"; "button"; "canvas";
   "cite"; "code"; "data"; "datalist"; "del"; "dfn"; "em"; "embed"; "i";
   "iframe"; "img"; "input"; "ins"; "kbd"; "label"; "map"; "mark"; "meter";
   "noscript"; "object"; "output"; "picture"; "progress"; "q"; "ruby"; "s";
   "samp"; "script"; "select"; "slot"; "small"; "span"; "strong"; "sub";
   "sup"; "template"; "textarea"; "time"; "u"; "var"; "video"; "wbr"].

(** The explicit, hand-written rules: [child] must not sit directly inside
    [parent]. *)
Definition NESTING_RULES : list NestingRule := [
  mkRule "p" "div"
    "<p> solo puede contener phrasing content (texto e inline). <div> es un bloque y cierra implícitamente el <p>."
    ["Usa <div> en lugar de <p> si necesitas contener bloques.";
     "Mueve el <div> fuera del <p>.";
     "Si quieres un párrafo con un wrapper, usa <section> o <article>."]
    [mkRef "MDN: <p>"
       "https://developer.mozilla.org/es/docs/Web/HTML/Element/p";
     mkRef "HTML Spec: phrasing content"
       "https://html.spec.whatwg.org/multipage/dom.html#phrasing-content"];
  mkRule "p" "h1"
    "Los encabezados no pueden ir dentro de <p>."
    ["Cierra el <p> antes del encabezado.";
     "Usa <p> antes y después del encabezado."]
    [mkRef "MDN: <p>"
       "https://developer.mozilla.org/es/docs/Web/HTML/Element/p"];
  mkRule "p" "h2"
    "Los encabezados no pueden ir dentro de <p>."
    ["Cierra el <p> antes del encabezado."]
    [mkRef "MDN: <p>"
       "https://developer.mozilla.org/es/docs/Web/HTML/Element/p"];
  mkRule "p" "h3"
    "Los encabezados no pueden ir dentro de <p>."
    ["Cierra el <p> antes del encabezado."]
    [mkRef "MDN: <p>"
       "https://developer.mozilla.org/es/docs/Web/HTML/Element/p"];
  mkRule "p" "h4"
    "Los encabezados no pueden ir dentro de <p>."
    ["Cierra el <p> antes del encabezado."]
    [mkRef "MDN: <p>"
       "https://developer.mozilla.org/es/docs/Web/HTML/Element/p"];
  mkRule "p" "h5"
    "Los encabezados no pueden ir dentro de <p>."
    ["Cierra el <p> antes del encabezado."]
    [mkRef "MDN: <p>"
       "https://developer.mozilla.org/es/docs/Web/HTML/Element/p"];
  mkRule "p" "h6"
    "Los encabezados no pueden ir dentro de <p>."
    ["Cierra el <p> antes del encabezado."]
    [mkRef "MDN: <p>"
       "https://developer.mozilla.org/es/docs/Web/HTML/Element/p"];
  mkRule "p" "ul"
    "<ul> es un bloque y no puede ir dentro de <p>."
    ["Cierra <p> antes de la lista.";
     "Usa un <div> como wrapper en lugar de <p>."]
    [mkRef "MDN: <p>"
       "https://developer.mozilla.org/es/docs/Web/HTML/Element/p"];
  mkRule "p" "ol"
    "<ol> es un bloque y no puede ir dentro de <p>."
    ["Cierra <p> antes de la lista.";
     "Usa un <div> como wrapper."]
    [mkRef "MDN: <p>"
       "https://developer.mozilla.org/es/docs/Web/HTML/Element/p"];
  mkRule "p" "table"
    "<table> es un bloque y no puede ir dentro de <p>."
    ["Coloca la tabla fuera del <p>.";
     "Usa un <div> o <section> como contenedor."]
    [mkRef "MDN: <p>"
       "https://developer.mozilla.org/es/docs/Web/HTML/Element/p"];
  mkRule "p" "form"
    "<form> no puede anidarse dentro de <p>."
    ["Coloca el <form> fuera del <p>."]
    [mkRef "MDN: <p>"
       "https://developer.mozilla.org/es/docs/Web/HTML/Element/p"];
  mkRule "p" "blockquote"
    "<blockquote> es un bloque y no puede ir dentro de <p>."
    ["Coloca el <blockquote> fuera del <p>."]
    [mkRef "MDN: <p>"
       "https://developer.mozilla.org/es/docs/Web/HTML/Element/p"];
  mkRule "p" "pre"
    "<pre> es un bloque y no puede ir dentro de <p>."
    ["Coloca el <pre> fuera del <p>."]
    [mkRef "MDN: <p>"
       "https://developer.mozilla.org/es/docs/Web/HTML/Element/p"];
  mkRule "p" "section"
    "<section> es un bloque y no puede ir dentro de <p>."
    ["Usa <div> en lugar de <p>, o reestructura el contenido."]
    [mkRef "MDN: <p>"
       "https://developer.mozilla.org/es/docs/Web/HTML/Element/p"];
  mkRule "p" "article"
    "<article> es un bloque y no puede ir dentro de <p>."
    ["Usa <div> como contenedor en lugar de <p>."]
    [mkRef "MDN: <p>"
       "https://developer.mozilla.org/es/docs/Web/HTML/Element/p"];
  mkRule "p" "aside"
    "<aside> es un bloque y no puede ir dentro de <p>."
    ["Usa <div> como contenedor."]
    [mkRef "MDN: <p>"
       "https://developer.mozilla.org/es/docs/Web/HTML/Element/p"];
  mkRule "p" "figure"
    "<figure> es un bloque y no puede ir dentro de <p>."
    ["Coloca el <figure> fuera del <p>."]
    [mkRef "MDN: <figure>"
       "https://developer.mozilla.org/es/docs/Web/HTML/Element/figure"];
  mkRule "p" "footer"
    "<footer> es un bloque y no puede ir dentro de <p>."
    ["Coloca el <footer> fuera del <p>."]
    [mkRef "MDN: <p>"
       "https://developer.mozilla.org/es/docs/Web/HTML/Element/p"];
  mkRule "p" "header"
    "<header> es un bloque y no puede ir dentro de <p>."
    ["Coloca el <header> fuera del <p>."]
    [mkRef "MDN: <p>"
       "https://developer.mozilla.org/es/docs/Web/HTML/Element/p"];
  mkRule "p" "nav"
    "<nav> es un bloque y no puede ir dentro de <p>."
    ["Coloca el <nav> fuera del <p>."]
    [mkRef "MDN: <p>"
       "https://developer.mozilla.org/es/docs/Web/HTML/Element/p"];
  mkRule "p" "main"
    "<main> es un bloque y no puede ir dentro de <p>."
    ["Coloca el <main> fuera del <p>."]
    [mkRef "MDN: <p>"
       "https://developer.mozilla.org/es/docs/Web/HTML/Element/p"];
  mkRule "a" "a"
    "No puedes anidar un <a> dentro de otro <a>. Es inválido según la especificación HTML."
    ["Usa CSS para dar apariencia de enlace a un contenedor.";
     "Usa JavaScript (onclick) en un <div> o <span>.";
     "Reestructura el contenido para tener enlaces separados."]
    [mkRef "MDN: <a>"
       "https://developer.mozilla.org/es/docs/Web/HTML/Element/a";
     mkRef "HTML Spec: transparent content"
       "https://html.spec.whatwg.org/multipage/text-level-semantics.html#the-a-element"];
  mkRule "a" "button"
    "Un <button> es interactivo y no puede estar dentro de un <a> (ambos son focusables)."
    ["Usa solo <a> o solo <button>, no ambos.";
     "Si necesitas un enlace con estilo de botón, usa <a class='btn'>.";
     "Si necesitas acción + navegación, maneja con JavaScript."]
    [mkRef "MDN: <a>"
       "https://developer.mozilla.org/es/docs/Web/HTML/Element/a";
     mkRef "WCAG: Interactive elements"
       "https://www.w3.org/WAI/WCAG21/Understanding/keyboard.html"];
  mkRule "a" "input"
    "Elementos de formulario interactivos no deben ir dentro de <a>."
    ["Usa el formulario fuera del enlace.";
     "Usa JavaScript para la acción del input."]
    [mkRef "MDN: <a>"
       "https://developer.mozilla.org/es/docs/Web/HTML/Element/a"];
  mkRule "a" "select"
    "Elementos de formulario interactivos no deben ir dentro de <a>."
    ["Usa el select fuera del enlace."]
    [mkRef "MDN: <a>"
       "https://developer.mozilla.org/es/docs/Web/HTML/Element/a"];
  mkRule "a" "textarea"
    "Elementos de formulario interactivos no deben ir dentro de <a>."
    ["Usa el textarea fuera del enlace."]
    [mkRef "MDN: <a>"
       "https://developer.mozilla.org/es/docs/Web/HTML/Element/a"];
  mkRule "button" "a"
    "Un enlace <a> no puede estar dentro de un <button>. Crea conflictos de accesibilidad y comportamiento."
    ["Usa solo <a> con estilos CSS para que parezca botón.";
     "Usa solo <button> con JavaScript para la navegación.";
     "Usa <a role='button'> para semántica de botón en un enlace."]
    [mkRef "MDN: <button>"
       "https://developer.mozilla.org/es/docs/Web/HTML/Element/button";
     mkRef "WCAG: Botones y enlaces"
       "https://www.w3.org/WAI/WCAG21/Techniques/html/H91"];
  mkRule "button" "button"
    "No puedes anidar un <button> dentro de otro <button>."
    ["Usa botones separados.";
     "Usa CSS para crear grupos de botones visualmente."]
    [mkRef "MDN: <button>"
       "https://developer.mozilla.org/es/docs/Web/HTML/Element/button"];
  mkRule "button" "input"
    "Elementos de formulario interactivos no deben ir dentro de <button>."
    ["Usa el input fuera del botón."]
    [mkRef "MDN: <button>"
       "https://developer.mozilla.org/es/docs/Web/HTML/Element/button"];
  mkRule "table" "div"
    "<div> no puede ser hijo directo de <table>. Los hijos válidos son: <thead>, <tbody>, <tfoot>, <tr>, <caption>, <colgroup>."
    ["Usa <td> o <th> para el contenido.";
     "Coloca el <div> dentro de una celda <td>.";
     "Considera usar CSS Grid o Flexbox si no necesitas semántica de tabla."]
    [mkRef "MDN: <table>"
       "https://developer.mozilla.org/es/docs/Web/HTML/Element/table";
     mkRef "HTML Spec: table"
       "https://html.spec.whatwg.org/multipage/tables.html#the-table-element"];
  mkRule "table" "p"
    "<p> no puede ser hijo directo de <table>."
    ["Coloca el <p> dentro de una celda <td>.";
     "Usa <caption> para texto descriptivo de la tabla."]
    [mkRef "MDN: <table>"
       "https://developer.mozilla.org/es/docs/Web/HTML/Element/table"];
  mkRule "tr" "div"
    "<div> no puede ser hijo directo de <tr>. Solo se permiten <td> y <th>."
    ["Coloca el <div> dentro de <td>.";
     "Usa CSS para lograr el layout deseado dentro de la celda."]
    [mkRef "MDN: <tr>"
       "https://developer.mozilla.org/es/docs/Web/HTML/Element/tr"];
  mkRule "tr" "p"
    "<p> no puede ser hijo directo de <tr>. Solo se permiten <td> y <th>."
    ["Coloca el <p> dentro de <td>."]
    [mkRef "MDN: <tr>"
       "https://developer.mozilla.org/es/docs/Web/HTML/Element/tr"];
  mkRule "tr" "span"
    "<span> no puede ser hijo directo de <tr>."
    ["Coloca el <span> dentro de <td>."]
    [mkRef "MDN: <tr>"
       "https://developer.mozilla.org/es/docs/Web/HTML/Element/tr"];
  mkRule "tr" "a"
    "<a> no puede ser hijo directo de <tr>."
    ["Coloca el enlace dentro de <td>."]
    [mkRef "MDN: <tr>"
       "https://developer.mozilla.org/es/docs/Web/HTML/Element/tr"];
  mkRule "ul" "div"
    "<ul> solo puede contener elementos <li> como hijos directos."
    ["Envuelve el <div> dentro de un <li>.";
     "Usa CSS Flexbox/Grid en lugar de <ul> si no necesitas semántica de lista."]
    [mkRef "MDN: <ul>"
       "https://developer.mozilla.org/es/docs/Web/HTML/Element/ul"];
  mkRule "ul" "p"
    "<ul> solo puede contener elementos <li> como hijos directos."
    ["Envuelve el <p> dentro de un <li>."]
    [mkRef "MDN: <ul>"
       "https://developer.mozilla.org/es/docs/Web/HTML/Element/ul"];
  mkRule "ul" "span"
    "<ul> solo puede contener elementos <li> como hijos directos."
    ["Envuelve el <span> dentro de un <li>."]
    [mkRef "MDN: <ul>"
       "https://developer.mozilla.org/es/docs/Web/HTML/Element/ul"];
  mkRule "ul" "a"
    "<ul> solo puede contener <li> como hijos directos."
    ["Envuelve el <a> dentro de un <li>."]
    [mkRef "MDN: <ul>"
       "https://developer.mozilla.org/es/docs/Web/HTML/Element/ul"];
  mkRule "ol" "div"
    "<ol> solo puede contener elementos <li> como hijos directos."
    ["Envuelve el <div> dentro de un <li>."]
    [mkRef "MDN: <ol>"
       "https://developer.mozilla.org/es/docs/Web/HTML/Element/ol"];
  mkRule "ol" "p"
    "<ol> solo puede contener elementos <li> como hijos directos."
    ["Envuelve el <p> dentro de un <li>."]
    [mkRef "MDN: <ol>"
       "https://developer.mozilla.org/es/docs/Web/HTML/Element/ol"];
  mkRule "head" "div"
    "<head> no puede contener elementos visibles como <div>."
    ["Coloca el <div> dentro del <body>.";
     "Usa <meta>, <link>, <script> o <style> dentro de <head>."]
    [mkRef "MDN: <head>"
       "https://developer.mozilla.org/es/docs/Web/HTML/Element/head"];
  mkRule "head" "p"
    "<head> no puede contener elementos visibles como <p>."
    ["Coloca el contenido dentro del <body>."]
    [mkRef "MDN: <head>"
       "https://developer.mozilla.org/es/docs/Web/HTML/Element/head"];
  mkRule "form" "form"
    "No puedes anidar un <form> dentro de otro <form>."
    ["Usa un solo formulario con fieldsets para agrupar.";
     "Usa JavaScript para manejar múltiples sets de datos.";
     "Usa <dialog> para formularios secundarios."]
    [mkRef "MDN: <form>"
       "https://developer.mozilla.org/es/docs/Web/HTML/Element/form";
     mkRef "HTML Spec: form"
       "https://html.spec.whatwg.org/multipage/form-elements.html#the-form-element"];
  mkRule "h1" "h1"
    "No puedes anidar encabezados del mismo nivel."
    ["Usa encabezados jerárquicos (h1 > h2 > h3...)."]
    [mkRef "MDN: Headings"
       "https://developer.mozilla.org/es/docs/Web/HTML/Element/Heading_Elements"];
  mkRule "h1" "h2"
    "No puedes anidar encabezados dentro de otros encabezados."
    ["Usa los encabezados como elementos separados, no anidados."]
    [mkRef "MDN: Headings"
       "https://developer.mozilla.org/es/docs/Web/HTML/Element/Heading_Elements"];
  mkRule "h2" "h1"
    "No puedes anidar encabezados."
    ["Usa los encabezados como elementos separados."]
    [mkRef "MDN: Headings"
       "https://developer.mozilla.org/es/docs/Web/HTML/Element/Heading_Elements"];
  mkRule "label" "label"
    "No puedes anidar un <label> dentro de otro <label>."
    ["Usa etiquetas separadas para cada control de formulario."]
    [mkRef "MDN: <label>"
       "https://developer.mozilla.org/es/docs/Web/HTML/Element/label"];
  mkRule "select" "div"
    "<select> solo puede contener <option> y <optgroup>."
    ["Usa <option> para las opciones.";
     "Si necesitas más control visual, considera librerías de UI custom."]
    [mkRef "MDN: <select>"
       "https://developer.mozilla.org/es/docs/Web/HTML/Element/select"];
  mkRule "select" "span"
    "<select> solo puede contener <option> y <optgroup>."
    ["Usa <option> dentro de <select>."]
    [mkRef "MDN: <select>"
       "https://developer.mozilla.org/es/docs/Web/HTML/Element/select"];
  mkRule "figcaption" "figcaption"
    "No puedes anidar <figcaption> dentro de otro <figcaption>."
    ["Usa solo un <figcaption> por <figure>."]
    [mkRef "MDN: <figcaption>"
       "https://developer.mozilla.org/es/docs/Web/HTML/Element/figcaption"];
  mkRule "summary" "div"
    "<summary> solo puede contener phrasing content. <div> es un bloque."
    ["Usa <span> o texto directamente en <summary>."]
    [mkRef "MDN: <summary>"
       "https://developer.mozilla.org/es/docs/Web/HTML/Element/summary"];
  mkRule "dt" "div"
    "<dt> solo puede contener phrasing content."
    ["Usa solo texto o elementos inline dentro de <dt>."]
    [mkRef "MDN: <dt>"
       "https://developer.mozilla.org/es/docs/Web/HTML/Element/dt"];
  mkRule "caption" "table"
    "No puedes anidar una tabla dentro de <caption>."
    ["Usa <p> o texto simple en <caption>."]
    [mkRef "MDN: <caption>"
       "https://developer.mozilla.org/es/docs/Web/HTML/Element/caption"]
].

Definition DEFAULT_REFS : list Reference :=
  [mkRef "HTML Living Standard" "https://html.spec.whatwg.org/";
   mkRef "MDN: Referencia HTML"
     "https://developer.mozilla.org/es/docs/Web/HTML/Element"].

(** [makeRule]; the optional [references] argument is passed explicitly. *)
Definition makeRule (parent child reason : string)
    (alternatives : list string) (references : list Reference) : NestingRule :=
  mkRule parent child reason alternatives references.

(** [Set.prototype.has]. *)
Definition has (s : gset string) (x : string) : bool := bool_decide (x ∈ s).

(** [generateRulesForAllowedChildren]: one rule per catalog tag, in catalog
    order, that is not an allowed child. *)
Definition generateRulesForAllowedChildren (parent : string)
    (allowedChildren : gset string) (reason : string)
    (alternatives : list string) (references : list Reference)
    : list NestingRule :=
  fold_left
    (fun rules child =>
       if negb (has allowedChildren child)
       then (rules ++ [makeRule parent child reason alternatives references])%list
       else rules)
    ALL_HTML_TAGS [].

(** The call [generateRulesForAllowedChildren(parent, new Set(allowed),
    reason, [alternative])], with the default references. *)
Definition strictChildren (parent : string) (allowed : list string)
    (reason alternative : string) : list NestingRule :=
  generateRulesForAllowedChildren parent (list_to_set allowed) reason
    [alternative] DEFAULT_REFS.

(** The rules pushed on [autoRules], in program order, before the final
    [filter]. *)
Definition autoRules : list NestingRule :=
  (strictChildren "html" ["head"; "body"]
    "<html> solo puede contener <head> y <body> como hijos directos."
    "Mueve este elemento dentro de <head> o <body> según corresponda."
  ++ strictChildren "head"
    ["base"; "link"; "meta"; "noscript"; "script"; "style"; "template"; "title"]
    "<head> solo puede contener metadatos y recursos del documento."
    "Mueve contenido visible dentro de <body>."
  ++ strictChildren "table"
    ["caption"; "colgroup"; "thead"; "tbody"; "tfoot"; "tr"; "script"; "template"]
    "<table> tiene una estructura de hijos directos restringida por la especificación."
    "Usa <thead>, <tbody>, <tfoot> y filas <tr> para estructurar la tabla."
  ++ strictChildren "colgroup" ["col"; "template"]
    "<colgroup> solo admite <col> (y opcionalmente <template>)."
    "Reemplaza este hijo por elementos <col>."
  ++ concat (map
       (fun sectionTag =>
          strictChildren sectionTag ["tr"; "script"; "template"]
            ("<" ++ sectionTag ++ "> solo admite filas <tr> como hijos directos.")%string
            "Mueve este elemento dentro de una celda (<td>/<th>) dentro de <tr>.")
       ["thead"; "tbody"; "tfoot"])
  ++ strictChildren "tr" ["td"; "th"; "script"; "template"]
    "<tr> solo puede contener celdas <td> o encabezados <th>."
    "Encapsula el contenido dentro de <td> o <th>."
  ++ concat (map
       (fun listTag =>
          strictChildren listTag ["li"; "script"; "template"]
            ("<" ++ listTag ++ "> solo puede contener <li> como hijos directos.")%string
            "Envuelve el contenido en <li>.")
       ["ul"; "ol"; "menu"])
  ++ strictChildren "dl" ["dt"; "dd"; "script"; "template"]
    "<dl> solo puede contener pares <dt>/<dd> como hijos directos."
    "Usa <dt> para términos y <dd> para descripciones."
  ++ strictChildren "select" ["option"; "optgroup"; "hr"; "script"; "template"]
    "<select> solo admite <option> y <optgroup> como contenido principal."
    "Reemplaza este elemento por <option> u <optgroup>."
  ++ strictChildren "optgroup" ["option"; "script"; "template"]
    "<optgroup> solo puede contener elementos <option>."
    "Mueve este nodo fuera del <optgroup> o conviértelo en <option>."
  ++ strictChildren "picture" ["source"; "img"; "script"; "template"]
    "<picture> solo puede contener <source> y un <img> de fallback."
    "Usa <source> para variantes y <img> como fallback."
  ++ concat (map
       (fun parent =>
          generateRulesForAllowedChildren parent PHRASING_CONTENT_TAGS
            ("<" ++ parent ++ "> solo puede contener phrasing content (contenido inline).")%string
            ["Mueve elementos de bloque fuera del contenedor o usa un wrapper de bloque."]
            DEFAULT_REFS)
       ["p"; "summary"; "dt"; "legend"; "h1"; "h2"; "h3"; "h4"; "h5"; "h6"])
  ++ map
       (fun child =>
          makeRule "a" child
            "<a> no debe contener elementos interactivos anidados."
            ["Usa un único elemento interactivo por control de UI."]
            DEFAULT_REFS)
       ["a"; "button"; "input"; "select"; "textarea"; "label"; "details"]
  ++ map
       (fun child =>
          makeRule "button" child
            "<button> no debe contener elementos interactivos anidados."
            ["Usa controles separados o reestructura la interacción."]
            DEFAULT_REFS)
       ["a"; "button"; "input"; "select"; "textarea"; "label"; "details"; "form"]
  ++ [makeRule "form" "form"
        "No puedes anidar un <form> dentro de otro <form>."
        ["Usa un único formulario y agrupa secciones con <fieldset>."]
        DEFAULT_REFS]
  ++ [makeRule "label" "label"
        "No puedes anidar un <label> dentro de otro <label>."
        ["Usa etiquetas separadas para cada control de formulario."]
        DEFAULT_REFS])%list.

(** [generateAutomaticRules]: the pushed rules filtered against the
    catalog. *)
Definition inCatalog (rule : NestingRule) : bool :=
  has HTML_TAGS_SET (parent rule) && has HTML_TAGS_SET (child rule).

Definition generateAutomaticRules : list NestingRule :=
  List.filter inCatalog autoRules.

Definition GENERATED_NESTING_RULES : list NestingRule := generateAutomaticRules.

Definition NESTING_RULES_COMPLETE : list NestingRule :=
  NESTING_RULES ++ GENERATED_NESTING_RULES.

(** The key [`${rule.parent}::${rule.child}`]. *)
Definition ruleKey (parent child : string) : string :=
  (parent ++ "::" ++ child)%string.

(** [buildRulesMap]: [Map.prototype.set] in list order; setting an existing
    key replaces its value. *)
Definition buildRulesMap (rules : list NestingRule) : gmap string NestingRule :=
  fold_left (fun map rule => <[ruleKey (parent rule) (child rule) := rule]> map)
    rules ∅.

Definition RULES_MAP : gmap string NestingRule :=
  buildRulesMap NESTING_RULES_COMPLETE.

(** The index exported by the checked-in JavaScript build of this module,
    which predates the generated rules: [buildRulesMap(NESTING_RULES)]. *)
Definition RULES_MAP_build : gmap string NestingRule :=
  buildRulesMap NESTING_RULES.

End NestingRules.

(** ** JavaScript strings and regular expressions *)

Module JsString.

(** The code units of an ASCII literal. *)
Definition units (s : string) : list N :=
  map N_of_ascii (String.list_ascii_of_string s).

(** A sequence of ASCII code units read back as a [string] (used for tag
    names only). *)
Definition nameOf (l : list N) : string :=
  String.string_of_list_ascii (map ascii_of_N l).

Definition between (lo hi c : N) : bool := ((lo <=? c) && (c <=? hi))%N.

Definition isUpper (c : N) : bool := between 65 90 c.
Definition isLower (c : N) : bool := between 97 122 c.
Definition isDigit (c : N) : bool := between 48 57 c.

(** [[a-zA-Z]] *)
Definition isLetter (c : N) : bool := isUpper c || isLower c.

(** [[a-zA-Z0-9-]] *)
Definition isNameChar (c : N) : bool := isLetter c || isDigit c || (c =? 45)%N.

(** [\w], used by [\b] *)
Definition isWordChar (c : N) : bool := isLetter c || isDigit c || (c =? 95)%N.

(** [\s]: the WhiteSpace and LineTerminator code points of ECMAScript. *)
Definition isSpace (c : N) : bool :=
  between 9 13 c || (c =? 32)%N || (c =? 160)%N || (c =? 5760)%N
  || between 8192 8202 c || (c =? 8232)%N || (c =? 8233)%N
  || (c =? 8239)%N || (c =? 8287)%N || (c =? 12288)%N || (c =? 65279)%N.

(** [[^>]] *)
Definition notGt (c : N) : bool := negb (c =? 62)%N.

(** [String.prototype.toLowerCase] on a name matched by
    [[a-zA-Z][a-zA-Z0-9-]*]: A-Z go to a-z, the other characters of that
    class are fixed. *)
Definition lowerUnit (c : N) : N := if isUpper c then (c + 32)%N else c.
Definition toLowerCase (l : list N) : list N := map lowerUnit l.

(** Canonicalisation of a code unit under the [i] flag (no [u] flag), as
    far as comparison with an ASCII pattern character goes: a-z go to A-Z,
    and no code unit from 128 on is canonicalised below 128. *)
Definition canon (c : N) : N := if isLower c then (c - 32)%N else c.

Fixpoint takeWhile (p : N -> bool) (s : list N) : list N :=
  match s with
  | c :: s' => if p c then c :: takeWhile p s' else []
  | [] => []
  end.

Fixpoint dropWhile (p : N -> bool) (s : list N) : list N :=
  match s with
  | c :: s' => if p c then dropWhile p s' else s
  | [] => []
  end.

(** A greedy optional character [c?]: what it consumes and what is left. *)
Definition optionalUnit (c : N) (s : list N) : list N * list N :=
  match s with
  | d :: s' => if (d =? c)%N then ([d], s') else ([], s)
  | [] => ([], [])
  end.

(** [s.startsWith(p)], and [startsWith] up to case for the [i] flag. *)
Fixpoint startsWith (p s : list N) : bool :=
  match p, s with
  | [], _ => true
  | a :: p', c :: s' => (a =? c)%N && startsWith p' s'
  | _ :: _, [] => false
  end.

Fixpoint startsWithCi (p s : list N) : bool :=
  match p, s with
  | [], _ => true
  | a :: p', c :: s' => (canon a =? canon c)%N && startsWithCi p' s'
  | _ :: _, [] => false
  end.

(** [s.endsWith(p)] *)
Definition endsWith (p s : list N) : bool :=
  (length p <=? length s) && startsWith p (drop (length s - length p) s).

(** [s.indexOf(c)] for a one-character needle, counted from the start of
    [s]; [None] stands for [-1]. *)
Fixpoint indexOf (c : N) (s : list N) : option nat :=
  match s with
  | [] => None
  | d :: s' => if (d =? c)%N then Some 0 else S <$> indexOf c s'
  end.

(** [s.indexOf(c, from)] *)
Definition indexOfFrom (c : N) (s : list N) (from : nat) : option nat :=
  (fun k => from + k) <$> indexOf c (drop from s).

(** [s.slice(a, b)] for non-negative [a] and [b]. *)
Definition slice (s : list N) (a b : nat) : list N :=
  take (b - a) (drop a s).

(** A successful match: [match[0]] and the capture groups [match[1]],
    [match[2]], ..., each [None] when [undefined]; [index] is kept beside it
    by [exec]. *)
Record Match : Type := mkMatch {
  m_full : list N;
  m_groups : list (option (list N))
}.

(** *** Regular expressions and backtracking matching

    The fragment of the pattern syntax the program uses: a character class,
    concatenation, a greedy or lazy [*] on a character class, a greedy [?],
    a capture group and [\b].  Matching follows the backtracking order of
    the language: a greedy quantifier tries one more repetition first, a
    lazy one tries the rest of the pattern first. *)

Inductive regex : Type :=
  | Eps
  | Chr (p : N -> bool)
  | Seq (a b : regex)
  | Star (greedy : bool) (p : N -> bool)
  | Opt (a : regex)
  | Group (i : nat) (a : regex)
  | WordB.

(** A continuation takes the text matched so far, the rest of the input
    and the captures. *)
Definition cont : Type :=
  list N -> list N -> list (option (list N)) -> option Match.

Definition isWordOpt (c : option N) : bool := from_option isWordChar false c.

Section Matcher.
(** The code unit before the position the pattern is anchored at. *)
Variable prev0 : option N.

Fixpoint star (greedy : bool) (p : N -> bool) (k : cont)
    (matched rest : list N) (caps : list (option (list N))) : option Match :=
  match rest with
  | [] => k matched rest caps
  | c :: rest' =>
      if greedy then
        if p c then
          match star greedy p k (matched ++ [c]) rest' caps with
          | Some m => Some m
          | None => k matched rest caps
          end
        else k matched rest caps
      else
        match k matched rest caps with
        | Some m => Some m
        | None =>
            if p c then star greedy p k (matched ++ [c]) rest' caps else None
        end
  end.

(** [Opt] rejects a repetition that matched the empty string before it
    falls back to no repetition; no [Opt] of the program holds a group. *)
Fixpoint matcher (r : regex) (k : cont) (matched rest : list N)
    (caps : list (option (list N))) : option Match :=
  match r with
  | Eps => k matched rest caps
  | Chr p =>
      match rest with
      | c :: rest' => if p c then k (matched ++ [c]) rest' caps else None
      | [] => None
      end
  | Seq a b => matcher a (matcher b k) matched rest caps
  | Star greedy p => star greedy p k matched rest caps
  | Opt a =>
      match matcher a
              (fun matched' rest' caps' =>
                 if length matched' =? length matched then None
                 else k matched' rest' caps')
              matched rest caps with
      | Some m => Some m
      | None => k matched rest caps
      end
  | Group i a =>
      matcher a
        (fun matched' rest' caps' =>
           k matched' rest'
             (<[i - 1 := Some (drop (length matched) matched')]> caps'))
        matched rest caps
  | WordB =>
      if xorb (isWordOpt (match last matched with
                          | Some c => Some c
                          | None => prev0
                          end))
              (isWordOpt (head rest))
      then k matched rest caps
      else None
  end.

(** The match of [r], a pattern with [groups] capture groups, anchored at
    the start of [s]. *)
Definition regexAt (r : regex) (groups : nat) (s : list N) : option Match :=
  matcher r (fun matched _ caps => Some (mkMatch matched caps)) [] s
    (replicate groups None).
End Matcher.

(** A literal character, a literal string, and both under the [i] flag. *)
Definition lit (c : N) : regex := Chr (N.eqb c).
Definition litCi (c : N) : regex := Chr (fun d => (canon c =? canon d)%N).
Definition str (l : list N) : regex := foldr (fun c r => Seq (lit c) r) Eps l.
Definition strCi (l : list N) : regex := foldr (fun c r => Seq (litCi c) r) Eps l.

(** [/<\/?([a-zA-Z][a-zA-Z0-9-]* )\s*(?:[^>]* )?(\/?)>/], written here
    with a blank after each [*] that a parenthesis follows. *)
Definition tagRegex : regex :=
  Seq (lit 60)
   (Seq (Opt (lit 47))
     (Seq (Group 1 (Seq (Chr isLetter) (Star true isNameChar)))
       (Seq (Star true isSpace)
         (Seq (Opt (Star true notGt))
           (Seq (Group 2 (Opt (lit 47)))
             (lit 62)))))).

(** [/\breturn\s*\(\s*/] *)
Definition returnRegex : regex :=
  Seq WordB
   (Seq (str (units "return"))
     (Seq (Star true isSpace)
       (Seq (lit 40) (Star true isSpace)))).

(** [/<template[^>]*>([\s\S]*?)<\/template>/i] *)
Definition templateRegex : regex :=
  Seq (strCi (units "<template"))
   (Seq (Star true notGt)
     (Seq (litCi 62)
       (Seq (Group 1 (Star false (fun _ => true)))
         (strCi (units "</template>"))))).

Section Exec.
(** [matchAt prev s]: the match of the pattern anchored at the start of
    [s], where [prev] is the code unit just before [s] (needed by [\b]). *)
Variable matchAt : option N -> list N -> option Match.

(** The leftmost position from which the pattern matches. *)
Fixpoint searchFrom (prev : option N) (s : list N) (i : nat)
    : option (nat * Match) :=
  match matchAt prev s with
  | Some m => Some (i, m)
  | None =>
      match s with
      | [] => None
      | c :: s' => searchFrom (Some c) s' (S i)
      end
  end.

(** [regex.exec(text)] with [regex.lastIndex = lastIndex]: the index and
    the match, or [None] for [null].  A global regex then sets
    [lastIndex] to [index + match[0].length]. *)
Definition exec (text : list N) (lastIndex : nat) : option (nat * Match) :=
  if decide (lastIndex ≤ length text)
  then searchFrom (match lastIndex with
                   | 0 => None
                   | S k => text !! k
                   end) (drop lastIndex text) lastIndex
  else None.
End Exec.

(** [r.exec(text)] for a pattern [r] with [groups] capture groups. *)
Definition regexExec (r : regex) (groups : nat) (text : list N)
    (lastIndex : nat) : option (nat * Match) :=
  exec (fun prev s => regexAt prev r groups s) text lastIndex.

(** *** The three patterns in closed form

    What [regexAt] computes for each pattern of the program, written as
    plain list functions; the lemmas [tagRegex_at_regex],
    [returnRegex_at_regex] and [templateRegex_at_regex] prove the
    agreement. *)

(** [tagRegex] anchored at the start of [s], in closed form.  None of the
    classes after the name can consume [>], so a match ends at the first
    [>] after the first letter and exists exactly when there is one; the
    greedy choices (longest name, then [[^>]*] up to that [>]) succeed at
    once, which leaves group 2 empty (lemma [tagRegex_at_regex]). *)
Definition tagRegex_at (_ : option N) (s : list N) : option Match :=
  match s with
  | lt :: r =>
      if (lt =? 60)%N then
        let '(slash, r1) := optionalUnit 47 r in
        match r1 with
        | c :: r2 =>
            if isLetter c then
              let name := c :: takeWhile isNameChar r2 in
              let rest := dropWhile isNameChar r2 in
              match dropWhile notGt rest with
              | gt :: _ =>
                  Some (mkMatch
                          (lt :: slash ++ name ++ takeWhile notGt rest ++ [gt])
                          [Some name; Some []])
              | [] => None
              end
            else None
        | [] => None
        end
      else None
  | [] => None
  end.

(** [\b] between [prev] and the head of [s]. *)
Definition wordBoundary (prev : option N) (s : list N) : bool :=
  xorb (from_option isWordChar false prev)
       (from_option isWordChar false (head s)).

(** [returnRegex] anchored at the start of [s], in closed form (lemma
    [returnRegex_at_regex]). *)
Definition returnRegex_at (prev : option N) (s : list N) : option Match :=
  if wordBoundary prev s && startsWith (units "return") s then
    let r := drop 6 s in
    match dropWhile isSpace r with
    | c :: r' =>
        if (c =? 40)%N then
          Some (mkMatch
                  (take 6 s ++ takeWhile isSpace r ++ [c]
                   ++ takeWhile isSpace r') [])
        else None
    | [] => None
    end
  else None.

(** The first position of [s], with the text before it, from which [p]
    starts up to case; used for the lazy [[\s\S]*?] before the closing
    tag. *)
Fixpoint lazyUntilCi (p s : list N) : option (list N) :=
  if startsWithCi p s then Some []
  else match s with
       | [] => None
       | c :: s' => (fun inner => c :: inner) <$> lazyUntilCi p s'
       end.

(** [templateRegex] anchored at the start of [s], in closed form: the
    opening tag runs to the first [>], the group to the first closing tag
    after it (lemma [templateRegex_at_regex]). *)
Definition templateRegex_at (_ : option N) (s : list N) : option Match :=
  if startsWithCi (units "<template") s then
    let r := drop 9 s in
    match dropWhile notGt r with
    | gt :: r' =>
        match lazyUntilCi (units "</template>") r' with
        | Some inner =>
            Some (mkMatch
                    (take 9 s ++ takeWhile notGt r ++ [gt] ++ inner
                     ++ take 11 (drop (length inner) r'))
                    [Some inner])
        | None => None
        end
    | [] => None
    end
  else None.

End JsString.

(** ** Region extraction, tokenizer and nesting checker ([parser.js]) *)

Module Parser.
Import NestingRules JsString.

(** Tags without a closing tag (void elements). *)
Definition VOID_ELEMENTS : gset string :=
  list_to_set
    ["area"; "base"; "br"; "col"; "embed"; "hr"; "img"; "input";
     "link"; "meta"; "param"; "source"; "track"; "wbr"].

(** Tags whose content is skipped by the tokenizer. *)
Definition SKIP_CONTENT_TAGS : gset string :=
  list_to_set ["script"; "style"; "template"].

Record MarkupRegion : Type := mkRegion { text : list N; baseOffset : nat }.

(** ["open" | "close" | "self-closing"] *)
Inductive TokenType : Type := open | close | self_closing.

Record Token : Type := mkToken {
  tok_type : TokenType;
  tok_name : string;
  tok_offset : nat;
  tok_length : nat
}.

Record ParentFrame : Type := mkFrame { frame_name : string; frame_offset : nat }.

(** An element of the result of [findNestingErrors]. *)
Record NestingError : Type := mkError {
  err_parent : string;
  err_child : string;
  err_offset : nat;
  err_length : nat;
  err_rule : NestingRule
}.

(** An element of the result of [analyzeDocument]: the error spread into a
    new object together with [absoluteOffset]. *)
Record Violation : Type := mkViolation {
  v_error : NestingError;
  absoluteOffset : nat
}.

#[export] Instance TokenType_eq_dec : EqDecision TokenType.
Proof. solve_decision. Defined.
#[export] Instance Token_eq_dec : EqDecision Token.
Proof. solve_decision. Defined.
#[export] Instance ParentFrame_eq_dec : EqDecision ParentFrame.
Proof. solve_decision. Defined.
#[export] Instance NestingError_eq_dec : EqDecision NestingError.
Proof. solve_decision. Defined.
#[export] Instance Violation_eq_dec : EqDecision Violation.
Proof. solve_decision. Defined.

(** *** [extractJsxRegions] *)

(** The inner [while (i < content.length && depth > 0)] loop; [rest] is the
    text from index [i] on.  Returns the final [i]. *)
Fixpoint scanParens (rest : list N) (i depth : nat) : nat :=
  match rest with
  | [] => i
  | c :: rest' =>
      if decide (0 < depth) then
        scanParens rest' (S i)
          (if (c =? 40)%N then S depth
           else if (c =? 41)%N then depth - 1
           else depth)
      else i
  end.

(** The [while ((match = returnRegex.exec(content)) !== null)] loop;
    [lastIndex] is the state of the global regex.  [regions.push] appends.
    [end = i - 1] is taken in [nat]: [i] is at least [start + 1] whenever a
    [<] exists at or after [start] (lemma [scanParens_advances]). *)
Fixpoint jsxLoop (fuel : nat) (content : list N) (lastIndex : nat)
    (regions : list MarkupRegion) : outcome (list MarkupRegion) :=
  match fuel with
  | 0 => NoFuel
  | S fuel' =>
      match regexExec returnRegex 0 content lastIndex with
      | None => Ret regions
      | Some (index, m) =>
          let start := index + length (m_full m) in
          match indexOfFrom 60 content start with
          | None => jsxLoop fuel' content start regions
          | Some ltIdx =>
              let i := scanParens (drop start content) start 1 in
              let end_ := i - 1 in
              jsxLoop fuel' content start
                (regions ++ [mkRegion (slice content ltIdx end_) ltIdx])
          end
      end
  end.

Definition extractJsxRegions (content : list N) : outcome (list MarkupRegion) :=
  regions ← jsxLoop (S (length content)) content 0 [];
  if decide (length regions = 0)
  then Ret (regions ++ [mkRegion content 0])
  else Ret regions.

(** *** [extractTemplateRegion] *)

(** [match[k]] for a group number [k] from 1 on, [None] for [undefined]. *)
Definition group (m : Match) (k : nat) : option (list N) :=
  match m_groups m !! (k - 1) with
  | Some (Some g) => Some g
  | _ => None
  end.

(** [match[0].indexOf(">")] is [-1] when absent, which leaves [match.index]
    as the offset; group 1 takes part in every match of the pattern. *)
Definition extractTemplateRegion (content : list N) : list MarkupRegion :=
  match regexExec templateRegex 1 content 0 with
  | Some (index, m) =>
      let offset :=
        match indexOf 62 (m_full m) with
        | Some k => index + k + 1
        | None => index
        end in
      [mkRegion (default [] (group m 1)) offset]
  | None => [mkRegion content 0]
  end.

(** *** [extractMarkupRegions] *)

Definition extractMarkupRegions (content : list N) (languageId : string)
    : outcome (list MarkupRegion) :=
  if decide (languageId = "html") then Ret [mkRegion content 0]
  else if decide (languageId = "javascriptreact") then extractJsxRegions content
  else if decide (languageId = "typescriptreact") then extractJsxRegions content
  else if decide (languageId = "vue") then Ret (extractTemplateRegion content)
  else if decide (languageId = "svelte") then Ret (extractTemplateRegion content)
  else if decide (languageId = "html-angular") then Ret [mkRegion content 0]
  else Ret [mkRegion content 0].

(** *** [tokenizeTags] *)

(** Truthiness of [skipUntil], a string or [null]. *)
Definition truthy (skipUntil : option string) : bool :=
  match skipUntil with
  | Some s => negb (String.eqb s "")
  | None => false
  end.

(** One iteration of the loop body on a match: the new [skipUntil] and the
    token pushed, if any.  [match[1].toLowerCase()] throws when group 1 is
    [undefined]. *)
Definition tokenizeStep (index : nat) (m : Match) (skipUntil : option string)
    : outcome (option string * option Token) :=
  let full := m_full m in
  match group m 1 with
  | None => Throw
  | Some g1 =>
      let name := nameOf (toLowerCase g1) in
      let selfClose :=
        bool_decide (group m 2 = Some (units "/")) || endsWith (units "/>") full in
      let isClose := startsWith (units "</") full in
      if truthy skipUntil then
        if isClose && bool_decide (Some name = skipUntil)
        then Ret (None, None)
        else Ret (skipUntil, None)
      else if negb isClose && has SKIP_CONTENT_TAGS name then
        Ret (Some name, None)
      else
        let type :=
          if isClose then close
          else if selfClose || has VOID_ELEMENTS name then self_closing
          else open in
        Ret (skipUntil, Some (mkToken type name index (length full)))
  end.

(** The [while ((match = tagRegex.exec(text)) !== null)] loop. *)
Fixpoint tokenizeLoop (fuel : nat) (text : list N) (lastIndex : nat)
    (skipUntil : option string) (tokens : list Token) : outcome (list Token) :=
  match fuel with
  | 0 => NoFuel
  | S fuel' =>
      match regexExec tagRegex 2 text lastIndex with
      | None => Ret tokens
      | Some (index, m) =>
          '(skipUntil', pushed) ← tokenizeStep index m skipUntil;
          tokenizeLoop fuel' text (index + length (m_full m)) skipUntil'
            (tokens ++ option_list pushed)
      end
  end.

Definition tokenizeTags (text : list N) : outcome (list Token) :=
  tokenizeLoop (S (length text)) text 0 None [].

(** *** [findNestingErrors] *)

Section Checker.
(** The rule index consulted by the checker ([nestingRules_1.RULES_MAP]). *)
Variable RULES_MAP : gmap string NestingRule.

(** The [for (let i = stack.length - 1; i >= 0; i--)] loop of the close
    branch, about to examine index [n - 1]; [stack.splice(i)] keeps the
    first [i] frames. *)
Fixpoint closeScan (stack : list ParentFrame) (name : string) (n : nat)
    : outcome (list ParentFrame) :=
  match n with
  | 0 => Ret stack
  | S i =>
      match stack !! i with
      | None => Throw
      | Some frame =>
          if decide (frame_name frame = name)
          then Ret (take i stack)
          else closeScan stack name i
      end
  end.

(** The body of the [for (const token of tokens)] loop on the state
    [(errors, stack)]; the top of the stack is the last element. *)
Definition checkToken (st : list NestingError * list ParentFrame) (token : Token)
    : outcome (list NestingError * list ParentFrame) :=
  let '(errors, stack) := st in
  match tok_type token with
  | open =>
      errors' ←
        (if decide (0 < length stack) then
           match stack !! (length stack - 1) with
           | None => Throw
           | Some top =>
               let parent := frame_name top in
               let key := ruleKey parent (tok_name token) in
               match RULES_MAP !! key with
               | Some rule =>
                   Ret (errors ++ [mkError parent (tok_name token)
                                     (tok_offset token) (tok_length token) rule])
               | None => Ret errors
               end
           end
         else Ret errors);
      Ret (errors', stack ++ [mkFrame (tok_name token) (tok_offset token)])
  | close =>
      stack' ← closeScan stack (tok_name token) (length stack);
      Ret (errors, stack')
  | self_closing => Ret (errors, stack)
  end.

Fixpoint checkTokens (st : list NestingError * list ParentFrame)
    (tokens : list Token) : outcome (list NestingError * list ParentFrame) :=
  match tokens with
  | [] => Ret st
  | token :: tokens' => st' ← checkToken st token; checkTokens st' tokens'
  end.

Definition findNestingErrors (tokens : list Token) : outcome (list NestingError) :=
  st ← checkTokens ([], []) tokens; Ret st.1.

(** *** [analyzeDocument] *)

Definition analyzeRegion (region : MarkupRegion) : outcome (list Violation) :=
  tokens ← tokenizeTags (text region);
  errors ← findNestingErrors tokens;
  Ret (map (fun err => mkViolation err (err_offset err + baseOffset region)) errors).

Fixpoint analyzeRegions (allErrors : list Violation) (regions : list MarkupRegion)
    : outcome (list Violation) :=
  match regions with
  | [] => Ret allErrors
  | region :: regions' =>
      vs ← analyzeRegion region;
      analyzeRegions (allErrors ++ vs) regions'
  end.

Definition analyzeDocument (content : list N) (languageId : string)
    : outcome (list Violation) :=
  regions ← extractMarkupRegions content languageId;
  analyzeRegions [] regions.
End Checker.

End Parser.

(** ** Diagnostics ([extension.js]) *)

Module Extension.
Import NestingRules JsString Parser.

Definition DIAGNOSTIC_SOURCE : string := "HTML Nesting Validator".

(** The setting [severity] of the configuration section
    [htmlNestingLinter], with the default of [get] applied. *)
Record Configuration : Type := mkConfiguration {
  severity : string
}.

(** The parts of the editor API the code uses. *)
Record Position : Type := mkPosition { line : nat; character : nat }.

Record TextDocument : Type := mkTextDocument {
  uri : string;
  languageId : string;
  getText : list N;
  positionAt : nat -> Position
}.

Inductive DiagnosticSeverity : Type :=
  | SeverityError
  | SeverityWarning
  | SeverityInformation
  | SeverityHint.

Record Range : Type := mkRange { range_start : Position; range_end : Position }.

Record Location : Type := mkLocation { loc_uri : string; loc_range : Range }.

Record DiagnosticRelatedInformation : Type := mkRelatedInformation {
  info_location : Location;
  info_message : string
}.

(** [target] holds the text handed to [Uri.parse]. *)
Record DiagnosticCode : Type := mkCode { value : string; target : string }.

Record Diagnostic : Type := mkDiagnostic {
  diag_range : Range;
  diag_message : string;
  diag_severity : DiagnosticSeverity;
  diag_source : string;
  diag_code : DiagnosticCode;
  relatedInformation : list DiagnosticRelatedInformation
}.

Definition getSeverity (cfg : Configuration) : DiagnosticSeverity :=
  if String.eqb (severity cfg) "warning" then SeverityWarning
  else if String.eqb (severity cfg) "info" then SeverityInformation
  else SeverityError.

Definition buildMessage (parent child reason : string) : string :=
  ("❌ <" ++ child ++ "> no puede estar dentro de <" ++ parent ++ ">. "
   ++ reason)%string.

(** [Array.prototype.join] *)
Definition join (sep : string) (l : list string) : string :=
  match l with
  | [] => ""
  | x :: l' => fold_left (fun acc y => (acc ++ sep ++ y)%string) l' x
  end.

Definition buildRelatedInfo (doc : TextDocument) (range : Range)
    (err : Violation) : list DiagnosticRelatedInformation :=
  let rule := err_rule (v_error err) in
  let info :=
    if decide (0 < length (alternatives rule)) then
      [mkRelatedInformation (mkLocation (uri doc) range)
         ("💡 Alternativas: " ++ join " | " (alternatives rule))%string]
    else [] in
  fold_left
    (fun info ref =>
       info ++ [mkRelatedInformation (mkLocation (uri doc) range)
                  ("📖 " ++ label ref ++ ": " ++ url ref)%string])
    (references rule) info.

(** The diagnostic built for one violation in the loop of
    [validateDocument]. *)
Definition diagnosticOf (doc : TextDocument) (sev : DiagnosticSeverity)
    (err : Violation) : Diagnostic :=
  let e := v_error err in
  let pos := positionAt doc (absoluteOffset err) in
  let endPos := positionAt doc (absoluteOffset err + err_length e) in
  let range := mkRange pos endPos in
  let message :=
    buildMessage (err_parent e) (err_child e) (reason (err_rule e)) in
  mkDiagnostic range message sev DIAGNOSTIC_SOURCE
    (mkCode (err_parent e ++ "-no-" ++ err_child e)%string
       (match references (err_rule e) with
        | ref :: _ => url ref
        | [] => "https://developer.mozilla.org/es/docs/Web/HTML"
        end))
    (buildRelatedInfo doc range err).

(** [validateDocument]; [diagnosticCollection] is the state, a map from
    document URIs to their diagnostics. *)
Definition validateDocument (cfg : Configuration) (doc : TextDocument)
    (diagnosticCollection : gmap string (list Diagnostic))
    : outcome (gmap string (list Diagnostic)) :=
  let content := getText doc in
  errors ← analyzeDocument RULES_MAP content (languageId doc);
  let sev := getSeverity cfg in
  let diagnostics :=
    fold_left (fun diagnostics err => diagnostics ++ [diagnosticOf doc sev err])
      errors [] in
  Ret (<[uri doc := diagnostics]> diagnosticCollection).

End Extension.

(** * Vocabulary of the properties

    Notions the statements below are phrased with; none of them is part of
    the program. *)

Import NestingRules JsString Parser.

#[export] Instance outcome_eq_dec {A : Type} `{EqDecision A} : EqDecision (outcome A).
Proof. solve_decision. Defined.

(** ** Regular expressions *)

(** A continuation that cannot succeed on a text without [>]. *)
Definition needsGt (k : cont) : Prop :=
  ∀ matched rest caps, Forall (fun c => c ≠ 62%N) rest ->
                       k matched rest caps = None.

(** A matcher consumes a non-empty prefix of the text it is anchored at. *)
Definition consuming (matchAt : option N -> list N -> option Match) : Prop :=
  ∀ prev s m, matchAt prev s = Some m ->
    m_full m ≠ [] ∧ ∃ rest, s = m_full m ++ rest.

(** The code unit before position [k] of [s], where [prev] precedes [s]. *)
Definition prevAt (prev : option N) (s : list N) (k : nat) : option N :=
  match k with
  | 0 => prev
  | S j => s !! j
  end.

(** The return pattern matches at position [k] of [content]. *)
Definition returnOpensAt (content : list N) (k : nat) : bool :=
  bool_decide
    (is_Some (regexAt (prevAt None content k) returnRegex 0 (drop k content))).

(** The return pattern occurs somewhere in [content]. *)
Definition hasReturnOpening (content : list N) : bool :=
  existsb (returnOpensAt content) (seq 0 (S (length content))).

(** [s] is [p] up to case. *)
Definition sameCi (p s : list N) : bool :=
  (length s =? length p) && startsWithCi p s.

(** [p] starts, up to case, at no position below [n] of [s]. *)
Definition noOccurrenceCi (p s : list N) (n : nat) : bool :=
  forallb (fun k => negb (startsWithCi p (drop k s))) (seq 0 n).

(** [content] holds a template block: [<template] starts at [p0] up to
    case, a [>] stands at [g0] after it, and [</template>] starts at [q0]
    after that, up to case. *)
Definition containsTemplateBlock (content : list N) : Prop :=
  ∃ p0 g0 q0,
    startsWithCi (units "<template") (drop p0 content) = true
    ∧ p0 + 9 ≤ g0 ∧ content !! g0 = Some 62%N
    ∧ g0 < q0
    ∧ startsWithCi (units "</template>") (drop q0 content) = true.

(** [content] split at its first template block: [o] is the first
    [<template], [attrs] runs to the first [>] after it, [c] is the first
    [</template>] after that [>]. *)
Definition firstTemplateBlock (pre o attrs inner c : list N) : Prop :=
  sameCi (units "<template") o = true
  ∧ forallb notGt attrs = true
  ∧ sameCi (units "</template>") c = true
  ∧ noOccurrenceCi (units "<template") (pre ++ o) (length pre) = true
  ∧ noOccurrenceCi (units "</template>") (inner ++ c) (length inner) = true.

(** ** The rule index *)

(** The key a rule is stored under, and one [map.set] of [buildRulesMap]. *)
Definition keyOf (rule : NestingRule) : string :=
  ruleKey (parent rule) (child rule).

Definition setRule (map : gmap string NestingRule) (rule : NestingRule)
    : gmap string NestingRule :=
  <[keyOf rule := rule]> map.

(** The first explicit and the first generated rule for a pair. *)
Definition explicitRule (parent child : string) : option NestingRule :=
  List.find (fun r => bool_decide (keyOf r = ruleKey parent child)) NESTING_RULES.

Definition generatedRule (parent child : string) : option NestingRule :=
  List.find (fun r => bool_decide (keyOf r = ruleKey parent child))
    GENERATED_NESTING_RULES.

(** The explicit rules whose key also has a generated rule. *)
Definition shadowedExplicitRules : list NestingRule :=
  List.filter
    (fun r => bool_decide (is_Some (generatedRule (parent r) (child r))))
    NESTING_RULES.

(** Both tags of a rule belong to the catalog. *)
Definition inside (rule : NestingRule) : Prop :=
  parent rule ∈ ALL_HTML_TAGS ∧ child rule ∈ ALL_HTML_TAGS.

(** ** The tokenizer as a fold over the matches *)

(** The matches that successive calls of [tagRegex.exec] return; the regex
    does not depend on the state of the loop body. *)
Fixpoint tagMatches (fuel : nat) (text : list N) (lastIndex : nat)
    : outcome (list (nat * Match)) :=
  match fuel with
  | 0 => NoFuel
  | S fuel' =>
      match regexExec tagRegex 2 text lastIndex with
      | None => Ret []
      | Some (index, m) =>
          ms ← tagMatches fuel' text (index + length (m_full m));
          Ret ((index, m) :: ms)
      end
  end.

(** The loop body applied to a list of matches in turn. *)
Fixpoint emitTokens (skipUntil : option string) (tokens : list Token)
    (ms : list (nat * Match)) : outcome (list Token) :=
  match ms with
  | [] => Ret tokens
  | (index, m) :: ms' =>
      '(skipUntil', pushed) ← tokenizeStep index m skipUntil;
      emitTokens skipUntil' (tokens ++ option_list pushed) ms'
  end.

(** The name and the closing flag the loop body computes for a match. *)
Definition matchName (m : Match) : option string :=
  (fun g1 => nameOf (toLowerCase g1)) <$> group m 1.

Definition matchIsClose (m : Match) : bool := startsWith (units "</") (m_full m).

(** The match does not end a skipped span opened by [name]. *)
Definition keepsSkipping (name : string) (im : nat * Match) : bool :=
  match matchName im.2 with
  | Some n => negb (matchIsClose im.2 && bool_decide (n = name))
  | None => false
  end.

(** ** One rule, one nested pair *)

(** The document [<P><C></C></P>]. *)
Definition nestedDoc (P C : string) : list N :=
  units ("<" ++ P ++ "><" ++ C ++ "></" ++ C ++ "></" ++ P ++ ">")%string.

(** What analysing [<P><C></C></P>] returns for a rule (P, C). *)
Definition expectedForPair (rule : NestingRule) : list Violation :=
  if has VOID_ELEMENTS (child rule) || has SKIP_CONTENT_TAGS (child rule)
  then []
  else
    let offset := String.length (parent rule) + 2 in
    [mkViolation
       (mkError (parent rule) (child rule) offset
          (String.length (child rule) + 2) rule)
       offset].

Definition pairReported (rules : gmap string NestingRule)
    (entry : string * NestingRule) : bool :=
  bool_decide (entry.1 = keyOf entry.2)
  && bool_decide
       (analyzeDocument rules (nestedDoc (parent entry.2) (child entry.2)) "html"
        = Ret (expectedForPair entry.2)).

(** ** Tags, tokens and regions in the text *)

(** The raw text of a tag name: a letter, then letters, digits, hyphens. *)
Definition rawName (raw : list N) : Prop :=
  ∃ c run, raw = c :: run ∧ isLetter c = true
           ∧ Forall (fun d => isNameChar d = true) run.

(** The shape of a match of the tag pattern: [<], an optional [/], the
    name, anything but [>], and [>]; group 1 is the name, group 2 is
    empty. *)
Definition tagShape (m : Match) : Prop :=
  ∃ slash raw body,
    m_full m = 60%N :: slash ++ raw ++ body ++ [62%N]
    ∧ (slash = [] ∨ slash = [47%N])
    ∧ rawName raw
    ∧ Forall (fun d => notGt d = true) body
    ∧ m_groups m = [Some raw; Some []].

(** The matches lie in [text] from [lo] on, in order and without overlap. *)
Fixpoint matchesIn (text : list N) (lo : nat) (ms : list (nat * Match))
    : Prop :=
  match ms with
  | [] => True
  | (index, m) :: ms' =>
      lo ≤ index
      ∧ take (length (m_full m)) (drop index text) = m_full m
      ∧ tagShape m
      ∧ matchesIn text (index + length (m_full m)) ms'
  end.

(** The token covers a tag of [text]: at its offset and over its length
    stands [<], [/] exactly for a close token, a name whose lower-case form
    is the token's name, text without [>], and [>]. *)
Definition tokenAt (text : list N) (t : Token) : Prop :=
  ∃ slash raw body,
    take (tok_length t) (drop (tok_offset t) text)
    = 60%N :: slash ++ raw ++ body ++ [62%N]
    ∧ tok_length t = length (60%N :: slash ++ raw ++ body ++ [62%N])
    ∧ tok_name t = nameOf (toLowerCase raw)
    ∧ (slash = [] ∧ tok_type t ≠ close ∨ slash = [47%N] ∧ tok_type t = close)
    ∧ rawName raw
    ∧ Forall (fun d => d ≠ 62%N) (raw ++ body).

(** The tokens cover tags of [text] from [lo] on, in order and without
    overlap. *)
Fixpoint tokensIn (text : list N) (lo : nat) (tokens : list Token) : Prop :=
  match tokens with
  | [] => True
  | t :: tokens' =>
      lo ≤ tok_offset t
      ∧ tok_offset t + tok_length t ≤ length text
      ∧ tokenAt text t
      ∧ tokensIn text (tok_offset t + tok_length t) tokens'
  end.

(** A lower-case letter, a digit or a hyphen. *)
Definition isLowerNameChar (c : N) : bool :=
  isLower c || isDigit c || (c =? 45)%N.

(** The region is the slice of [content] that starts at its base offset. *)
Definition regionIn (content : list N) (region : MarkupRegion) : Prop :=
  baseOffset region + length (text region) ≤ length content
  ∧ take (length (text region)) (drop (baseOffset region) content)
    = text region.

(** No [:] in a string. *)
Definition colonFree (s : string) : bool :=
  forallb (fun a => negb (Ascii.eqb a ":")) (String.list_ascii_of_string s).

(** ** Token types *)

(** The type of the token of a tag, read off the text of the tag. *)
Definition tagType (full : list N) (name : string) : TokenType :=
  if startsWith (units "</") full then close
  else if endsWith (units "/>") full || has VOID_ELEMENTS name then self_closing
  else open.

(** The type of the token is the type of the tag it covers, and only a
    close token carries a raw-text name. *)
Definition tokenKind (text : list N) (t : Token) : Prop :=
  tok_type t
  = tagType (take (tok_length t) (drop (tok_offset t) text)) (tok_name t)
  ∧ (tok_type t ≠ close -> has SKIP_CONTENT_TAGS (tok_name t) = false).

(** ** The parenthesis scan *)

(** The numbers of [(] and of [)] in a text. *)
Definition opens (s : list N) : nat :=
  length (List.filter (fun c => (c =? 40)%N) s).
Definition closes (s : list N) : nat :=
  length (List.filter (fun c => (c =? 41)%N) s).

(** Scanning [s] from depth [depth] never reaches depth 0: every prefix,
    [s] included, closes fewer parentheses than [depth] plus the ones it
    opens. *)
Definition staysOpen (s : list N) (depth : nat) : bool :=
  forallb (fun k => closes (take k s) <? depth + opens (take k s))
    (seq 0 (S (length s))).

(** ** The checker on well-nested markup *)

(** Well-nested tokens as a forest: an element is an open token, the
    nodes inside it and a close token of the same name; a leaf is a
    self-closing token. *)
#[warnings="-register-all"] Inductive Node : Type :=
  | Element (name : string) (offset len : nat) (children : list Node)
      (closeOffset closeLen : nat)
  | Leaf (name : string) (offset len : nat).

(** The token sequence of a node. *)
Fixpoint tokensOf (node : Node) : list Token :=
  match node with
  | Element name offset len children closeOffset closeLen =>
      mkToken open name offset len
      :: flat_map tokensOf children ++ [mkToken close name closeOffset closeLen]
  | Leaf name offset len => [mkToken self_closing name offset len]
  end.

(** The error for an element named [name] directly inside [parent], if
    the index has a rule for the pair. *)
Definition expectedAt (rules : gmap string NestingRule) (parent : option string)
    (name : string) (offset len : nat) : list NestingError :=
  match parent with
  | Some p =>
      match rules !! ruleKey p name with
      | Some rule => [mkError p name offset len rule]
      | None => []
      end
  | None => []
  end.

(** The errors of a node inside [parent], in document order. *)
Fixpoint expectedErrors (rules : gmap string NestingRule)
    (parent : option string) (node : Node) : list NestingError :=
  match node with
  | Element name offset len children _ _ =>
      expectedAt rules parent name offset len
      ++ flat_map (expectedErrors rules (Some name)) children
  | Leaf _ _ _ => []
  end.

(** ** The errors of any token sequence *)

(** Open tokens, and where a token and an error point. *)
Definition isOpen (t : Token) : bool := bool_decide (tok_type t = open).

Definition tokenSite (t : Token) : string * nat * nat :=
  (tok_name t, tok_offset t, tok_length t).
Definition errorSite (e : NestingError) : string * nat * nat :=
  (err_child e, err_offset e, err_length e).

(** The error reports the open token [t] under the open token [p], by the
    rule stored for their names. *)
Definition errorFrom (rules : gmap string NestingRule) (p t : Token)
    (e : NestingError) : Prop :=
  tok_type p = open ∧ tok_type t = open
  ∧ err_parent e = tok_name p ∧ err_child e = tok_name t
  ∧ err_offset e = tok_offset t ∧ err_length e = tok_length t
  ∧ rules !! ruleKey (tok_name p) (tok_name t) = Some (err_rule e).

(** Every frame of the stack carries the name of an open token of [seen]. *)
Definition framesFrom (seen : list Token) (stack : list ParentFrame) : Prop :=
  Forall (fun frame => ∃ pre p post,
            seen = pre ++ p :: post ∧ tok_type p = open
            ∧ frame_name frame = tok_name p) stack.

(** ** Violations *)

(** What a violation says about the content: an opening tag named as the
    child stands at its range, and the index stores its rule under the key
    of its pair of names. *)
Definition violationIn (rules : gmap string NestingRule) (content : list N)
    (v : Violation) : Prop :=
  let e := v_error v in
  absoluteOffset v + err_length e ≤ length content
  ∧ tokenAt content (mkToken open (err_child e) (absoluteOffset v) (err_length e))
  ∧ rules !! ruleKey (err_parent e) (err_child e) = Some (err_rule e)
  ∧ colonFree (err_parent e) = true
  ∧ has VOID_ELEMENTS (err_parent e) = false
  ∧ has SKIP_CONTENT_TAGS (err_parent e) = false
  ∧ has VOID_ELEMENTS (err_child e) = false
  ∧ has SKIP_CONTENT_TAGS (err_child e) = false.

(** ** One return block *)

(** The return pattern occurs at position [p] of [content] at most. *)
Definition onlyReturnAt (content : list N) (p : nat) : bool :=
  forallb (fun k => bool_decide (k = p) || negb (returnOpensAt content k))
    (seq 0 (S (length content))).

(** ** Well-formed markup and its text *)

(** Markup as a tree: text, elements with an opening and a closing tag,
    tags without content ([<br>], [<img/>]) and raw-text elements
    ([<style>...</style>]); names and attribute text are kept as
    written. *)
#[warnings="-register-all"] Inductive Markup : Type :=
  | MText (s : list N)
  | MElement (name attrs : list N) (children : list Markup)
  | MVoid (name attrs : list N) (slash : bool)
  | MRaw (name attrs content : list N).

Definition openTag (name attrs : list N) : list N :=
  60%N :: name ++ attrs ++ [62%N].
Definition closeTag (name : list N) : list N :=
  60%N :: 47%N :: name ++ [62%N].
Definition voidAttrs (attrs : list N) (slash : bool) : list N :=
  attrs ++ (if slash then [47%N] else []).

(** The text of the markup. *)
Fixpoint render (m : Markup) : list N :=
  match m with
  | MText s => s
  | MElement name attrs children =>
      openTag name attrs ++ flat_map render children ++ closeTag name
  | MVoid name attrs slash => openTag name (voidAttrs attrs slash)
  | MRaw name attrs content => openTag name attrs ++ content ++ closeTag name
  end.

Definition tagName (name : list N) : string := nameOf (toLowerCase name).

Definition wfName (name : list N) : bool :=
  match name with
  | c :: run => isLetter c && forallb isNameChar run
  | [] => false
  end.

(** Attribute text: no [>], and it does not continue the name. *)
Definition wfAttrs (attrs : list N) : bool :=
  forallb notGt attrs
  && match attrs with
     | a :: _ => negb (isNameChar a)
     | [] => true
     end.

(** No [<] of the text starts a tag: each is followed, in the text, by a
    code unit that is neither a letter nor [/] (as in [a < b], [<!-- -->]
    and [<!DOCTYPE html>]). *)
Fixpoint noTagStart (s : list N) : bool :=
  match s with
  | c :: s' =>
      (if (c =? 60)%N then
         match s' with
         | d :: _ => negb (isLetter d) && negb (d =? 47)%N
         | [] => false
         end
       else true)
      && noTagStart s'
  | [] => true
  end.

(** Text starts no tag; an element is neither void nor raw text and its
    opening tag does not end in [/>]; a tag without content ends in [/>]
    or is a void element, and is not raw text; a raw-text element is named
    [script], [style] or [template] and its content starts no tag. *)
Fixpoint wfMarkup (m : Markup) : bool :=
  match m with
  | MText s => noTagStart s
  | MElement name attrs children =>
      wfName name && wfAttrs attrs
      && negb (bool_decide (last attrs = Some 47%N))
      && negb (has VOID_ELEMENTS (tagName name))
      && negb (has SKIP_CONTENT_TAGS (tagName name))
      && forallb wfMarkup children
  | MVoid name attrs slash =>
      wfName name && wfAttrs (voidAttrs attrs slash)
      && (slash || has VOID_ELEMENTS (tagName name))
      && negb (has SKIP_CONTENT_TAGS (tagName name))
  | MRaw name attrs content =>
      wfName name && wfAttrs attrs
      && has SKIP_CONTENT_TAGS (tagName name)
      && noTagStart content
  end.

(** The tags of the markup as nodes, with the offsets their tags have
    when the text of the markup starts at [offset]. *)
Fixpoint place (offset : nat) (m : Markup) : list Node :=
  match m with
  | MText _ => []
  | MElement name attrs children =>
      let inner := offset + length (openTag name attrs) in
      [Element (tagName name) offset (length (openTag name attrs))
         ((fix placeAll (offset : nat) (ms : list Markup) : list Node :=
             match ms with
             | [] => []
             | m' :: ms' =>
                 place offset m' ++ placeAll (offset + length (render m')) ms'
             end) inner children)
         (inner + length (flat_map render children))
         (length (closeTag name))]
  | MVoid name attrs slash =>
      [Leaf (tagName name) offset (length (openTag name (voidAttrs attrs slash)))]
  | MRaw _ _ _ => []
  end.

Fixpoint placeAll (offset : nat) (ms : list Markup) : list Node :=
  match ms with
  | [] => []
  | m :: ms' => place offset m ++ placeAll (offset + length (render m)) ms'
  end.

(** [tokenizeLoop] from [lastIndex] on, with enough fuel. *)
Definition tokenizesTo (text : list N) (lastIndex : nat)
    (skipUntil : option string) (tokens out : list Token) : Prop :=
  ∃ fuel, tokenizeLoop fuel text lastIndex skipUntil tokens = Ret out.

(** Inside [text], the loop passes over the text of [m] and pushes the
    tokens of its tags. *)
Definition tokenizesMarkup (text : list N) (out : list Token) (m : Markup)
    : Prop :=
  ∀ lastIndex rest tokens,
    drop lastIndex text = render m ++ rest ->
    tokenizesTo text (lastIndex + length (render m)) None
      (tokens ++ flat_map tokensOf (place lastIndex m)) out ->
    tokenizesTo text lastIndex None tokens out.

(** * Properties *)

(** ** Facts about the string primitives *)

Section StringFacts.
Implicit Types (p : N -> bool) (s t : list N).

Lemma takeWhile_dropWhile p s : takeWhile p s ++ dropWhile p s = s.
Proof.
  induction s as [|c s IH]; simpl; [done|].
  destruct (p c); simpl; [by rewrite IH | done].
Qed.

Lemma dropWhile_head p s c t : dropWhile p s = c :: t -> p c = false.
Proof.
  induction s as [|d s IH]; simpl; [done|].
  destruct (p d) eqn:Hd; [done|]. intros [= -> _]. done.
Qed.

Lemma takeWhile_all p s : Forall (fun c => p c = true) (takeWhile p s).
Proof.
  induction s as [|c s IH]; simpl; [constructor|].
  destruct (p c) eqn:Hc; constructor; done.
Qed.

Lemma takeWhile_app_stop p s c t :
  Forall (fun d => p d = true) s -> p c = false ->
  takeWhile p (s ++ c :: t) = s ∧ dropWhile p (s ++ c :: t) = c :: t.
Proof.
  intros Hs Hc. induction Hs as [|d s Hd _ IH]; simpl.
  - by rewrite Hc.
  - rewrite Hd. destruct IH as [-> ->]. done.
Qed.

Lemma notGt_false c : notGt c = false -> c = 62%N.
Proof. unfold notGt. intros H. apply N.eqb_eq. by destruct (c =? 62)%N. Qed.

Lemma startsWith_prefix a s : startsWith a s = true -> ∃ t, s = a ++ t.
Proof.
  revert s. induction a as [|x a IH]; intros s; simpl; [by eexists|].
  destruct s as [|c s]; [done|].
  intros [Hx Ha]%andb_prop. apply N.eqb_eq in Hx as ->.
  destruct (IH _ Ha) as [t ->]. by eexists.
Qed.

Lemma startsWith_app a t : startsWith a (a ++ t) = true.
Proof. induction a as [|x a IH]; simpl; [done|]. by rewrite N.eqb_refl. Qed.

Lemma startsWithCi_short a s t :
  length a ≤ length s -> startsWithCi a (s ++ t) = startsWithCi a s.
Proof.
  revert s. induction a as [|x a IH]; intros s Hlen; simpl; [done|].
  destruct s as [|c s]; simpl in *; [lia|].
  rewrite IH; [done | lia].
Qed.

Lemma startsWithCi_length a s : startsWithCi a s = true -> length a ≤ length s.
Proof.
  revert s. induction a as [|x a IH]; intros s; simpl; [lia|].
  destruct s as [|c s]; [done|]. intros [_ Ha]%andb_prop.
  apply IH in Ha. simpl. lia.
Qed.

Lemma indexOf_app_stop c s t :
  Forall (fun d => d ≠ c) s -> indexOf c (s ++ c :: t) = Some (length s).
Proof.
  induction 1 as [|d s Hd _ IH]; simpl.
  - by rewrite N.eqb_refl.
  - apply N.eqb_neq in Hd as ->. by rewrite IH.
Qed.
Lemma startsWithCi_canon a s :
  startsWithCi a s = true -> length s = length a ->
  Forall2 (fun x c => canon x = canon c) a s.
Proof.
  revert s. induction a as [|x a IH]; intros [|c s] Hs Hlen; simpl in *;
    try discriminate.
  - constructor.
  - apply andb_prop in Hs as [Hx Ha]. apply N.eqb_eq in Hx.
    constructor; [done | apply IH; [done | lia]].
Qed.

Lemma lazyUntilCi_unfold a s :
  lazyUntilCi a s =
  if startsWithCi a s then Some []
  else match s with
       | [] => None
       | c :: s' => (fun inner => c :: inner) <$> lazyUntilCi a s'
       end.
Proof. by destruct s. Qed.

(** The lazy scan stops at the first position from which [a] starts. *)
Lemma lazyUntilCi_first a inner rest :
  (∀ k, k < length inner -> startsWithCi a (drop k (inner ++ rest)) = false) ->
  startsWithCi a rest = true ->
  lazyUntilCi a (inner ++ rest) = Some inner.
Proof.
  intros Hbefore Hrest. induction inner as [|c inner IH].
  - rewrite lazyUntilCi_unfold. simpl. by rewrite Hrest.
  - change ((c :: inner) ++ rest) with (c :: inner ++ rest).
    rewrite lazyUntilCi_unfold.
    pose proof (Hbefore 0) as H0. simpl in H0. rewrite H0 by lia.
    simpl. rewrite IH; [done|].
    intros k Hk. apply (Hbefore (S k)). simpl. lia.
Qed.
(** Where [a] starts somewhere, the lazy scan finds the first such place. *)
Lemma lazyUntilCi_occurs a s k :
  startsWithCi a (drop k s) = true ->
  ∃ inner rest,
    lazyUntilCi a s = Some inner ∧ s = inner ++ rest ∧ length inner ≤ k
    ∧ startsWithCi a rest = true
    ∧ ∀ j, j < length inner -> startsWithCi a (drop j s) = false.
Proof.
  revert k. induction s as [|c s IH]; intros k Hk; rewrite lazyUntilCi_unfold.
  - rewrite drop_nil in Hk. rewrite Hk. exists [], []. simpl.
    repeat split; [lia | done | intros; lia].
  - destruct (startsWithCi a (c :: s)) eqn:Hhere.
    + exists [], (c :: s). simpl. repeat split; [lia | done | intros; lia].
    + destruct k as [|k]; [simpl in Hk; congruence|]. simpl in Hk.
      destruct (IH k Hk) as (inner & rest & -> & -> & Hlen & Hrest & Hfirst).
      exists (c :: inner), rest. simpl. repeat split; [lia | done |].
      intros [|j] Hj; simpl; [done | apply Hfirst; lia].
Qed.

(** Where some character fails [p], [dropWhile p] stops at the first one. *)
Lemma dropWhile_occurs p s j c :
  s !! j = Some c -> p c = false ->
  ∃ d t, dropWhile p s = d :: t ∧ p d = false ∧ length (takeWhile p s) ≤ j.
Proof.
  revert j. induction s as [|x s IH]; intros j Hj Hc; [done|]. simpl.
  destruct (p x) eqn:Hx.
  - destruct j as [|j]; simpl in Hj; [congruence|].
    destruct (IH j Hj Hc) as (d & t & -> & Hd & Hlen).
    exists d, t. simpl. repeat split; [done | lia].
  - exists x, s. simpl. repeat split; [done | lia].
Qed.
End StringFacts.

(** ** The anchored matchers are the patterns *)

Section MatcherFacts.
Variable prev0 : option N.
Implicit Types (p : N -> bool) (k : cont) (matched rest : list N)
  (caps : list (option (list N))).

Lemma drop_takeWhile p (s : list N) : drop (length (takeWhile p s)) s = dropWhile p s.
Proof.
  induction s as [|c s IH]; simpl; [done|]. destruct (p c); simpl; done.
Qed.

(** Greedy [*]: when the rest of the pattern succeeds after the longest
    run, that is the match. *)
Lemma star_greedy_longest p k matched rest caps m :
  k (matched ++ takeWhile p rest) (dropWhile p rest) caps = Some m ->
  star true p k matched rest caps = Some m.
Proof.
  revert matched. induction rest as [|c rest IH]; intros matched; simpl.
  - by rewrite app_nil_r.
  - destruct (p c).
    + rewrite (cons_middle c), app_assoc. intros Hk. by rewrite (IH _ Hk).
    + by rewrite app_nil_r.
Qed.

(** Greedy [*]: when the rest of the pattern fails after the longest run
    and before every character of the run, there is no match. *)
Lemma star_greedy_none p k matched rest caps :
  (∀ matched', k matched' (dropWhile p rest) caps = None) ->
  (∀ matched' c t, p c = true -> k matched' (c :: t) caps = None) ->
  star true p k matched rest caps = None.
Proof.
  intros Hend Hrun. revert matched.
  induction rest as [|c rest IH]; intros matched; simpl in *; [done|].
  destruct (p c) eqn:Hc; [|done]. rewrite IH by done. by apply Hrun.
Qed.

(** A literal string consumes itself, up to case under the [i] flag. *)
Lemma matcher_str l k matched rest caps :
  matcher prev0 (str l) k matched rest caps
  = if startsWith l rest
    then k (matched ++ take (length l) rest) (drop (length l) rest) caps
    else None.
Proof.
  revert matched rest. induction l as [|a l IH]; intros matched rest; simpl.
  - by rewrite app_nil_r.
  - destruct rest as [|c rest]; [done|]. simpl.
    destruct (a =? c)%N; [|done]. simpl. rewrite IH.
    by rewrite <- app_assoc.
Qed.

Lemma matcher_strCi l k matched rest caps :
  matcher prev0 (strCi l) k matched rest caps
  = if startsWithCi l rest
    then k (matched ++ take (length l) rest) (drop (length l) rest) caps
    else None.
Proof.
  revert matched rest. induction l as [|a l IH]; intros matched rest; simpl.
  - by rewrite app_nil_r.
  - destruct rest as [|c rest]; [done|]. simpl.
    destruct (canon a =? canon c)%N; [|done]. simpl. rewrite IH.
    by rewrite <- app_assoc.
Qed.

Lemma isSpace_not_paren c : isSpace c = true -> (40 =? c)%N = false.
Proof.
  intros H. destruct (N.eqb_spec 40 c) as [<-|]; [by vm_compute in H | done].
Qed.

(** [returnRegex_at] is the return pattern. *)
Lemma returnRegex_at_regex s : regexAt prev0 returnRegex 0 s = returnRegex_at prev0 s.
Proof.
  unfold regexAt, returnRegex, returnRegex_at, wordBoundary.
  set (final := fun matched (_ : list N) caps => Some (mkMatch matched caps)).
  cbn [matcher last replicate]. fold (isWordOpt prev0) (isWordOpt (head s)).
  destruct (xorb (isWordOpt prev0) (isWordOpt (head s))); [|done].
  rewrite matcher_str. cbn [andb app].
  destruct (startsWith (units "return") s) eqn:Hs; [|done].
  change (length (units "return")) with 6.
  set (r := drop 6 s).
  destruct (dropWhile isSpace r) as [|c r'] eqn:Hd.
  - apply star_greedy_none.
    + intros matched'. by rewrite Hd.
    + intros matched' c t Hc. cbn [matcher lit]. by rewrite isSpace_not_paren.
  - destruct (c =? 40)%N eqn:Hc.
    + apply N.eqb_eq in Hc as ->. apply star_greedy_longest. rewrite Hd.
      cbn [matcher lit]. simpl N.eqb. cbn iota.
      erewrite star_greedy_longest; [|reflexivity].
      unfold final. by rewrite <- !app_assoc.
    + apply star_greedy_none.
      * intros matched'. rewrite Hd. cbn [matcher lit].
        by rewrite N.eqb_sym, Hc.
      * intros matched' d t Hd'. cbn [matcher lit]. by rewrite isSpace_not_paren.
Qed.

Lemma canon_is_gt d : (canon 62 =? canon d)%N = (d =? 62)%N.
Proof.
  change (canon 62) with 62%N. unfold canon, isLower, between.
  destruct (N.leb_spec 97 d), (N.leb_spec d 122); cbn [andb];
    try apply N.eqb_sym.
  destruct (N.eqb_spec 62 (d - 32)), (N.eqb_spec d 62); try done; lia.
Qed.

Lemma notGt_not_gt c : notGt c = true -> (c =? 62)%N = false.
Proof. unfold notGt. by destruct (c =? 62)%N. Qed.

Lemma lazyUntilCi_Some a s inner :
  lazyUntilCi a s = Some inner ->
  startsWithCi a (drop (length inner) s) = true.
Proof.
  revert inner. induction s as [|c s IH]; intros inner;
    rewrite lazyUntilCi_unfold.
  - destruct (startsWithCi a []) eqn:Ha; [|done]. by intros [= <-].
  - destruct (startsWithCi a (c :: s)) eqn:Ha; [by intros [= <-]|].
    destruct (lazyUntilCi a s) as [inner'|]; [|done]. intros [= <-]. simpl.
    by apply IH.
Qed.

(** Lazy [*] over any character, before a continuation that succeeds
    exactly where [a] starts: the match stops at the first such place. *)
Lemma star_lazy_until a k matched rest caps :
  (∀ matched' rest', startsWithCi a rest' = false ->
                     k matched' rest' caps = None) ->
  (∀ matched' rest', startsWithCi a rest' = true ->
                     is_Some (k matched' rest' caps)) ->
  star false (fun _ => true) k matched rest caps
  = match lazyUntilCi a rest with
    | Some inner => k (matched ++ inner) (drop (length inner) rest) caps
    | None => None
    end.
Proof.
  intros Hno Hyes. revert matched.
  induction rest as [|c rest IH]; intros matched;
    rewrite lazyUntilCi_unfold; cbn [star].
  - destruct (startsWithCi a []) eqn:Ha; [by rewrite app_nil_r | by apply Hno].
  - destruct (startsWithCi a (c :: rest)) eqn:Ha.
    + rewrite app_nil_r. simpl. by destruct (Hyes matched _ Ha) as [m ->].
    + rewrite (Hno _ _ Ha), IH.
      destruct (lazyUntilCi a rest) as [inner|]; [|done]. simpl.
      by rewrite <- app_assoc.
Qed.

(** [templateRegex_at] is the template pattern. *)
Lemma templateRegex_at_regex s :
  regexAt prev0 templateRegex 1 s = templateRegex_at prev0 s.
Proof.
  unfold regexAt, templateRegex, templateRegex_at.
  set (final := fun matched (_ : list N) caps => Some (mkMatch matched caps)).
  cbn [matcher replicate]. rewrite matcher_strCi. cbn [app].
  destruct (startsWithCi (units "<template") s); [|done].
  change (length (units "<template")) with 9. set (r := drop 9 s).
  set (close := units "</template>").
  assert (∀ matched rest caps,
            matcher prev0 (strCi close) final matched rest caps
            = if startsWithCi close rest
              then Some (mkMatch (matched ++ take 11 rest) caps)
              else None) as Hclose.
  { intros. by rewrite matcher_strCi. }
  destruct (dropWhile notGt r) as [|gt r'] eqn:Hd.
  - apply star_greedy_none.
    + intros matched'. by rewrite Hd.
    + intros matched' c t Hc. cbn [matcher litCi].
      by rewrite canon_is_gt, notGt_not_gt.
  - pose proof (dropWhile_head _ _ _ _ Hd) as ->%notGt_false.
    destruct (lazyUntilCi close r') as [inner|] eqn:Hlazy.
    + apply star_greedy_longest. rewrite Hd. cbn [matcher litCi].
      rewrite canon_is_gt. simpl N.eqb. cbn iota.
      rewrite (star_lazy_until close).
      * rewrite Hlazy, Hclose, (lazyUntilCi_Some _ _ _ Hlazy).
        rewrite drop_app_length. simpl. by rewrite <- !app_assoc.
      * intros matched' rest' Hno. by rewrite Hclose, Hno.
      * intros matched' rest' Hyes. rewrite Hclose, Hyes. by eexists.
    + apply star_greedy_none.
      * intros matched'. rewrite Hd. cbn [matcher litCi].
        rewrite canon_is_gt. simpl N.eqb. cbn iota.
        rewrite (star_lazy_until close).
        -- by rewrite Hlazy.
        -- intros matched'' rest' Hno. by rewrite Hclose, Hno.
        -- intros matched'' rest' Hyes. rewrite Hclose, Hyes. by eexists.
      * intros matched' c t Hc. cbn [matcher litCi].
        by rewrite canon_is_gt, notGt_not_gt.
Qed.

Lemma star_needsGt greedy p k : needsGt k -> needsGt (star greedy p k).
Proof.
  intros Hk matched rest caps Hrest. revert matched.
  induction Hrest as [|c rest Hc Hrest IH]; intros matched; cbn [star].
  - apply Hk. constructor.
  - assert (k matched (c :: rest) caps = None) as Hhere
      by (apply Hk; by constructor).
    rewrite Hhere, IH. by destruct greedy, (p c).
Qed.

(** Whatever comes before it in the pattern, such a continuation still
    cannot succeed. *)
Lemma matcher_needsGt r k : needsGt k -> needsGt (matcher prev0 r k).
Proof.
  revert k. induction r as [|p|a IHa b IHb|greedy p|a IHa|i a IHa|]; intros k Hk;
    cbn [matcher].
  - done.
  - intros matched [|c rest] caps Hrest; [done|]. apply Forall_cons in Hrest as [_ Hrest].
    destruct (p c); [by apply Hk | done].
  - by apply IHa, IHb.
  - by apply star_needsGt.
  - intros matched rest caps Hrest. rewrite IHa; [by apply Hk | | done].
    intros matched' rest' caps' Hrest'.
    destruct (length matched' =? length matched); [done | by apply Hk].
  - intros matched rest caps Hrest. apply IHa; [|done].
    intros matched' rest' caps' Hrest'. by apply Hk.
  - intros matched rest caps Hrest.
    destruct (xorb _ _); [by apply Hk | done].
Qed.

Lemma lit_gt_needsGt k : needsGt (matcher prev0 (lit 62) k).
Proof.
  intros matched [|c rest] caps Hrest; cbn [matcher lit]; [done|].
  apply Forall_cons in Hrest as [Hc _].
  destruct (N.eqb_spec 62 c) as [<-|]; done.
Qed.

Lemma dropWhile_nil p (s : list N) :
  dropWhile p s = [] -> Forall (fun c => p c = true) s.
Proof.
  induction s as [|c s IH]; simpl; [constructor|].
  destruct (p c) eqn:Hc; [|done]. constructor; auto.
Qed.

Lemma takeWhile_refine p q (s : list N) :
  (∀ c, p c = true -> q c = true) ->
  takeWhile p s ++ takeWhile q (dropWhile p s) = takeWhile q s
  ∧ dropWhile q (dropWhile p s) = dropWhile q s.
Proof.
  intros Hpq. induction s as [|c s [IH1 IH2]]; simpl; [done|].
  destruct (p c) eqn:Hc; [|done]. rewrite (Hpq _ Hc). simpl. by rewrite IH1.
Qed.

Lemma isSpace_notGt c : isSpace c = true -> notGt c = true.
Proof.
  intros H. unfold notGt.
  destruct (N.eqb_spec c 62) as [->|]; [by vm_compute in H | done].
Qed.

Lemma isNameChar_notGt c : isNameChar c = true -> notGt c = true.
Proof.
  intros H. unfold notGt.
  destruct (N.eqb_spec c 62) as [->|]; [by vm_compute in H | done].
Qed.

Lemma notGt_ne c : notGt c = true -> c ≠ 62%N.
Proof. intros H ->. done. Qed.

(** The end of the tag pattern, [(\/?)>], at a [>]. *)
Lemma tag_end_at_gt matched tl caps :
  matcher prev0 (Seq (Group 2 (Opt (lit 47))) (lit 62))
    (fun matched (_ : list N) caps => Some (mkMatch matched caps))
    matched (62%N :: tl) caps
  = Some (mkMatch (matched ++ [62%N]) (<[1 := Some []]> caps)).
Proof. cbn [matcher lit]. simpl N.eqb. cbn iota. by rewrite drop_all. Qed.

Lemma matcher_Seq a b k matched rest caps :
  matcher prev0 (Seq a b) k matched rest caps
  = matcher prev0 a (matcher prev0 b k) matched rest caps.
Proof. done. Qed.

Lemma matcher_Star greedy p k matched rest caps :
  matcher prev0 (Star greedy p) k matched rest caps
  = star greedy p k matched rest caps.
Proof. done. Qed.

(** [(?:[^>]* )?] before the first [>], when the rest of the pattern
    succeeds there. *)
Lemma opt_attrs_to_gt k matched rest tl caps m :
  dropWhile notGt rest = 62%N :: tl ->
  k (matched ++ takeWhile notGt rest) (62%N :: tl) caps = Some m ->
  matcher prev0 (Opt (Star true notGt)) k matched rest caps = Some m.
Proof.
  intros Hd Hk. pose proof (takeWhile_dropWhile notGt rest) as Hsplit.
  rewrite Hd in Hsplit. cbn [matcher].
  destruct (takeWhile notGt rest) as [|c tw] eqn:Htw.
  - simpl in Hsplit. subst rest. cbn [star]. change (notGt 62) with false.
    cbn iota. rewrite Nat.eqb_refl. by rewrite app_nil_r in Hk.
  - erewrite star_greedy_longest; [done|]. rewrite Hd, Htw.
    rewrite length_app. simpl length.
    destruct (Nat.eqb_spec (length matched + S (length tw)) (length matched));
      [lia | done].
Qed.

(** The tag pattern after the name, [\s*(?:[^>]* )?(\/?)>]: it runs to
    the first [>] and leaves group 2 empty. *)
Lemma tag_after_name matched rest tl caps :
  dropWhile notGt rest = 62%N :: tl ->
  matcher prev0
    (Seq (Star true isSpace)
       (Seq (Opt (Star true notGt)) (Seq (Group 2 (Opt (lit 47))) (lit 62))))
    (fun matched (_ : list N) caps => Some (mkMatch matched caps))
    matched rest caps
  = Some (mkMatch (matched ++ takeWhile notGt rest ++ [62%N])
            (<[1 := Some []]> caps)).
Proof.
  intros Hd. rewrite matcher_Seq, matcher_Star.
  destruct (takeWhile_refine isSpace notGt rest isSpace_notGt) as [Htake Hdrop].
  apply star_greedy_longest. rewrite matcher_Seq.
  erewrite opt_attrs_to_gt; [done | by rewrite Hdrop |].
  rewrite tag_end_at_gt. by rewrite <- !app_assoc, (app_assoc _ _ [62%N]), Htake.
Qed.

Lemma tag_after_name_needsGt :
  needsGt
    (matcher prev0
       (Seq (Star true isSpace)
          (Seq (Opt (Star true notGt)) (Seq (Group 2 (Opt (lit 47))) (lit 62))))
       (fun matched (_ : list N) caps => Some (mkMatch matched caps))).
Proof.
  exact (matcher_needsGt (Star true isSpace) _
           (matcher_needsGt (Opt (Star true notGt)) _
              (matcher_needsGt (Group 2 (Opt (lit 47))) _
                 (lit_gt_needsGt _)))).
Qed.

(** The tag pattern from the name on. *)
Lemma tag_from_name matched r1 :
  matcher prev0
    (Seq (Group 1 (Seq (Chr isLetter) (Star true isNameChar)))
       (Seq (Star true isSpace)
          (Seq (Opt (Star true notGt)) (Seq (Group 2 (Opt (lit 47))) (lit 62)))))
    (fun matched (_ : list N) caps => Some (mkMatch matched caps))
    matched r1 [None; None]
  = match r1 with
    | c :: r2 =>
        if isLetter c then
          let name := c :: takeWhile isNameChar r2 in
          let rest := dropWhile isNameChar r2 in
          match dropWhile notGt rest with
          | gt :: _ =>
              Some (mkMatch (matched ++ name ++ takeWhile notGt rest ++ [gt])
                      [Some name; Some []])
          | [] => None
          end
        else None
    | [] => None
    end.
Proof.
  rewrite matcher_Seq.
  pose proof tag_after_name as Hafter. pose proof tag_after_name_needsGt as Hneeds.
  remember (matcher prev0
              (Seq (Star true isSpace)
                 (Seq (Opt (Star true notGt))
                    (Seq (Group 2 (Opt (lit 47))) (lit 62))))
              (fun matched (_ : list N) caps => Some (mkMatch matched caps)))
    as K3 eqn:HK3.
  cbn [matcher]. destruct r1 as [|c r2]; [done|].
  destruct (isLetter c); [|done]. cbn zeta.
  destruct (dropWhile notGt (dropWhile isNameChar r2)) as [|gt tl] eqn:Hd.
  - apply star_needsGt.
    + intros matched' rest' caps' Hrest'. by apply Hneeds.
    + rewrite <- (takeWhile_dropWhile isNameChar r2). apply Forall_app. split.
      * eapply Forall_impl; [apply takeWhile_all|].
        intros d Hd'. by apply notGt_ne, isNameChar_notGt.
      * eapply Forall_impl; [apply dropWhile_nil, Hd|].
        intros d Hd'. by apply notGt_ne.
  - pose proof (dropWhile_head _ _ _ _ Hd) as ->%notGt_false.
    apply star_greedy_longest. rewrite (Hafter _ _ tl) by done.
    rewrite <- !app_assoc. rewrite drop_app_length. done.
Qed.

(** [tagRegex_at] is the tag pattern. *)
Lemma tagRegex_at_regex s : regexAt prev0 tagRegex 2 s = tagRegex_at prev0 s.
Proof.
  unfold regexAt, tagRegex, tagRegex_at. cbn [replicate].
  pose proof tag_from_name as Hname.
  rewrite matcher_Seq.
  remember (matcher prev0
              (Seq (Opt (lit 47))
                 (Seq (Group 1 (Seq (Chr isLetter) (Star true isNameChar)))
                    (Seq (Star true isSpace)
                       (Seq (Opt (Star true notGt))
                          (Seq (Group 2 (Opt (lit 47))) (lit 62))))))
              (fun matched (_ : list N) caps => Some (mkMatch matched caps)))
    as K1 eqn:HK1.
  cbn [matcher lit]. destruct s as [|lt r]; [done|].
  rewrite (N.eqb_sym 60 lt). destruct (lt =? 60)%N; [|done].
  subst K1. rewrite matcher_Seq.
  remember (matcher prev0
              (Seq (Group 1 (Seq (Chr isLetter) (Star true isNameChar)))
                 (Seq (Star true isSpace)
                    (Seq (Opt (Star true notGt))
                       (Seq (Group 2 (Opt (lit 47))) (lit 62)))))
              (fun matched (_ : list N) caps => Some (mkMatch matched caps)))
    as K2 eqn:HK2.
  cbn [matcher lit app]. unfold optionalUnit. destruct r as [|d r'].
  - by rewrite Hname.
  - rewrite (N.eqb_sym 47 d). destruct (d =? 47)%N eqn:Hd.
    + apply N.eqb_eq in Hd as ->. cbn [length Nat.eqb].
      rewrite !Hname. change (isLetter 47) with false. cbn iota.
      destruct r' as [|c r2]; [done|]. destruct (isLetter c); [|done].
      cbn zeta. by destruct (dropWhile notGt (dropWhile isNameChar r2)).
    + by rewrite Hname.
Qed.
End MatcherFacts.

(** ** Facts about [exec] *)

Section ExecFacts.
Variable matchAt : option N -> list N -> option Match.
Hypothesis matchAt_consuming : consuming matchAt.

Lemma searchFrom_Some prev s i index m :
  searchFrom matchAt prev s i = Some (index, m) ->
  i ≤ index ∧ index + length (m_full m) ≤ i + length s ∧ 0 < length (m_full m).
Proof.
  revert prev i. induction s as [|c s IH]; intros prev i; simpl.
  - destruct (matchAt prev []) as [m'|] eqn:Hm; [|done].
    intros [= <- <-]. destruct (matchAt_consuming _ _ _ Hm) as [Hne [rest Hrest]].
    by destruct (m_full m').
  - destruct (matchAt prev (c :: s)) as [m'|] eqn:Hm.
    + intros [= <- <-]. destruct (matchAt_consuming _ _ _ Hm) as [Hne [rest Hrest]].
      apply (f_equal length) in Hrest. rewrite length_app in Hrest. simpl in *.
      destruct (m_full m'); [done|]. simpl in *. lia.
    + intros H. apply IH in H. simpl. lia.
Qed.

Lemma searchFrom_matched prev s i index m :
  searchFrom matchAt prev s i = Some (index, m) ->
  ∃ prev' s', matchAt prev' s' = Some m.
Proof.
  revert prev i. induction s as [|c s IH]; intros prev i; simpl.
  - destruct (matchAt prev []) eqn:Hm; [|done]. intros [= <- <-]. eauto.
  - destruct (matchAt prev (c :: s)) eqn:Hm; [intros [= <- <-]; eauto|].
    apply IH.
Qed.

Lemma prevAt_cons prev c s k :
  prevAt prev (c :: s) (S k) = prevAt (Some c) s k.
Proof. by destruct k. Qed.

(** No position matches: the search fails. *)
Lemma searchFrom_None prev s i :
  (∀ k, k ≤ length s -> matchAt (prevAt prev s k) (drop k s) = None) ->
  searchFrom matchAt prev s i = None.
Proof.
  revert prev i. induction s as [|c s IH]; intros prev i Hnone;
    pose proof (Hnone 0) as H0; simpl in *; rewrite H0 by lia; [done|].
  apply IH. intros k Hk. rewrite <- (prevAt_cons prev). apply (Hnone (S k)). lia.
Qed.

(** No position of [pre] matches and the next one does: the search stops
    there. *)
Lemma searchFrom_first prev pre s i m :
  (∀ k, k < length pre ->
        matchAt (prevAt prev (pre ++ s) k) (drop k (pre ++ s)) = None) ->
  matchAt (prevAt prev (pre ++ s) (length pre)) s = Some m ->
  searchFrom matchAt prev (pre ++ s) i = Some (i + length pre, m).
Proof.
  revert prev i. induction pre as [|c pre IH]; intros prev i Hnone Hm.
  - simpl in *. rewrite Nat.add_0_r. destruct s; simpl; by rewrite Hm.
  - pose proof (Hnone 0) as H0. simpl in *. rewrite H0 by lia. rewrite IH.
    + f_equal. f_equal. lia.
    + intros k Hk. rewrite <- (prevAt_cons prev). apply (Hnone (S k)). lia.
    + by rewrite <- (prevAt_cons prev).
Qed.

Lemma exec_matched text lastIndex index m :
  exec matchAt text lastIndex = Some (index, m) ->
  ∃ prev' s', matchAt prev' s' = Some m.
Proof. unfold exec. case_decide; [apply searchFrom_matched | done]. Qed.

Lemma exec_Some text lastIndex index m :
  exec matchAt text lastIndex = Some (index, m) ->
  lastIndex ≤ index ∧ index + length (m_full m) ≤ length text
  ∧ 0 < length (m_full m).
Proof.
  unfold exec. case_decide as Hle; [|done].
  intros H%searchFrom_Some. rewrite length_drop in H. lia.
Qed.
End ExecFacts.

Lemma optionalUnit_app c s : (optionalUnit c s).1 ++ (optionalUnit c s).2 = s.
Proof. destruct s as [|d s]; simpl; [done|]. by destruct (d =? c)%N. Qed.

Lemma tagRegex_at_Some prev s m :
  tagRegex_at prev s = Some m ->
  ∃ slash name body rest,
    s = m_full m ++ rest
    ∧ m_full m = 60%N :: slash ++ name ++ body ++ [62%N]
    ∧ m_groups m = [Some name; Some []] ∧ name ≠ [].
Proof.
  unfold tagRegex_at. destruct s as [|lt r]; [done|].
  destruct (lt =? 60)%N eqn:Hlt; [|done]. apply N.eqb_eq in Hlt as ->.
  pose proof (optionalUnit_app 47 r) as Hr.
  destruct (optionalUnit 47 r) as [slash r1]. simpl in Hr.
  destruct r1 as [|c r2]; [done|].
  destruct (isLetter c); [|done].
  destruct (dropWhile notGt (dropWhile isNameChar r2)) as [|gt tl] eqn:Hd; [done|].
  intros [= <-]. simpl.
  pose proof (dropWhile_head _ _ _ _ Hd) as ->%notGt_false.
  exists slash, (c :: takeWhile isNameChar r2),
    (takeWhile notGt (dropWhile isNameChar r2)), tl.
  repeat split; [|done].
  pose proof (takeWhile_dropWhile isNameChar r2) as H1.
  pose proof (takeWhile_dropWhile notGt (dropWhile isNameChar r2)) as H2.
  rewrite Hd in H2. rewrite <- Hr. rewrite <- H1 at 1. rewrite <- H2 at 1.
  simpl. rewrite <- !app_assoc. simpl. by rewrite <- !app_assoc.
Qed.

Lemma tagRegex_consuming : consuming tagRegex_at.
Proof.
  intros prev s m (slash & name & body & rest & Hs & Hfull & _)%tagRegex_at_Some.
  split; [by rewrite Hfull | by exists rest].
Qed.

Lemma returnRegex_consuming : consuming returnRegex_at.
Proof.
  intros prev s m. unfold returnRegex_at.
  destruct (wordBoundary prev s); cbn [andb]; [|done].
  destruct (startsWith (units "return") s) eqn:Hs; [|done].
  apply startsWith_prefix in Hs as [t ->].
  change (drop 6 (units "return" ++ t)) with t.
  change (take 6 (units "return" ++ t)) with (units "return").
  destruct (dropWhile isSpace t) as [|c r'] eqn:Hd; [done|].
  destruct (c =? 40)%N; [|done]. intros [= <-]. simpl. split; [done|].
  exists (dropWhile isSpace r'). do 6 f_equal.
  rewrite <- (takeWhile_dropWhile isSpace t) at 1. rewrite Hd.
  rewrite <- (takeWhile_dropWhile isSpace r') at 1.
  by rewrite <- !app_assoc.
Qed.

(** [exec] on a pattern is [exec] on its closed form. *)
Lemma searchFrom_ext f g prev s i :
  (∀ prev' s', f prev' s' = g prev' s') ->
  searchFrom f prev s i = searchFrom g prev s i.
Proof.
  intros Hfg. revert prev i. induction s as [|c s IH]; intros prev i; simpl;
    rewrite Hfg; [done|]. by rewrite IH.
Qed.

Lemma exec_ext f g text lastIndex :
  (∀ prev s, f prev s = g prev s) ->
  exec f text lastIndex = exec g text lastIndex.
Proof. intros Hfg. unfold exec. by rewrite (searchFrom_ext f g). Qed.

Lemma regexExec_tag text lastIndex :
  regexExec tagRegex 2 text lastIndex = exec tagRegex_at text lastIndex.
Proof. apply exec_ext. intros. apply tagRegex_at_regex. Qed.

Lemma regexExec_return text lastIndex :
  regexExec returnRegex 0 text lastIndex = exec returnRegex_at text lastIndex.
Proof. apply exec_ext. intros. apply returnRegex_at_regex. Qed.

Lemma regexExec_template text lastIndex :
  regexExec templateRegex 1 text lastIndex = exec templateRegex_at text lastIndex.
Proof. apply exec_ext. intros. apply templateRegex_at_regex. Qed.

Arguments regexExec : simpl never.

(** ** The loops end and nothing throws *)

Lemma tokenizeStep_returns index m skipUntil g1 g2 :
  m_groups m = [Some g1; g2] -> ∃ r, tokenizeStep index m skipUntil = Ret r.
Proof.
  intros Hg. unfold tokenizeStep, group. rewrite Hg. simpl.
  repeat case_match; eauto.
Qed.

Lemma tokenizeLoop_returns fuel text lastIndex skipUntil tokens :
  lastIndex ≤ length text -> length text - lastIndex < fuel ->
  ∃ tokens', tokenizeLoop fuel text lastIndex skipUntil tokens = Ret tokens'.
Proof.
  revert lastIndex skipUntil tokens.
  induction fuel as [|fuel IH]; intros lastIndex skipUntil tokens Hle Hfuel; [lia|].
  simpl. rewrite regexExec_tag.
  destruct (exec tagRegex_at text lastIndex) as [[index m]|] eqn:He; [|eauto].
  pose proof (exec_Some _ tagRegex_consuming _ _ _ _ He) as (Hlo & Hhi & Hpos).
  destruct (exec_matched _ _ _ _ _ He) as (prev' & s' & Hm).
  apply tagRegex_at_Some in Hm as (slash & name & body & rest & _ & _ & Hg & _).
  destruct (tokenizeStep_returns index m skipUntil _ _ Hg) as [[skipUntil' pushed] ->].
  simpl. apply IH; lia.
Qed.

Lemma tokenizeTags_returns text : ∃ tokens, tokenizeTags text = Ret tokens.
Proof. apply tokenizeLoop_returns; lia. Qed.

Lemma jsxLoop_returns fuel content lastIndex regions :
  lastIndex ≤ length content -> length content - lastIndex < fuel ->
  ∃ regions', jsxLoop fuel content lastIndex regions = Ret regions'.
Proof.
  revert lastIndex regions.
  induction fuel as [|fuel IH]; intros lastIndex regions Hle Hfuel; [lia|].
  simpl. rewrite regexExec_return.
  destruct (exec returnRegex_at content lastIndex) as [[index m]|] eqn:He;
    [|eauto].
  pose proof (exec_Some _ returnRegex_consuming _ _ _ _ He) as (Hlo & Hhi & Hpos).
  destruct (indexOfFrom 60 content (index + length (m_full m))); apply IH; lia.
Qed.

(** Where [extractJsxRegions] computes [end = i - 1], [i] is positive. *)
Lemma scanParens_advances content start ltIdx :
  indexOfFrom 60 content start = Some ltIdx ->
  start < scanParens (drop start content) start 1.
Proof.
  assert (∀ rest i depth, i ≤ scanParens rest i depth) as Hmono.
  { induction rest as [|d rest IH]; intros i depth; simpl; [lia|].
    case_decide; [|lia]. etransitivity; [|apply IH]. lia. }
  unfold indexOfFrom. destruct (drop start content) as [|c rest]; [done|].
  intros _. cbn [scanParens]. rewrite decide_True by lia.
  apply (Hmono rest (S start)).
Qed.

Lemma extractMarkupRegions_returns content languageId :
  ∃ regions, extractMarkupRegions content languageId = Ret regions.
Proof.
  assert (∃ regions, extractJsxRegions content = Ret regions) as Hjsx.
  { unfold extractJsxRegions.
    destruct (jsxLoop_returns (S (length content)) content 0 []) as [regions ->];
      [lia..|].
    simpl. case_decide; eauto. }
  unfold extractMarkupRegions. repeat case_decide; eauto.
Qed.

Section CheckerReturns.
Variable rules : gmap string NestingRule.

Lemma closeScan_returns stack name n :
  n ≤ length stack -> ∃ stack', closeScan stack name n = Ret stack'.
Proof.
  induction n as [|i IH]; intros Hn; simpl; [eauto|].
  destruct (lookup_lt_is_Some_2 stack i) as [frame ->]; [lia|].
  case_decide; [eauto|]. apply IH. lia.
Qed.

Lemma checkToken_returns st token : ∃ st', checkToken rules st token = Ret st'.
Proof.
  destruct st as [errors stack]. unfold checkToken.
  destruct (tok_type token).
  - case_decide as Hlen; simpl; [|eauto].
    destruct (lookup_lt_is_Some_2 stack (length stack - 1)) as [top ->]; [lia|].
    destruct (rules !! _); simpl; eauto.
  - destruct (closeScan_returns stack (tok_name token) (length stack)) as [s' ->];
      [lia|]. simpl. eauto.
  - eauto.
Qed.

Lemma checkTokens_returns st tokens : ∃ st', checkTokens rules st tokens = Ret st'.
Proof.
  revert st. induction tokens as [|token tokens IH]; intros st; simpl; [eauto|].
  destruct (checkToken_returns st token) as [st' ->]. simpl. apply IH.
Qed.

Lemma findNestingErrors_returns tokens :
  ∃ errors, findNestingErrors rules tokens = Ret errors.
Proof.
  unfold findNestingErrors.
  destruct (checkTokens_returns ([], []) tokens) as [st ->]. simpl. eauto.
Qed.

Lemma analyzeRegion_returns region : ∃ vs, analyzeRegion rules region = Ret vs.
Proof.
  unfold analyzeRegion.
  destruct (tokenizeTags_returns (text region)) as [tokens ->]. simpl.
  destruct (findNestingErrors_returns tokens) as [errors ->]. simpl. eauto.
Qed.

Lemma analyzeRegions_returns allErrors regions :
  ∃ vs, analyzeRegions rules allErrors regions = Ret vs.
Proof.
  revert allErrors. induction regions as [|region regions IH]; intros allErrors;
    simpl; [eauto|].
  destruct (analyzeRegion_returns region) as [vs ->]. simpl. apply IH.
Qed.

Lemma analyzeDocument_returns content languageId :
  ∃ vs, analyzeDocument rules content languageId = Ret vs.
Proof.
  unfold analyzeDocument.
  destruct (extractMarkupRegions_returns content languageId) as [regions ->].
  simpl. apply analyzeRegions_returns.
Qed.
End CheckerReturns.

(** C3. For every input text and every language id, [analyzeDocument]
    completes normally with a list of violations: it neither throws nor
    exhausts the bound of a loop.  The unbalanced document
    [<div><span></div>] yields the empty list. *)
Theorem analyzeDocument_always_returns :
  (∀ content languageId,
     ∃ violations, analyzeDocument RULES_MAP content languageId = Ret violations)
  ∧ analyzeDocument RULES_MAP (units "<div><span></div>") "html" = Ret [].
Proof.
  split; [intros; apply analyzeDocument_returns | by vm_compute].
Qed.

(** ** The close branch of the checker *)

Section CloseBranch.
Variable rules : gmap string NestingRule.
Implicit Types (stack below above : list ParentFrame) (frame : ParentFrame).

Lemma closeScan_found below frame above name k :
  frame_name frame = name ->
  Forall (fun g => frame_name g ≠ name) above ->
  k ≤ length above ->
  closeScan (below ++ frame :: above) name (S (length below) + k) = Ret below.
Proof.
  intros Hname Habove. induction k as [|k IH]; intros Hk.
  - rewrite Nat.add_0_r. simpl.
    rewrite list_lookup_middle by done. rewrite decide_True by done.
    by rewrite take_app_length.
  - replace (S (length below) + S k) with (S (S (length below) + k)) by lia.
    simpl. destruct (lookup_lt_is_Some_2 above k) as [g Hg]; [lia|].
    rewrite lookup_app_r by lia.
    replace (S (length below + k) - length below) with (S k) by lia.
    simpl. rewrite Hg.
    rewrite decide_False; [apply IH; lia|].
    eapply Forall_lookup_1 in Habove; eauto.
Qed.

Lemma closeScan_absent stack name n :
  Forall (fun g => frame_name g ≠ name) stack ->
  n ≤ length stack ->
  closeScan stack name n = Ret stack.
Proof.
  intros Hstack. induction n as [|i IH]; intros Hn; simpl; [done|].
  destruct (lookup_lt_is_Some_2 stack i) as [g Hg]; [lia|]. rewrite Hg.
  rewrite decide_False; [apply IH; lia|].
  eapply Forall_lookup_1 in Hstack; eauto.
Qed.

(** C5. On a close token named [name]: when some frame is named [name],
    the topmost such frame and every frame above it are removed and the
    frames below it are kept; when no frame is named [name], the stack is
    unchanged.  In both cases no error is recorded and nothing is
    thrown. *)
Theorem close_token_pops_to_nearest_match :
  (∀ errors below frame above name offset len,
     frame_name frame = name ->
     Forall (fun g => frame_name g ≠ name) above ->
     checkToken rules (errors, below ++ frame :: above)
       (mkToken close name offset len) = Ret (errors, below))
  ∧ (∀ errors stack name offset len,
       Forall (fun g => frame_name g ≠ name) stack ->
       checkToken rules (errors, stack) (mkToken close name offset len)
       = Ret (errors, stack)).
Proof.
  split.
  - intros errors below frame above name offset len Hname Habove.
    unfold checkToken. simpl.
    replace (length (below ++ frame :: above))
      with (S (length below) + length above)
      by (rewrite length_app; simpl; lia).
    by rewrite closeScan_found.
  - intros errors stack name offset len Hstack. unfold checkToken. simpl.
    by rewrite closeScan_absent.
Qed.
End CloseBranch.

Lemma close_token_pops_to_nearest_match_witness :
  checkToken RULES_MAP
    ([], [mkFrame "div" 0; mkFrame "span" 5; mkFrame "span" 11; mkFrame "b" 17])
    (mkToken close "span" 20 7)
  = Ret ([], [mkFrame "div" 0; mkFrame "span" 5])
  ∧ checkToken RULES_MAP ([], [mkFrame "div" 0; mkFrame "b" 5])
      (mkToken close "span" 8 7)
    = Ret ([], [mkFrame "div" 0; mkFrame "b" 5]).
Proof.
  split.
  - apply (proj1 (close_token_pops_to_nearest_match RULES_MAP) []
             [mkFrame "div" 0; mkFrame "span" 5] (mkFrame "span" 11)
             [mkFrame "b" 17] "span" 20 7); [reflexivity|].
    repeat constructor; discriminate.
  - apply (proj2 (close_token_pops_to_nearest_match RULES_MAP) []
             [mkFrame "div" 0; mkFrame "b" 5] "span" 8 7).
    repeat constructor; discriminate.
Defined.

(** ** The rule index *)

Section BuildRulesMap.
Implicit Types (rules rest : list NestingRule) (rule : NestingRule)
  (map : gmap string NestingRule).

Lemma buildRulesMap_snoc rules rule :
  buildRulesMap (rules ++ [rule]) = setRule (buildRulesMap rules) rule.
Proof. unfold buildRulesMap. by rewrite fold_left_app. Qed.

(** Every entry of the index is a rule of the list, stored under its own
    key. *)
Lemma buildRulesMap_lookup rules key rule :
  buildRulesMap rules !! key = Some rule -> rule ∈ rules ∧ key = keyOf rule.
Proof.
  induction rules as [|r rules IH] using rev_ind.
  - unfold buildRulesMap. simpl. by rewrite lookup_empty.
  - rewrite buildRulesMap_snoc. unfold setRule.
    destruct (decide (keyOf r = key)) as [<-|Hne].
    + rewrite lookup_insert_eq. intros [= <-]. split; [|done].
      apply elem_of_app. right. by apply list_elem_of_singleton.
    + rewrite lookup_insert_ne by done. intros [Hin ->]%IH. split; [|done].
      apply elem_of_app. by left.
Qed.

(** The last rule of the list with a given key is the one stored: a later
    [set] replaces an earlier one. *)
Lemma buildRulesMap_last_wins rules rule rest :
  Forall (fun r => keyOf r ≠ keyOf rule) rest ->
  buildRulesMap (rules ++ rule :: rest) !! keyOf rule = Some rule.
Proof.
  induction rest as [|r rest IH] using rev_ind; intros Hrest.
  - rewrite buildRulesMap_snoc. apply lookup_insert_eq.
  - apply Forall_app in Hrest as [Hrest Hr]. rewrite Forall_singleton in Hr.
    change (rule :: rest ++ [r]) with ((rule :: rest) ++ [r]).
    rewrite app_assoc, buildRulesMap_snoc. unfold setRule.
    rewrite lookup_insert_ne by done. by apply IH.
Qed.
End BuildRulesMap.

(** C1 (the code at the pairs named by the claim).  For each of (p, div),
    (a, a), (form, form) and (label, label) there is an explicit and a
    generated rule, they differ, and the index built from
    [NESTING_RULES_COMPLETE] stores the generated one, because the generated
    rules come later in the list and a later [set] replaces an earlier one.
    For (p, div) the stored reason and alternatives are the generic texts,
    and the violation reported for [<p><div></div></p>] carries them.  52
    of the 54 explicit rules are replaced in this way; the index of the
    checked-in build, made from the explicit rules alone, stores the
    explicit rule. *)
Theorem generated_rule_replaces_explicit_rule :
  Forall
    (fun pc : string * string =>
       ∃ e g, explicitRule pc.1 pc.2 = Some e ∧ generatedRule pc.1 pc.2 = Some g
              ∧ e ≠ g
              ∧ RULES_MAP !! ruleKey pc.1 pc.2 = Some g
              ∧ RULES_MAP_build !! ruleKey pc.1 pc.2 = Some e)
    [("p", "div"); ("a", "a"); ("form", "form"); ("label", "label")]
  ∧ (∃ e g, explicitRule "p" "div" = Some e
            ∧ RULES_MAP !! ruleKey "p" "div" = Some g
            ∧ reason e = "<p> solo puede contener phrasing content (texto e inline). <div> es un bloque y cierra implícitamente el <p>."
            ∧ reason g = "<p> solo puede contener phrasing content (contenido inline)."
            ∧ reason g ≠ reason e
            ∧ alternatives g ≠ alternatives e
            ∧ analyzeDocument RULES_MAP (units "<p><div></div></p>") "html"
              = Ret [mkViolation (mkError "p" "div" 3 5 g) 3])
  ∧ length NESTING_RULES = 54 ∧ length shadowedExplicitRules = 52
  ∧ NESTING_RULES_COMPLETE = NESTING_RULES ++ GENERATED_NESTING_RULES.
Proof.
  split; [|split; [|split; [|split]]].
  - repeat apply Forall_cons_2; [..|apply Forall_nil_2]; cbn [fst snd];
      match goal with
      | |- ∃ e g, explicitRule ?p ?c = _ ∧ _ =>
          let e := eval vm_compute in (explicitRule p c) in
          let g := eval vm_compute in (generatedRule p c) in
          match e with Some ?e' =>
            match g with Some ?g' => exists e', g' end
          end
      end;
      (split; [vm_compute; reflexivity|]); (split; [vm_compute; reflexivity|]);
      (split; [apply (bool_decide_eq_false_1 _); vm_compute; reflexivity|]);
      split; vm_compute; reflexivity.
  - let e := eval vm_compute in (explicitRule "p" "div") in
    let g := eval vm_compute in (generatedRule "p" "div") in
    match e with Some ?e' =>
      match g with Some ?g' => exists e', g' end
    end.
    split; [vm_compute; reflexivity|]. split; [vm_compute; reflexivity|].
    split; [reflexivity|]. split; [reflexivity|].
    split; [apply (bool_decide_eq_false_1 _); vm_compute; reflexivity|].
    split; [apply (bool_decide_eq_false_1 _); vm_compute; reflexivity|].
    vm_compute; reflexivity.
  - vm_compute; reflexivity.
  - vm_compute; reflexivity.
  - unfold NESTING_RULES_COMPLETE. exact eq_refl.
Qed.

Lemma inCatalog_inside rule : inCatalog rule = true -> inside rule.
Proof.
  intros [Hp Hc]%andb_prop. unfold has, HTML_TAGS_SET in *.
  apply bool_decide_eq_true_1, elem_of_list_to_set in Hp, Hc. by split.
Qed.

Lemma filter_inCatalog_inside rules : Forall inside (List.filter inCatalog rules).
Proof.
  apply Forall_forall. intros rule Hin%list_elem_of_In%filter_In.
  apply inCatalog_inside. tauto.
Qed.

(** The definitions of the derived tables, as equations to rewrite with. *)
Lemma GENERATED_NESTING_RULES_eq :
  GENERATED_NESTING_RULES = List.filter inCatalog autoRules.
Proof. unfold GENERATED_NESTING_RULES, generateAutomaticRules. exact eq_refl. Qed.

Lemma NESTING_RULES_COMPLETE_eq :
  NESTING_RULES_COMPLETE = NESTING_RULES ++ GENERATED_NESTING_RULES.
Proof. unfold NESTING_RULES_COMPLETE. exact eq_refl. Qed.

Lemma RULES_MAP_eq : RULES_MAP = buildRulesMap NESTING_RULES_COMPLETE.
Proof. unfold RULES_MAP. exact eq_refl. Qed.

Lemma explicit_inside : Forall inside NESTING_RULES.
Proof.
  apply Forall_forall. intros rule Hin. apply inCatalog_inside. revert rule Hin.
  apply Forall_forall, (bool_decide_unpack _). vm_compute. exact I.
Qed.

Lemma complete_inside : Forall inside NESTING_RULES_COMPLETE.
Proof.
  rewrite NESTING_RULES_COMPLETE_eq, GENERATED_NESTING_RULES_eq.
  apply Forall_app_2; [exact explicit_inside | apply filter_inCatalog_inside].
Qed.

(** C9. Every rule of [NESTING_RULES_COMPLETE] has its parent and its
    child in [ALL_HTML_TAGS]: the explicit rules are written that way, the
    generated rules are what the catalog filter keeps.  Hence every entry
    of [RULES_MAP] is stored under the key of its own parent and child, and
    both are catalog tags. *)
Theorem rules_stay_within_catalog :
  Forall inside NESTING_RULES
  ∧ GENERATED_NESTING_RULES = List.filter inCatalog autoRules
  ∧ Forall inside (List.filter inCatalog autoRules)
  ∧ Forall inside NESTING_RULES_COMPLETE
  ∧ map_Forall
      (fun key rule => key = ruleKey (parent rule) (child rule) ∧ inside rule)
      RULES_MAP.
Proof.
  split; [exact explicit_inside|].
  split; [exact GENERATED_NESTING_RULES_eq|].
  split; [apply filter_inCatalog_inside|].
  split; [exact complete_inside|].
  rewrite RULES_MAP_eq. intros key rule [Hin Hkey]%buildRulesMap_lookup.
  split; [exact Hkey|].
  exact (proj1 (Forall_forall _ _) complete_inside rule Hin).
Qed.

Lemma rules_stay_within_catalog_witness :
  ∃ rule, RULES_MAP !! "table::div" = Some rule
    ∧ "table::div" = ruleKey (parent rule) (child rule) ∧ inside rule.
Proof.
  eexists. split; [vm_compute; exact eq_refl|].
  eapply (proj2 (proj2 (proj2 (proj2 rules_stay_within_catalog))) "table::div").
  vm_compute. exact eq_refl.
Defined.

(** ** One rule, one nested pair *)

(** C2, as stated, fails: (a, input) and (html, script) are rules of the
    catalog, yet the nested documents for them yield no violation at all.
    The tokenizer tests [VOID_ELEMENTS.has(name)] and makes the tag of
    [input] a self-closing token, it tests [SKIP_CONTENT_TAGS.has(name)]
    and makes the tag of [script] the start of a skipped span, and the
    checker looks rules up for tokens of type [open] only. *)
Lemma nested_pair_void_or_raw_child_unreported :
  (∃ rule,
     RULES_MAP !! ruleKey "a" "input" = Some rule
     ∧ nestedDoc "a" "input" = units "<a><input></input></a>"
     ∧ analyzeDocument RULES_MAP (nestedDoc "a" "input") "html" = Ret []
     ∧ ¬ ∃ v, analyzeDocument RULES_MAP (nestedDoc "a" "input") "html" = Ret [v])
  ∧ (∃ rule,
       RULES_MAP !! ruleKey "html" "script" = Some rule
       ∧ nestedDoc "html" "script" = units "<html><script></script></html>"
       ∧ analyzeDocument RULES_MAP (nestedDoc "html" "script") "html" = Ret []
       ∧ ¬ ∃ v, analyzeDocument RULES_MAP (nestedDoc "html" "script") "html"
                = Ret [v]).
Proof.
  assert (analyzeDocument RULES_MAP (nestedDoc "a" "input") "html" = Ret [])
    as Hinput by (vm_compute; exact eq_refl).
  assert (analyzeDocument RULES_MAP (nestedDoc "html" "script") "html" = Ret [])
    as Hscript by (vm_compute; exact eq_refl).
  split; eexists; (split; [vm_compute; exact eq_refl|]);
    (split; [vm_compute; exact eq_refl|]).
  - split; [exact Hinput|]. intros [v Hv]. rewrite Hinput in Hv. discriminate Hv.
  - split; [exact Hscript|]. intros [v Hv]. rewrite Hscript in Hv.
    discriminate Hv.
Qed.

Lemma all_pairs_reported :
  forallb (pairReported RULES_MAP) (map_to_list RULES_MAP) = true.
Proof. vm_compute. exact eq_refl. Qed.

(** What analysing [<P><C></C></P>] returns, for every rule (P, C) of the
    index. *)
Lemma nested_pair_outcome key rule :
  RULES_MAP !! key = Some rule ->
  key = keyOf rule
  ∧ analyzeDocument RULES_MAP (nestedDoc (parent rule) (child rule)) "html"
    = Ret (expectedForPair rule).
Proof.
  intros Hl%elem_of_map_to_list%list_elem_of_In.
  pose proof (proj1 (forallb_forall _ _) all_pairs_reported _ Hl) as Hb.
  apply andb_prop in Hb as [Hkey Hdoc].
  apply bool_decide_eq_true_1 in Hkey, Hdoc. split; [exact Hkey | exact Hdoc].
Qed.

(** C2, amended.  For every rule (P, C) of [RULES_MAP] whose child C is
    neither a void element nor a raw-text tag (script, style, template),
    analysing [<P><C></C></P>] as plain markup returns exactly one
    violation; it has parent P, child C and the rule stored for (P, C), and
    it is positioned at the child's opening tag. *)
Theorem nested_pair_reports_catalog_rule key rule :
  RULES_MAP !! key = Some rule ->
  has VOID_ELEMENTS (child rule) = false ->
  has SKIP_CONTENT_TAGS (child rule) = false ->
  key = ruleKey (parent rule) (child rule)
  ∧ analyzeDocument RULES_MAP (nestedDoc (parent rule) (child rule)) "html"
    = Ret [mkViolation
             (mkError (parent rule) (child rule)
                (String.length (parent rule) + 2)
                (String.length (child rule) + 2) rule)
             (String.length (parent rule) + 2)].
Proof.
  intros Hrule Hvoid Hraw.
  destruct (nested_pair_outcome key rule Hrule) as [Hkey Hdoc].
  split; [exact Hkey|]. rewrite Hdoc. unfold expectedForPair.
  rewrite Hvoid, Hraw. exact eq_refl.
Qed.

Lemma nested_pair_reports_catalog_rule_witness :
  ∃ rule, RULES_MAP !! "ul::div" = Some rule
    ∧ parent rule = "ul" ∧ child rule = "div"
    ∧ analyzeDocument RULES_MAP (nestedDoc (parent rule) (child rule)) "html"
      = Ret [mkViolation
               (mkError (parent rule) (child rule)
                  (String.length (parent rule) + 2)
                  (String.length (child rule) + 2) rule)
               (String.length (parent rule) + 2)].
Proof.
  eexists. split; [vm_compute; exact eq_refl|].
  split; [exact eq_refl|]. split; [exact eq_refl|].
  eapply (proj2 (nested_pair_reports_catalog_rule "ul::div" _ _ _ _)).
  Unshelve. all: vm_compute; exact eq_refl.
Defined.

(** ** The tokenizer as a fold over the matches *)

Arguments units : simpl never.
Arguments startsWith : simpl never.
Arguments startsWithCi : simpl never.
Arguments endsWith : simpl never.

Lemma tagMatches_returns fuel text lastIndex :
  lastIndex ≤ length text -> length text - lastIndex < fuel ->
  ∃ ms, tagMatches fuel text lastIndex = Ret ms.
Proof.
  revert lastIndex. induction fuel as [|fuel IH]; intros lastIndex Hle Hfuel; [lia|].
  simpl. rewrite regexExec_tag.
  destruct (exec tagRegex_at text lastIndex) as [[index m]|] eqn:He; [|eauto].
  pose proof (exec_Some _ tagRegex_consuming _ _ _ _ He) as (Hlo & Hhi & Hpos).
  destruct (IH (index + length (m_full m))) as [ms ->]; [lia..|]. simpl. eauto.
Qed.

Lemma tokenizeLoop_emitTokens fuel text lastIndex skipUntil tokens ms :
  tagMatches fuel text lastIndex = Ret ms ->
  tokenizeLoop fuel text lastIndex skipUntil tokens = emitTokens skipUntil tokens ms.
Proof.
  revert lastIndex skipUntil tokens ms.
  induction fuel as [|fuel IH]; intros lastIndex skipUntil tokens ms; simpl; [done|].
  rewrite regexExec_tag.
  destruct (exec tagRegex_at text lastIndex) as [[index m]|]; [|by intros [= <-]].
  destruct (tagMatches fuel text (index + length (m_full m))) as [ms'| |] eqn:Hms;
    simpl; [|done..].
  intros [= <-]. simpl.
  destruct (tokenizeStep index m skipUntil) as [[skipUntil' pushed]| |]; simpl;
    [|done..].
  by apply IH.
Qed.

(** [tokenizeTags] is the loop body folded over the matches of the text. *)
Lemma tokenizeTags_emitTokens text :
  ∃ ms, tagMatches (S (length text)) text 0 = Ret ms
        ∧ tokenizeTags text = emitTokens None [] ms.
Proof.
  destruct (tagMatches_returns (S (length text)) text 0) as [ms Hms]; [lia..|].
  exists ms. split; [done|]. by apply tokenizeLoop_emitTokens.
Qed.

Lemma has_skip_nonempty name : has SKIP_CONTENT_TAGS name = true -> name ≠ "".
Proof. intros H ->. by vm_compute in H. Qed.

(** A raw-text opening tag, self-closing or not, pushes no token and starts
    a skipped span. *)
Lemma emitTokens_enter_skip index m name tokens ms :
  matchIsClose m = false -> matchName m = Some name ->
  has SKIP_CONTENT_TAGS name = true ->
  emitTokens None tokens ((index, m) :: ms) = emitTokens (Some name) tokens ms.
Proof.
  unfold matchIsClose, matchName. intros Hclose Hname Hskip. simpl.
  unfold tokenizeStep. destruct (group m 1) as [g1|]; [|done].
  injection Hname as Hname. rewrite Hname, Hclose, Hskip. simpl.
  by rewrite app_nil_r.
Qed.

(** Inside a skipped span a match that is not the awaited closing tag
    pushes no token and leaves the span open. *)
Lemma emitTokens_skipping name tokens ms1 ms2 :
  name ≠ "" -> forallb (keepsSkipping name) ms1 = true ->
  emitTokens (Some name) tokens (ms1 ++ ms2) = emitTokens (Some name) tokens ms2.
Proof.
  intros Hname. induction ms1 as [|[index m] ms1 IH]; simpl; [done|].
  intros [Hkeep Hrest]%andb_prop. unfold keepsSkipping, matchName in Hkeep.
  simpl in Hkeep. unfold tokenizeStep, truthy.
  destruct (group m 1) as [g1|]; [|done]. simpl in Hkeep.
  rewrite (proj2 (String.eqb_neq _ _) Hname). simpl.
  fold (matchIsClose m).
  destruct (matchIsClose m) eqn:Hclose; simpl in *.
  - rewrite bool_decide_eq_false_2; [simpl; rewrite app_nil_r; by apply IH|].
    intros [= Heq]. rewrite Heq in Hkeep. by rewrite bool_decide_eq_true_2 in Hkeep.
  - rewrite app_nil_r. by apply IH.
Qed.

(** The awaited closing tag pushes no token and ends the span. *)
Lemma emitTokens_leave_skip index m name tokens ms :
  name ≠ "" -> matchIsClose m = true -> matchName m = Some name ->
  emitTokens (Some name) tokens ((index, m) :: ms) = emitTokens None tokens ms.
Proof.
  unfold matchIsClose, matchName. intros Hne Hclose Hname. simpl.
  unfold tokenizeStep, truthy. destruct (group m 1) as [g1|]; [|done].
  injection Hname as Hname. rewrite Hname, Hclose.
  rewrite (proj2 (String.eqb_neq _ _) Hne). simpl.
  rewrite bool_decide_eq_true_2 by done. simpl. by rewrite app_nil_r.
Qed.

(** C4. [<p><script>&lt;div&gt;</script></p>] and
    [<p><style>div{}</style></p>] yield no violation in plain markup.  In
    general the tokens of a text are the loop body folded over its tag
    matches, and from a raw-text opening tag up to and including the first
    closing tag of the same name no match pushes a token, so nothing in
    that span reaches the parent stack; [<div>] inside [<script>] is not
    tokenized. *)
Theorem raw_text_span_emits_no_token :
  analyzeDocument RULES_MAP (units "<p><script>&lt;div&gt;</script></p>") "html"
  = Ret []
  ∧ analyzeDocument RULES_MAP (units "<p><style>div{}</style></p>") "html" = Ret []
  ∧ tokenizeTags (units "<p><script><div></div></script></p>")
    = Ret [mkToken open "p" 0 3; mkToken close "p" 31 4]
  ∧ analyzeDocument RULES_MAP (units "<p><script><div></div></script></p>") "html"
    = Ret []
  ∧ (∀ text, ∃ ms, tagMatches (S (length text)) text 0 = Ret ms
                   ∧ tokenizeTags text = emitTokens None [] ms)
  ∧ (∀ index m name inner index' m' after tokens,
       matchIsClose m = false -> matchName m = Some name ->
       has SKIP_CONTENT_TAGS name = true ->
       forallb (keepsSkipping name) inner = true ->
       matchIsClose m' = true -> matchName m' = Some name ->
       emitTokens None tokens ((index, m) :: inner ++ (index', m') :: after)
       = emitTokens None tokens after).
Proof.
  split; [vm_compute; exact eq_refl|]. split; [vm_compute; exact eq_refl|].
  split; [vm_compute; exact eq_refl|]. split; [vm_compute; exact eq_refl|].
  split; [exact tokenizeTags_emitTokens|].
  intros index m name inner index' m' after tokens Hopen Hname Hskip Hinner Hclose Hname'.
  pose proof (has_skip_nonempty _ Hskip) as Hne.
  rewrite (emitTokens_enter_skip _ _ name) by done.
  rewrite emitTokens_skipping by done.
  by apply emitTokens_leave_skip.
Qed.

Lemma raw_text_span_emits_no_token_witness :
  emitTokens None []
    [(0, mkMatch (units "<script>") [Some (units "script"); Some []]);
     (8, mkMatch (units "<div>") [Some (units "div"); Some []]);
     (13, mkMatch (units "</script>") [Some (units "script"); Some []]);
     (22, mkMatch (units "<p>") [Some (units "p"); Some []])]
  = emitTokens None [] [(22, mkMatch (units "<p>") [Some (units "p"); Some []])].
Proof.
  apply (proj2 (proj2 (proj2 (proj2 (proj2 raw_text_span_emits_no_token))))
           0 (mkMatch (units "<script>") [Some (units "script"); Some []]) "script"
           [(8, mkMatch (units "<div>") [Some (units "div"); Some []])]
           13 (mkMatch (units "</script>") [Some (units "script"); Some []]));
    vm_compute; exact eq_refl.
Defined.

(** C6. A self-closing token leaves the error list and the parent stack
    as they are, whatever the rule index holds.  A tag that is not a closing
    tag and not a raw-text tag becomes a self-closing token when its text
    ends in [/>] or its name is a void element.  The index has a rule for
    (select, input), yet [<select><input/></select>] yields no violation. *)
Theorem self_closing_token_is_never_checked :
  (∀ rules errors stack name offset len,
     checkToken rules (errors, stack) (mkToken self_closing name offset len)
     = Ret (errors, stack))
  ∧ (∀ index m name skipUntil,
       truthy skipUntil = false ->
       matchName m = Some name -> matchIsClose m = false ->
       has SKIP_CONTENT_TAGS name = false ->
       endsWith (units "/>") (m_full m) || has VOID_ELEMENTS name = true ->
       tokenizeStep index m skipUntil
       = Ret (skipUntil,
              Some (mkToken self_closing name index (length (m_full m)))))
  ∧ is_Some (RULES_MAP !! ruleKey "select" "input")
  ∧ tokenizeTags (units "<select><input/></select>")
    = Ret [mkToken open "select" 0 8; mkToken self_closing "input" 8 8;
           mkToken close "select" 16 9]
  ∧ analyzeDocument RULES_MAP (units "<select><input/></select>") "html" = Ret []
  ∧ analyzeDocument RULES_MAP (units "<select><input></select>") "html" = Ret [].
Proof.
  split; [done|]. split; cycle 1.
  { split; [apply (bool_decide_unpack _); vm_compute; exact I|].
    repeat split; vm_compute; exact eq_refl. }
  intros index m name skipUntil Hskip Hname Hclose Hraw Hself.
  unfold matchName, matchIsClose in *. unfold tokenizeStep.
  destruct (group m 1) as [g1|]; [|done]. injection Hname as ->.
  rewrite Hskip, Hclose, Hraw. simpl.
  apply orb_prop in Hself as [->| ->]; [by rewrite orb_true_r|].
  by rewrite orb_true_r.
Qed.

Lemma self_closing_token_is_never_checked_witness :
  tokenizeStep 8 (mkMatch (units "<input/>") [Some (units "input"); Some []]) None
  = Ret (None, Some (mkToken self_closing "input" 8 8)).
Proof.
  apply (proj1 (proj2 self_closing_token_is_never_checked)
           8 (mkMatch (units "<input/>") [Some (units "input"); Some []]) "input" None);
    vm_compute; exact eq_refl.
Defined.

(** C10. A raw-text tag written as self-closing ([<script/>], [<style/>])
    pushes no token and starts a skipped span all the same.  The span ends
    at the next closing tag of that name; when there is none, every later
    match is dropped.  So [<script/><p><div></div></p>] has no token and no
    violation, although [<p><div></div></p>] alone is reported. *)
Theorem self_closing_raw_text_tag_starts_skip :
  (∀ index m name tokens ms,
     endsWith (units "/>") (m_full m) = true ->
     matchIsClose m = false -> matchName m = Some name ->
     has SKIP_CONTENT_TAGS name = true ->
     emitTokens None tokens ((index, m) :: ms)
     = emitTokens (Some name) tokens ms)
  ∧ (∀ name tokens ms,
       has SKIP_CONTENT_TAGS name = true ->
       forallb (keepsSkipping name) ms = true ->
       emitTokens (Some name) tokens ms = Ret tokens)
  ∧ (∀ name tokens inner index' m' after,
       has SKIP_CONTENT_TAGS name = true ->
       forallb (keepsSkipping name) inner = true ->
       matchIsClose m' = true -> matchName m' = Some name ->
       emitTokens (Some name) tokens (inner ++ (index', m') :: after)
       = emitTokens None tokens after)
  ∧ tokenizeTags (units "<script/><p><div></div></p>") = Ret []
  ∧ analyzeDocument RULES_MAP (units "<script/><p><div></div></p>") "html" = Ret []
  ∧ (∃ v, analyzeDocument RULES_MAP (units "<p><div></div></p>") "html" = Ret [v])
  ∧ tokenizeTags (units "<style/><p></style><div>")
    = Ret [mkToken open "div" 19 5].
Proof.
  split.
  { intros index m name tokens ms _. apply emitTokens_enter_skip. }
  split.
  { intros name tokens ms Hskip Hms.
    rewrite <- (app_nil_r ms).
    by rewrite emitTokens_skipping by eauto using has_skip_nonempty. }
  split.
  { intros name tokens inner index' m' after Hskip Hinner Hclose Hname.
    pose proof (has_skip_nonempty _ Hskip) as Hne.
    rewrite emitTokens_skipping by done. by apply emitTokens_leave_skip. }
  split; [vm_compute; exact eq_refl|]. split; [vm_compute; exact eq_refl|].
  split; [eexists; vm_compute; exact eq_refl|]. vm_compute; exact eq_refl.
Qed.

Lemma self_closing_raw_text_tag_starts_skip_witness :
  emitTokens None []
    [(0, mkMatch (units "<script/>") [Some (units "script"); Some []]);
     (9, mkMatch (units "<p>") [Some (units "p"); Some []])]
  = emitTokens (Some "script") [] [(9, mkMatch (units "<p>") [Some (units "p"); Some []])]
  ∧ emitTokens (Some "script") [] [(9, mkMatch (units "<p>") [Some (units "p"); Some []])]
    = Ret []
  ∧ emitTokens (Some "style") []
      [(8, mkMatch (units "<p>") [Some (units "p"); Some []]);
       (11, mkMatch (units "</style>") [Some (units "style"); Some []]);
       (19, mkMatch (units "<div>") [Some (units "div"); Some []])]
    = emitTokens None [] [(19, mkMatch (units "<div>") [Some (units "div"); Some []])].
Proof.
  split; [|split].
  - apply (proj1 self_closing_raw_text_tag_starts_skip
             0 (mkMatch (units "<script/>") [Some (units "script"); Some []]) "script");
      vm_compute; exact eq_refl.
  - apply (proj1 (proj2 self_closing_raw_text_tag_starts_skip) "script");
      vm_compute; exact eq_refl.
  - apply (proj1 (proj2 (proj2 self_closing_raw_text_tag_starts_skip)) "style" []
             [(8, mkMatch (units "<p>") [Some (units "p"); Some []])]
             11 (mkMatch (units "</style>") [Some (units "style"); Some []]));
      vm_compute; exact eq_refl.
Defined.

(** ** Region extraction *)

Lemma exec_None matchAt text :
  (∀ k, k ≤ length text -> matchAt (prevAt None text k) (drop k text) = None) ->
  exec matchAt text 0 = None.
Proof.
  intros Hnone. unfold exec. rewrite decide_True by lia.
  by apply searchFrom_None.
Qed.

Lemma exec_first matchAt pre s m :
  (∀ k, k < length pre ->
        matchAt (prevAt None (pre ++ s) k) (drop k (pre ++ s)) = None) ->
  matchAt (prevAt None (pre ++ s) (length pre)) s = Some m ->
  exec matchAt (pre ++ s) 0 = Some (length pre, m).
Proof.
  intros Hnone Hm. unfold exec. rewrite decide_True by lia.
  by apply (searchFrom_first matchAt None pre s 0).
Qed.

Lemma extractJsxRegions_no_return content :
  hasReturnOpening content = false ->
  extractJsxRegions content = Ret [mkRegion content 0].
Proof.
  intros Hno. unfold extractJsxRegions. simpl.
  rewrite regexExec_return, exec_None; [done|].
  intros k Hk.
  destruct (returnRegex_at (prevAt None content k) (drop k content)) eqn:Hm; [|done].
  assert (hasReturnOpening content = true) as Hyes; [|congruence].
  apply existsb_exists. exists k. split; [apply in_seq; lia|].
  unfold returnOpensAt. rewrite returnRegex_at_regex, Hm.
  by apply bool_decide_eq_true_2.
Qed.

(** C8. For [javascriptreact] and [typescriptreact], a text in which the
    return pattern occurs nowhere is extracted as one region, the whole
    text at offset 0; every language id other than the six the extractor
    names gets the same single region. *)
Theorem whole_text_is_the_fallback_region :
  (∀ content languageId,
     languageId = "javascriptreact" ∨ languageId = "typescriptreact" ->
     hasReturnOpening content = false ->
     extractMarkupRegions content languageId = Ret [mkRegion content 0])
  ∧ (∀ content languageId,
       languageId ∉ ["html"; "javascriptreact"; "typescriptreact"; "vue";
                     "svelte"; "html-angular"] ->
       extractMarkupRegions content languageId = Ret [mkRegion content 0]).
Proof.
  split.
  - intros content languageId [-> | ->] Hno; unfold extractMarkupRegions;
      repeat (rewrite decide_False by discriminate);
      rewrite decide_True by done; by apply extractJsxRegions_no_return.
  - intros content languageId Hnot. unfold extractMarkupRegions.
    repeat (rewrite decide_False; [|intros ->; apply Hnot; set_solver]).
    done.
Qed.

Lemma whole_text_is_the_fallback_region_witness :
  extractMarkupRegions (units "const App = () => <ul><div></div></ul>;")
    "typescriptreact"
  = Ret [mkRegion (units "const App = () => <ul><div></div></ul>;") 0]
  ∧ extractMarkupRegions (units "<ul><div></div></ul>") "markdown"
    = Ret [mkRegion (units "<ul><div></div></ul>") 0].
Proof.
  split.
  - apply (proj1 whole_text_is_the_fallback_region);
      [right; reflexivity | vm_compute; exact eq_refl].
  - apply (proj2 whole_text_is_the_fallback_region).
    apply (bool_decide_unpack _). vm_compute. exact I.
Defined.

Lemma sameCi_spec p s :
  sameCi p s = true -> length s = length p ∧ startsWithCi p s = true.
Proof. intros [Hlen Hs]%andb_prop. by apply Nat.eqb_eq in Hlen. Qed.

Lemma noOccurrenceCi_spec p s n k :
  noOccurrenceCi p s n = true -> k < n -> startsWithCi p (drop k s) = false.
Proof.
  intros Hno Hk. unfold noOccurrenceCi in Hno.
  apply negb_true_iff, (proj1 (forallb_forall _ _) Hno k), in_seq. lia.
Qed.

(** An occurrence that is ruled out in [s] is ruled out in [s ++ t] as long
    as it would lie inside [s]. *)
Lemma noOccurrenceCi_app p s t n k :
  noOccurrenceCi p s n = true -> k < n -> k + length p ≤ length s ->
  startsWithCi p (drop k (s ++ t)) = false.
Proof.
  intros Hno Hk Hlen. rewrite drop_app_le by lia.
  rewrite startsWithCi_short by (rewrite length_drop; lia).
  by eapply noOccurrenceCi_spec.
Qed.

Lemma sameCi_no_gt p s :
  Forall (fun x => canon x ≠ 62%N) p -> sameCi p s = true ->
  Forall (fun c => c ≠ 62%N) s.
Proof.
  intros Hp [Hlen Hs]%sameCi_spec.
  pose proof (startsWithCi_canon _ _ Hs Hlen) as H2. clear Hs Hlen.
  induction H2 as [|x c p' s' Hxc _ IH]; [constructor|].
  apply Forall_cons in Hp as [Hx Hp]. constructor; [|by apply IH].
  intros ->. by rewrite Hxc in Hx.
Qed.

(** The template pattern on a block: an opening tag up to its first [>],
    the inner text up to the first closing tag, the closing tag. *)
Lemma templateRegex_at_block prev o attrs inner c post :
  sameCi (units "<template") o = true ->
  forallb notGt attrs = true ->
  sameCi (units "</template>") c = true ->
  noOccurrenceCi (units "</template>") (inner ++ c) (length inner) = true ->
  templateRegex_at prev (o ++ attrs ++ [62%N] ++ inner ++ c ++ post)
  = Some (mkMatch (o ++ attrs ++ [62%N] ++ inner ++ c) [Some inner]).
Proof.
  intros [Hlo Ho]%sameCi_spec Hattrs [Hlc Hc]%sameCi_spec Hinner.
  change (length (units "<template")) with 9 in Hlo.
  change (length (units "</template>")) with 11 in Hlc.
  unfold templateRegex_at.
  rewrite startsWithCi_short by (rewrite Hlo; done). rewrite Ho.
  rewrite (drop_app_length' o) by done. rewrite (take_app_length' o) by done.
  assert (Forall (fun d => notGt d = true) attrs) as Hall.
  { apply Forall_forall. intros d Hd%list_elem_of_In.
    by apply (proj1 (forallb_forall _ _) Hattrs). }
  destruct (takeWhile_app_stop notGt attrs 62%N (inner ++ c ++ post) Hall eq_refl)
    as [Htake Hdrop].
  simpl. rewrite Hdrop, Htake.
  rewrite (lazyUntilCi_first _ inner (c ++ post)).
  - rewrite drop_app_length. rewrite (take_app_length' c) by done. done.
  - intros k Hk. rewrite app_assoc.
    eapply noOccurrenceCi_app; [done..|].
    rewrite length_app. change (length (units "</template>")) with 11. lia.
  - rewrite startsWithCi_short by (rewrite Hlc; done). done.
Qed.

Lemma templateRegex_at_no_opening prev s :
  startsWithCi (units "<template") s = false -> templateRegex_at prev s = None.
Proof. intros H. unfold templateRegex_at. by rewrite H. Qed.

Lemma extractTemplateRegion_block pre o attrs inner c post :
  sameCi (units "<template") o = true ->
  forallb notGt attrs = true ->
  sameCi (units "</template>") c = true ->
  noOccurrenceCi (units "<template") (pre ++ o) (length pre) = true ->
  noOccurrenceCi (units "</template>") (inner ++ c) (length inner) = true ->
  extractTemplateRegion (pre ++ o ++ attrs ++ [62%N] ++ inner ++ c ++ post)
  = [mkRegion inner (length pre + length o + length attrs + 1)].
Proof.
  intros Ho Hattrs Hc Hpre Hinner. unfold extractTemplateRegion.
  rewrite regexExec_template.
  rewrite (exec_first _ pre _
             (mkMatch (o ++ attrs ++ [62%N] ++ inner ++ c) [Some inner])).
  - simpl. rewrite (app_assoc o attrs).
    rewrite indexOf_app_stop.
    + rewrite length_app. do 2 f_equal. lia.
    + apply Forall_app. split.
      * eapply sameCi_no_gt; [|exact Ho].
        apply (bool_decide_unpack _). vm_compute. exact I.
      * apply Forall_forall. intros d Hd%list_elem_of_In.
        apply (proj1 (forallb_forall _ _) Hattrs) in Hd.
        intros ->. done.
  - intros k Hk. apply templateRegex_at_no_opening.
    rewrite app_assoc. eapply noOccurrenceCi_app; [done..|].
    rewrite length_app. apply sameCi_spec in Ho as [-> _]. lia.
  - by apply templateRegex_at_block.
Qed.

Lemma noOccurrenceCi_intro p s t n :
  length s = n + length p ->
  (∀ k, k < n -> startsWithCi p (drop k (s ++ t)) = false) ->
  noOccurrenceCi p s n = true.
Proof.
  intros Hlen Hno. apply forallb_forall. intros k [_ Hk]%in_seq.
  apply negb_true_iff. rewrite <- (Hno k) by lia.
  rewrite drop_app_le by lia.
  by rewrite startsWithCi_short by (rewrite length_drop; lia).
Qed.

Lemma split_at_length n (s : list N) :
  n ≤ length s -> ∃ a b, s = a ++ b ∧ length a = n.
Proof.
  intros Hn. exists (take n s), (drop n s).
  split; [by rewrite take_drop | rewrite length_take; lia].
Qed.

(** Every text that holds a template block splits at its first block. *)
Lemma template_block_splits content :
  containsTemplateBlock content ->
  ∃ pre o attrs inner c post,
    content = pre ++ o ++ attrs ++ [62%N] ++ inner ++ c ++ post
    ∧ firstTemplateBlock pre o attrs inner c.
Proof.
  intros (p0 & g0 & q0 & Hopen & Hpg & Hgt & Hgq & Hclose).
  destruct (lazyUntilCi_occurs _ content p0 Hopen)
    as (pre & rest1 & _ & -> & Hpre & Hrest1 & Hfirst1).
  pose proof (startsWithCi_length _ _ Hrest1) as Hl1.
  change (length (units "<template")) with 9 in Hl1.
  destruct (split_at_length 9 rest1 Hl1) as (o & rest2 & -> & Hlo).
  rewrite !lookup_app_r in Hgt by (rewrite ?Hlo; lia). rewrite Hlo in Hgt.
  destruct (dropWhile_occurs notGt rest2 _ _ Hgt eq_refl)
    as (d & rest3 & Hdrop & Hd & Hattrs).
  apply notGt_false in Hd as ->.
  pose proof (takeWhile_dropWhile notGt rest2) as Hsplit2.
  pose proof (takeWhile_all notGt rest2) as Hall.
  rewrite Hdrop in Hsplit2. set (attrs := takeWhile notGt rest2) in *.
  clearbody attrs. subst rest2. clear Hdrop Hgt.
  change (62%N :: rest3) with ([62%N] ++ rest3) in *.
  rewrite !drop_app_ge in Hclose by (rewrite ?length_drop, ?Hlo; simpl; lia).
  destruct (lazyUntilCi_occurs _ rest3 _ Hclose)
    as (inner & rest4 & _ & -> & _ & Hrest4 & Hfirst2).
  pose proof (startsWithCi_length _ _ Hrest4) as Hl4.
  change (length (units "</template>")) with 11 in Hl4.
  destruct (split_at_length 11 rest4 Hl4) as (c & post & -> & Hlc).
  exists pre, o, attrs, inner, c, post. split; [done|].
  unfold firstTemplateBlock, sameCi. rewrite Hlo, Hlc.
  rewrite startsWithCi_short in Hrest1 by (by rewrite Hlo).
  rewrite startsWithCi_short in Hrest4 by (by rewrite Hlc).
  rewrite Hrest1, Hrest4. repeat split.
  - apply forallb_forall. intros x Hx%list_elem_of_In.
    by apply (proj1 (Forall_forall _ _) Hall).
  - apply (noOccurrenceCi_intro _ _ (attrs ++ [62%N] ++ inner ++ c ++ post)).
    + rewrite length_app, Hlo. done.
    + intros k Hk. rewrite <- app_assoc. by apply Hfirst1.
  - apply (noOccurrenceCi_intro _ _ post).
    + rewrite length_app, Hlc. done.
    + intros k Hk. rewrite <- app_assoc. by apply Hfirst2.
Qed.

Lemma extractMarkupRegions_template pre o attrs inner c post languageId :
  languageId = "vue" ∨ languageId = "svelte" ->
  firstTemplateBlock pre o attrs inner c ->
  extractMarkupRegions (pre ++ o ++ attrs ++ [62%N] ++ inner ++ c ++ post)
    languageId
  = Ret [mkRegion inner (length (pre ++ o ++ attrs ++ [62%N]))].
Proof.
  intros Hlang (Ho & Hattrs & Hc & Hpre & Hinner).
  pose proof (extractTemplateRegion_block pre o attrs inner c post
                Ho Hattrs Hc Hpre Hinner) as Hext.
  replace (length pre + length o + length attrs + 1)
    with (length (pre ++ o ++ attrs ++ [62%N])) in Hext
    by (rewrite !length_app; simpl; lia).
  unfold extractMarkupRegions.
  destruct Hlang as [-> | ->];
    repeat (rewrite decide_False by discriminate);
    rewrite decide_True by done; by rewrite Hext.
Qed.

(** The violations of a document with a single region. *)
Lemma analyzeDocument_single_region rules content languageId region :
  extractMarkupRegions content languageId = Ret [region] ->
  ∃ tokens errors,
    tokenizeTags (text region) = Ret tokens
    ∧ findNestingErrors rules tokens = Ret errors
    ∧ analyzeDocument rules content languageId
      = Ret (map (fun err =>
                    mkViolation err (err_offset err + baseOffset region))
               errors).
Proof.
  intros Hregions.
  destruct (tokenizeTags_returns (text region)) as [tokens Htokens].
  destruct (findNestingErrors_returns rules tokens) as [errors Herrors].
  exists tokens, errors. split; [done|]. split; [done|].
  unfold analyzeDocument. rewrite Hregions. simpl.
  unfold analyzeRegion. rewrite Htokens. simpl. rewrite Herrors. done.
Qed.

(** C7. For [vue] and [svelte], take a text split at its first template
    block: an opening [<template] (up to case, the first in the text), any
    characters but [>], a [>], the inner text, and a closing [</template>]
    (up to case, the first after that [>]).  It is extracted as exactly one
    region, the inner text, whose base offset is the index of the character
    right after the opening tag's [>]; [analyzeDocument] reports the errors
    found in the inner text, each with [absoluteOffset] equal to its offset
    in the region plus that base offset.  Every text that holds a template
    block splits in this way. *)
Theorem template_block_is_the_region :
  (∀ pre o attrs inner c post languageId,
     languageId = "vue" ∨ languageId = "svelte" ->
     firstTemplateBlock pre o attrs inner c ->
     let content := pre ++ o ++ attrs ++ [62%N] ++ inner ++ c ++ post in
     let base := length (pre ++ o ++ attrs ++ [62%N]) in
     extractMarkupRegions content languageId = Ret [mkRegion inner base]
     ∧ ∀ rules, ∃ tokens errors,
         tokenizeTags inner = Ret tokens
         ∧ findNestingErrors rules tokens = Ret errors
         ∧ analyzeDocument rules content languageId
           = Ret (map (fun err => mkViolation err (err_offset err + base))
                    errors))
  ∧ (∀ content,
       containsTemplateBlock content ->
       ∃ pre o attrs inner c post,
         content = pre ++ o ++ attrs ++ [62%N] ++ inner ++ c ++ post
         ∧ firstTemplateBlock pre o attrs inner c).
Proof.
  split; [|exact template_block_splits].
  intros pre o attrs inner c post languageId Hlang Hblock content base.
  pose proof (extractMarkupRegions_template pre o attrs inner c post
                languageId Hlang Hblock) as Hregions.
  split; [exact Hregions|]. intros rules.
  exact (analyzeDocument_single_region rules _ _ _ Hregions).
Qed.

Lemma template_block_is_the_region_witness :
  extractMarkupRegions
    (units "<script>let a</script><Template lang='pug'><form><form></form></form></TEMPLATE><style></style>")
    "vue"
  = Ret [mkRegion (units "<form><form></form></form>") 43]
  ∧ ∃ pre o attrs inner c post,
      units "<p><template><b></template>"
      = pre ++ o ++ attrs ++ [62%N] ++ inner ++ c ++ post
      ∧ firstTemplateBlock pre o attrs inner c.
Proof.
  split.
  - apply (proj1 template_block_is_the_region
             (units "<script>let a</script>") (units "<Template")
             (units " lang='pug'") (units "<form><form></form></form>")
             (units "</TEMPLATE>") (units "<style></style>") "vue");
      [by left | repeat split; vm_compute; exact eq_refl].
  - apply (proj2 template_block_is_the_region).
    exists 3, 12, 16. repeat split; try (vm_compute; exact eq_refl); lia.
Defined.

(** * Further properties of the rule catalog *)

Section GeneratedRules.
Implicit Types (allowed : gset string) (tags : list string).

Lemma generateRules_fold parent allowed reason alts refs tags acc :
  fold_left
    (fun rules child =>
       if negb (has allowed child)
       then rules ++ [makeRule parent child reason alts refs]
       else rules)
    tags acc
  = acc ++ map (fun child => makeRule parent child reason alts refs)
             (List.filter (fun child => negb (has allowed child)) tags).
Proof.
  revert acc. induction tags as [|tag tags IH]; intros acc; simpl.
  - by rewrite app_nil_r.
  - rewrite IH. destruct (negb (has allowed tag)); simpl; [|done].
    by rewrite <- app_assoc.
Qed.

Lemma generateRules_members parent allowed reason alts refs tags rule :
  rule ∈ map (fun tag => makeRule parent tag reason alts refs)
         (List.filter (fun tag => negb (has allowed tag)) tags)
  ↔ ∃ tag, tag ∈ tags ∧ (tag ∉ allowed)
           ∧ rule = mkRule parent tag reason alts refs.
Proof.
  split.
  - intros (tag & <- & Hin)%list_elem_of_In%in_map_iff.
    apply filter_In in Hin as [Hin Hno]. exists tag.
    split; [by apply list_elem_of_In|]. split; [|done].
    by apply negb_true_iff, bool_decide_eq_false_1 in Hno.
  - intros (tag & Hin & Hno & ->). apply list_elem_of_In, in_map_iff.
    exists tag. split; [done|]. apply filter_In.
    split; [by apply list_elem_of_In|].
    apply negb_true_iff. by apply bool_decide_eq_false_2.
Qed.

Lemma generateRules_children parent allowed reason alts refs tags :
  map child (map (fun tag => makeRule parent tag reason alts refs)
               (List.filter (fun tag => negb (has allowed tag)) tags))
  = List.filter (fun tag => negb (has allowed tag)) tags.
Proof. rewrite map_map. apply map_id. Qed.

Lemma ALL_HTML_TAGS_NoDup : NoDup ALL_HTML_TAGS.
Proof. apply (bool_decide_unpack _). vm_compute. exact I. Qed.

(** X1. [generateRulesForAllowedChildren] emits a rule for a child exactly
    when the child is a catalog tag outside the allowed set; every rule has
    the given parent, reason, alternatives and references, and the rules
    come in catalog order, one per child. *)
Theorem generated_rules_are_the_disallowed_children
    parent allowed reason alts refs :
  (∀ rule,
     rule ∈ generateRulesForAllowedChildren parent allowed reason alts refs
     ↔ ∃ tag, tag ∈ ALL_HTML_TAGS ∧ (tag ∉ allowed)
              ∧ rule = mkRule parent tag reason alts refs)
  ∧ map child (generateRulesForAllowedChildren parent allowed reason alts refs)
    = List.filter (fun tag => negb (has allowed tag)) ALL_HTML_TAGS
  ∧ NoDup (map child
             (generateRulesForAllowedChildren parent allowed reason alts refs)).
Proof.
  unfold generateRulesForAllowedChildren. rewrite generateRules_fold.
  cbn [app]. split; [|split].
  - intros rule. apply generateRules_members.
  - apply generateRules_children.
  - rewrite generateRules_children.
    apply NoDup_ListNoDup, List.NoDup_filter, NoDup_ListNoDup, ALL_HTML_TAGS_NoDup.
Qed.
End GeneratedRules.

Section IndexLookup.
Implicit Types (rules : list NestingRule) (rule : NestingRule).

(** X2. Looking a key up in the index built from a rule list gives the
    last rule of the list with that key, and nothing when no rule of the
    list has that key. *)
Theorem buildRulesMap_lookup_last rules key :
  buildRulesMap rules !! key = last (filter (fun r => keyOf r = key) rules)
  ∧ (buildRulesMap rules !! key = None ↔ ∀ r, r ∈ rules -> keyOf r ≠ key).
Proof.
  assert (buildRulesMap rules !! key
          = last (filter (fun r => keyOf r = key) rules)) as Hlast.
  { induction rules as [|r rules IH] using rev_ind.
    - unfold buildRulesMap. simpl. by rewrite lookup_empty.
    - rewrite buildRulesMap_snoc, filter_app. unfold setRule.
      destruct (decide (keyOf r = key)) as [Hkey|Hkey].
      + rewrite Hkey, lookup_insert_eq.
        rewrite filter_cons_True by done. rewrite filter_nil.
        by rewrite last_snoc.
      + rewrite lookup_insert_ne by done.
        rewrite filter_cons_False by done. rewrite filter_nil.
        by rewrite app_nil_r. }
  split; [exact Hlast|]. rewrite Hlast, last_None. split.
  - intros Hnil r Hr Hkey.
    assert (r ∈ filter (fun r => keyOf r = key) rules) as Hin
      by (by apply list_elem_of_filter).
    rewrite Hnil in Hin. by apply elem_of_nil in Hin.
  - intros Hno.
    destruct (filter (fun r => keyOf r = key) rules) as [|r l] eqn:Hf; [done|].
    assert (r ∈ filter (fun r => keyOf r = key) rules) as Hin
      by (rewrite Hf; apply list_elem_of_here).
    apply list_elem_of_filter in Hin as [Hkey Hin]. by destruct (Hno r Hin).
Qed.

(** X3. When the rules of a list have pairwise distinct keys, the index
    stores each of them under its own key and holds exactly as many
    entries as the list has rules. *)
Theorem buildRulesMap_distinct_keys rules :
  NoDup (map keyOf rules) ->
  (∀ rule, rule ∈ rules -> buildRulesMap rules !! keyOf rule = Some rule)
  ∧ size (buildRulesMap rules) = length rules.
Proof.
  induction rules as [|r rules IH] using rev_ind; intros Hnodup.
  - split; [by intros rule Hin%elem_of_nil|]. unfold buildRulesMap. simpl.
    apply map_size_empty.
  - rewrite map_app in Hnodup. apply NoDup_app in Hnodup as (Hrules & Hfresh & _).
    destruct (IH Hrules) as [IHlookup IHsize].
    assert (buildRulesMap rules !! keyOf r = None) as Hnone.
    { apply buildRulesMap_lookup_last. intros r' Hr' Hkey.
      apply (Hfresh (keyOf r)); [|simpl; by left].
      rewrite <- Hkey. apply list_elem_of_In, in_map, list_elem_of_In, Hr'. }
    rewrite buildRulesMap_snoc. unfold setRule. split.
    + intros rule [Hin|Hin%list_elem_of_singleton]%elem_of_app.
      * rewrite lookup_insert_ne; [by apply IHlookup|].
        intros Hkey. rewrite Hkey, (IHlookup _ Hin) in Hnone. done.
      * subst rule. apply lookup_insert_eq.
    + rewrite map_size_insert_None by done. rewrite length_app. simpl. lia.
Qed.
End IndexLookup.

(** X3 at the rules of the checked-in build. *)
Lemma buildRulesMap_distinct_keys_witness :
  Forall (fun rule => RULES_MAP_build !! keyOf rule = Some rule) NESTING_RULES
  ∧ size RULES_MAP_build = length NESTING_RULES.
Proof.
  unfold RULES_MAP_build.
  destruct (buildRulesMap_distinct_keys NESTING_RULES) as [Hlookup Hsize].
  - apply (bool_decide_unpack _). vm_compute. exact I.
  - split; [|exact Hsize]. apply Forall_forall. exact Hlookup.
Defined.

(** X4. The catalog filter of [generateAutomaticRules] drops none of the
    2274 pushed rules, and [RULES_MAP] stores every generated rule under
    its own key; it holds 2276 entries, and the explicit rules it still
    stores are the two that no generated rule replaces. *)
Theorem generated_rules_all_stored :
  GENERATED_NESTING_RULES = autoRules
  ∧ length GENERATED_NESTING_RULES = 2274
  ∧ Forall (fun rule => RULES_MAP !! keyOf rule = Some rule)
      GENERATED_NESTING_RULES
  ∧ size RULES_MAP = 2276
  ∧ List.filter (fun rule => bool_decide (RULES_MAP !! keyOf rule = Some rule))
      NESTING_RULES
    = List.filter
        (fun rule => bool_decide (generatedRule (parent rule) (child rule) = None))
        NESTING_RULES
  ∧ map keyOf
      (List.filter
         (fun rule => bool_decide (generatedRule (parent rule) (child rule) = None))
         NESTING_RULES)
    = ["figcaption::figcaption"; "caption::table"].
Proof.
  split; [vm_compute; exact eq_refl|]. split; [vm_compute; exact eq_refl|].
  split; [apply (bool_decide_unpack _); vm_compute; exact I|].
  split; [vm_compute; exact eq_refl|].
  split; vm_compute; exact eq_refl.
Qed.

Lemma ruleKey_inj P C P' C' :
  colonFree P = true -> colonFree P' = true ->
  ruleKey P C = ruleKey P' C' -> P = P' ∧ C = C'.
Proof.
  unfold colonFree. revert P'.
  induction P as [|a P IH]; intros [|a' P'] HP HP' Hkey.
  - change (String ":" (String ":" C) = String ":" (String ":" C')) in Hkey.
    by injection Hkey as ->.
  - change (String ":" (String ":" C) = String a' (ruleKey P' C')) in Hkey.
    injection Hkey as <- _. by vm_compute in HP'.
  - change (String a (ruleKey P C) = String ":" (String ":" C')) in Hkey.
    injection Hkey as -> _. by vm_compute in HP.
  - change (String a (ruleKey P C) = String a' (ruleKey P' C')) in Hkey.
    injection Hkey as -> Hkey. simpl in HP, HP'.
    apply andb_prop in HP as [_ HP], HP' as [_ HP'].
    destruct (IH P' HP HP' Hkey) as [-> ->]. done.
Qed.

(** X5. For names without [:], two pairs have the same key exactly when
    they are the same pair: the key [parent::child] identifies the pair. *)
Theorem ruleKey_identifies_pair P C P' C' :
  colonFree P = true -> colonFree P' = true ->
  (ruleKey P C = ruleKey P' C' ↔ P = P' ∧ C = C').
Proof.
  intros HP HP'. split; [by apply ruleKey_inj|]. by intros [-> ->].
Qed.

Lemma ruleKey_identifies_pair_witness :
  ruleKey "p" "div" = ruleKey "p" "div" ↔ "p" = "p" ∧ "div" = "div".
Proof.
  apply (ruleKey_identifies_pair "p" "div" "p" "div"); vm_compute; exact eq_refl.
Defined.

(** * Further properties of the parser and of the diagnostics *)

(** ** Matches of the tag pattern *)

Lemma bind_Ret {A B} (a : A) (k : A -> outcome B) : mbind k (Ret a) = k a.
Proof. done. Qed.

Lemma searchFrom_at matchAt prev s i index m :
  searchFrom matchAt prev s i = Some (index, m) ->
  i ≤ index ∧ index - i ≤ length s
  ∧ matchAt (prevAt prev s (index - i)) (drop (index - i) s) = Some m
  ∧ ∀ k, k < index - i -> matchAt (prevAt prev s k) (drop k s) = None.
Proof.
  revert prev i. induction s as [|c s IH]; intros prev i; simpl.
  - destruct (matchAt prev []) eqn:Hm; [|done]. intros [= <- <-].
    rewrite Nat.sub_diag. simpl. repeat split; [lia..|done|lia].
  - destruct (matchAt prev (c :: s)) eqn:Hm.
    + intros [= <- <-]. rewrite Nat.sub_diag. simpl. repeat split; [lia..|done|lia].
    + intros (Hle & Hlen & Hat & Hbefore)%IH.
      replace (index - i) with (S (index - S i)) by lia.
      repeat split; [lia|simpl; lia|by rewrite prevAt_cons|].
      intros [|k] Hk; [done|]. rewrite prevAt_cons. simpl. apply Hbefore. lia.
Qed.

Lemma prevAt_drop text i k :
  i ≤ length text ->
  prevAt (prevAt None text i) (drop i text) k = prevAt None text (i + k).
Proof.
  intros Hi. destruct k as [|k]; simpl; [by rewrite Nat.add_0_r|].
  rewrite lookup_drop. by replace (i + S k) with (S (i + k)) by lia.
Qed.

(** [exec] returns the leftmost position from [lastIndex] on at which the
    pattern matches, with the match there. *)
Lemma exec_at matchAt text lastIndex index m :
  exec matchAt text lastIndex = Some (index, m) ->
  lastIndex ≤ index ∧ index ≤ length text
  ∧ matchAt (prevAt None text index) (drop index text) = Some m
  ∧ ∀ k, lastIndex ≤ k -> k < index ->
      matchAt (prevAt None text k) (drop k text) = None.
Proof.
  unfold exec. case_decide as Hle; [|done].
  change (match lastIndex with 0 => None | S k => text !! k end)
    with (prevAt None text lastIndex).
  intros (Hlo & Hhi & Hat & Hbefore)%searchFrom_at.
  rewrite length_drop in Hhi.
  rewrite prevAt_drop, drop_drop in Hat by done.
  replace (lastIndex + (index - lastIndex)) with index in Hat by lia.
  repeat split; [lia..|done|].
  intros k Hk1 Hk2. specialize (Hbefore (k - lastIndex)).
  rewrite prevAt_drop, drop_drop in Hbefore by done.
  replace (lastIndex + (k - lastIndex)) with k in Hbefore by lia.
  apply Hbefore. lia.
Qed.

Lemma tagRegex_at_shape prev s m :
  tagRegex_at prev s = Some m -> tagShape m ∧ ∃ rest, s = m_full m ++ rest.
Proof.
  unfold tagRegex_at. destruct s as [|lt r]; [done|].
  destruct (lt =? 60)%N eqn:Hlt; [|done]. apply N.eqb_eq in Hlt as ->.
  pose proof (optionalUnit_app 47 r) as Hr.
  assert (Hslash : (optionalUnit 47 r).1 = [] ∨ (optionalUnit 47 r).1 = [47%N]).
  { unfold optionalUnit. destruct r as [|d r']; [by left|].
    destruct (d =? 47)%N eqn:Hd; [|by left]. apply N.eqb_eq in Hd as ->. by right. }
  destruct (optionalUnit 47 r) as [slash r1]. simpl in Hr, Hslash.
  destruct r1 as [|c r2]; [done|].
  destruct (isLetter c) eqn:Hc; [|done].
  destruct (dropWhile notGt (dropWhile isNameChar r2)) as [|gt tl] eqn:Hd; [done|].
  intros [= <-]. simpl.
  pose proof (dropWhile_head _ _ _ _ Hd) as ->%notGt_false.
  split.
  - exists slash, (c :: takeWhile isNameChar r2),
      (takeWhile notGt (dropWhile isNameChar r2)).
    split; [done|]. split; [done|].
    split; [exists c, (takeWhile isNameChar r2); split; [done|];
            split; [done|apply takeWhile_all]|].
    split; [apply takeWhile_all|done].
  - exists tl.
    pose proof (takeWhile_dropWhile isNameChar r2) as H1.
    pose proof (takeWhile_dropWhile notGt (dropWhile isNameChar r2)) as H2.
    rewrite Hd in H2. rewrite <- Hr. rewrite <- H1 at 1. rewrite <- H2 at 1.
    simpl. rewrite <- !app_assoc. simpl. by rewrite <- !app_assoc.
Qed.

Lemma take_app_prefix {A} (l rest : list A) : take (length l) (l ++ rest) = l.
Proof. by rewrite take_app_length. Qed.

(** The matches of the tag pattern lie in the text, in order. *)
Lemma tagMatches_matchesIn fuel text lastIndex ms :
  tagMatches fuel text lastIndex = Ret ms -> matchesIn text lastIndex ms.
Proof.
  revert lastIndex ms. induction fuel as [|fuel IH]; intros lastIndex ms; [done|].
  simpl. rewrite regexExec_tag.
  destruct (exec tagRegex_at text lastIndex) as [[index m]|] eqn:He;
    [|by intros [= <-]].
  destruct (tagMatches fuel text (index + length (m_full m))) as [ms'| |] eqn:Hms;
    simpl; [|done..].
  intros [= <-]. simpl.
  apply exec_at in He as (Hlo & _ & Hat & _).
  apply tagRegex_at_shape in Hat as [Hshape [rest Hrest]].
  split; [done|]. split; [by rewrite Hrest, take_app_length|].
  split; [done|]. by apply IH.
Qed.

(** ** Token types *)

Ltac classes :=
  unfold isLowerNameChar, isNameChar, isLetter, isUpper, isLower, isDigit,
    lowerUnit, notGt, between in *;
  repeat match goal with
  | H : _ || _ = true |- _ => apply orb_prop in H as [H|H]
  | H : _ && _ = true |- _ => apply andb_prop in H as [? ?]
  | H : (_ <=? _)%N = true |- _ => apply N.leb_le in H
  | H : (_ =? _)%N = true |- _ => apply N.eqb_eq in H
  end.

Lemma isNameChar_byte d : isNameChar d = true -> (d < 256)%N ∧ d ≠ 47%N ∧ d ≠ 58%N ∧ d ≠ 62%N.
Proof. intros H. classes; lia. Qed.

Lemma isLetter_isNameChar c : isLetter c = true -> isNameChar c = true.
Proof. unfold isNameChar. by intros ->. Qed.

Lemma lowerUnit_nameChar d :
  isNameChar d = true -> isLowerNameChar (lowerUnit d) = true.
Proof.
  intros H. unfold isLowerNameChar, lowerUnit.
  destruct (isUpper d) eqn:Hu.
  - assert (isLower (d + 32) = true) as ->; [|done].
    unfold isUpper, isLower, between in *. apply andb_prop in Hu as [H1 H2].
    apply N.leb_le in H1, H2. apply andb_true_intro.
    split; apply N.leb_le; lia.
  - unfold isNameChar, isLetter in H. rewrite Hu in H. exact H.
Qed.

Lemma lowerUnit_letter c : isLetter c = true -> isLower (lowerUnit c) = true.
Proof.
  intros H. unfold lowerUnit. destruct (isUpper c) eqn:Hu.
  - unfold isUpper, isLower, between in *. apply andb_prop in Hu as [H1 H2].
    apply N.leb_le in H1, H2. apply andb_true_intro.
    split; apply N.leb_le; lia.
  - unfold isLetter in H. by rewrite Hu in H.
Qed.

Lemma isLowerNameChar_byte d :
  isLowerNameChar d = true -> (d < 256)%N ∧ d ≠ 58%N.
Proof. intros H. classes; lia. Qed.

Lemma units_nameOf l : Forall (fun d => (d < 256)%N) l -> units (nameOf l) = l.
Proof.
  unfold units, nameOf. rewrite String.list_ascii_of_string_of_list_ascii.
  induction 1 as [|d l Hd _ IH]; simpl; [done|].
  by rewrite N_ascii_embedding, IH.
Qed.

Lemma tagShape_isClose slash raw body :
  rawName raw -> (slash = [] ∨ slash = [47%N]) ->
  startsWith (units "</") (60%N :: slash ++ raw ++ body ++ [62%N])
  = bool_decide (slash = [47%N]).
Proof.
  intros (c & run & -> & Hc & _) [-> | ->]; [|done].
  apply isLetter_isNameChar, isNameChar_byte in Hc as (_ & Hc & _).
  change (units "</") with [60%N; 47%N].
  change (((60 =? 60)%N && ((47 =? c)%N && true)) = false).
  by destruct (N.eqb_spec 47 c) as [<-|].
Qed.

(** What the loop body pushes for a match of the tag pattern. *)
Lemma tokenizeStep_pushed index m skipUntil skipUntil' t :
  tagShape m ->
  tokenizeStep index m skipUntil = Ret (skipUntil', Some t) ->
  ∃ slash raw body,
    m_full m = 60%N :: slash ++ raw ++ body ++ [62%N]
    ∧ (slash = [] ∨ slash = [47%N])
    ∧ rawName raw
    ∧ Forall (fun d => notGt d = true) body
    ∧ t = mkToken (tagType (m_full m) (nameOf (toLowerCase raw)))
            (nameOf (toLowerCase raw)) index (length (m_full m))
    ∧ (tok_type t = close ↔ slash = [47%N])
    ∧ (tok_type t ≠ close -> has SKIP_CONTENT_TAGS (tok_name t) = false).
Proof.
  intros (slash & raw & body & Hfull & Hslash & Hraw & Hbody & Hgroups).
  unfold tokenizeStep, group. rewrite Hgroups. cbn [lookup list_lookup Nat.sub].
  change (bool_decide (Some [] = Some (units "/"))) with false.
  rewrite (orb_false_l (endsWith _ _)).
  pose proof (tagShape_isClose slash raw body Hraw Hslash) as Hclose.
  rewrite <- Hfull in Hclose.
  set (name := nameOf (toLowerCase raw)) in *.
  destruct (truthy skipUntil); [by destruct (_ && _)|].
  destruct (negb _ && has SKIP_CONTENT_TAGS name) eqn:Hskip; [done|].
  intros [= <- <-]. exists slash, raw, body.
  do 4 (split; [done|]). unfold tagType. split; [done|]. cbn [tok_type tok_name].
  rewrite Hclose in *. case_bool_decide as Hs.
  - split; [done|]. by intros [].
  - simpl in Hskip. split; [|done].
    split; [by destruct (_ || _)|done].
Qed.

Lemma tokensIn_weaken text lo lo' tokens :
  lo ≤ lo' -> tokensIn text lo' tokens -> tokensIn text lo tokens.
Proof. destruct tokens as [|t tokens]; [done|]. simpl. intros ? (? & ? & ? & ?). repeat split; [lia|done..]. Qed.

Lemma rawName_no_gt raw body :
  rawName raw -> Forall (fun d => notGt d = true) body ->
  Forall (fun d => d ≠ 62%N) (raw ++ body).
Proof.
  intros (c & run & -> & Hc & Hrun) Hbody. apply Forall_app. split.
  - apply isLetter_isNameChar, isNameChar_byte in Hc as (_ & _ & _ & Hc).
    constructor; [exact Hc|].
    eapply Forall_impl; [exact Hrun|].
    intros d Hd. by apply isNameChar_byte in Hd as (_ & _ & _ & Hd).
  - eapply Forall_impl; [exact Hbody|]. intros d Hd. by apply notGt_ne.
Qed.

(** The token pushed for a match that lies in the text covers that tag. *)
Lemma tokenizeStep_tokenAt text index m skipUntil skipUntil' t :
  take (length (m_full m)) (drop index text) = m_full m -> tagShape m ->
  tokenizeStep index m skipUntil = Ret (skipUntil', Some t) ->
  tok_offset t = index ∧ tok_length t = length (m_full m)
  ∧ index + length (m_full m) ≤ length text
  ∧ tokenAt text t ∧ tokenKind text t.
Proof.
  intros Htake Hshape Hstep.
  destruct (tokenizeStep_pushed _ _ _ _ _ Hshape Hstep)
    as (slash & raw & body & Hfull & Hslash & Hraw & Hbody & -> & Hclose & Hskip).
  cbn [tok_offset tok_length tok_name tok_type] in *.
  split; [done|]. split; [done|]. split.
  { pose proof (f_equal length Htake) as Hlen.
    rewrite length_take, length_drop in Hlen.
    pose proof (f_equal length Hfull) as Hpos. simpl in Hpos. lia. }
  split.
  - exists slash, raw, body. cbn [tok_offset tok_length tok_name tok_type].
    rewrite Htake. split; [done|]. split; [by rewrite Hfull|]. split; [done|].
    split; [|split; [done|by apply rawName_no_gt]].
    destruct Hslash as [-> | ->]; [left|right; by split; [|apply Hclose]].
    split; [done|]. by intros ?%Hclose.
  - split; [|done]. cbn [tok_offset tok_length tok_name tok_type].
    by rewrite Htake.
Qed.

(** The loop body folded over matches that lie in the text from [lo] on
    only appends tokens, and these cover tags of the text from [lo] on. *)
Lemma emitTokens_tokensIn text ms :
  ∀ lo skipUntil tokens out,
    matchesIn text lo ms ->
    emitTokens skipUntil tokens ms = Ret out ->
    ∃ new, out = tokens ++ new ∧ tokensIn text lo new
           ∧ Forall (tokenKind text) new.
Proof.
  induction ms as [|[index m] ms IH]; intros lo skipUntil tokens out; simpl.
  - intros _ [= <-]. exists []. by rewrite app_nil_r.
  - intros (Hlo & Htake & Hshape & Hms).
    destruct (tokenizeStep index m skipUntil) as [[skipUntil' pushed]| |] eqn:Hstep;
      simpl; [|done..].
    intros (new & -> & Hnew & Hkind)%(IH _ _ _ _ Hms).
    destruct pushed as [t|]; simpl.
    + destruct (tokenizeStep_tokenAt _ _ _ _ _ _ Htake Hshape Hstep)
        as (Hoff & Hlen & Hin & Hat & Hk).
      exists (t :: new). rewrite <- app_assoc. split; [done|]. simpl.
      rewrite Hoff, Hlen. split; [|by constructor]. done.
    + exists new. rewrite app_nil_r. split; [done|]. split; [|done].
      eapply tokensIn_weaken; [|exact Hnew]. lia.
Qed.

Lemma tokenizeTags_tokensIn text tokens :
  tokenizeTags text = Ret tokens ->
  tokensIn text 0 tokens ∧ Forall (tokenKind text) tokens.
Proof.
  destruct (tokenizeTags_emitTokens text) as (ms & Hms & ->).
  intros Hemit. apply tagMatches_matchesIn in Hms.
  destruct (emitTokens_tokensIn _ _ _ _ _ _ Hms Hemit) as (new & -> & ? & ?).
  done.
Qed.

Lemma tokensIn_Forall text lo tokens :
  tokensIn text lo tokens ->
  Forall (fun t => tok_offset t + tok_length t ≤ length text ∧ tokenAt text t)
    tokens.
Proof.
  revert lo. induction tokens as [|t tokens IH]; intros lo; simpl; [constructor|].
  intros (_ & Hin & Hat & Hrest). constructor; [done|]. by eapply IH.
Qed.

Lemma colonFree_units s :
  Forall (fun d => d ≠ 58%N) (units s) -> colonFree s = true.
Proof.
  unfold units, colonFree.
  induction (String.list_ascii_of_string s) as [|a l IH]; simpl; [done|].
  intros [Ha Hl]%Forall_cons. rewrite (IH Hl), andb_true_r.
  destruct (Ascii.eqb_spec a ":") as [->|]; [by vm_compute in Ha | done].
Qed.

(** The name of a token that covers a tag: a lower-case letter followed by
    lower-case letters, digits and hyphens. *)
Lemma tokenAt_name text t :
  tokenAt text t ->
  ∃ c run, units (tok_name t) = c :: run ∧ isLower c = true
           ∧ Forall (fun d => isLowerNameChar d = true) run.
Proof.
  intros (slash & raw & body & _ & _ & -> & _ & (c & run & -> & Hc & Hrun) & _).
  assert (Hlow : Forall (fun d => isLowerNameChar d = true) (toLowerCase run)).
  { unfold toLowerCase. apply Forall_map. eapply Forall_impl; [exact Hrun|].
    intros d Hd. by apply lowerUnit_nameChar. }
  exists (lowerUnit c), (toLowerCase run).
  split; [|split; [by apply lowerUnit_letter | exact Hlow]].
  apply (units_nameOf (lowerUnit c :: toLowerCase run)). constructor.
  - apply isLetter_isNameChar, lowerUnit_nameChar, isLowerNameChar_byte in Hc.
    tauto.
  - eapply Forall_impl; [exact Hlow|]. intros d Hd.
    apply isLowerNameChar_byte in Hd. tauto.
Qed.

Lemma tokenAt_colonFree text t : tokenAt text t -> colonFree (tok_name t) = true.
Proof.
  intros (c & run & Hname & Hc & Hrun)%tokenAt_name.
  apply colonFree_units. rewrite Hname. constructor.
  - assert (isLowerNameChar c = true) as H%isLowerNameChar_byte; [|tauto].
    unfold isLowerNameChar. by rewrite Hc.
  - eapply Forall_impl; [exact Hrun|]. intros d Hd.
    apply isLowerNameChar_byte in Hd. tauto.
Qed.

Lemma tagRegex_at_brackets prev s m :
  tagRegex_at prev s = Some m -> 60%N ∈ s ∧ 62%N ∈ s.
Proof.
  intros (slash & name & body & rest & -> & -> & _)%tagRegex_at_Some.
  split; [set_solver|]. rewrite !elem_of_app, !elem_of_cons, !elem_of_app.
  left. right. right. right. set_solver.
Qed.

Lemma tokenizeTags_no_bracket text :
  60%N ∉ text ∨ 62%N ∉ text -> tokenizeTags text = Ret [].
Proof.
  intros Hno. unfold tokenizeTags. simpl. rewrite regexExec_tag.
  rewrite exec_None; [done|].
  intros k _. destruct (tagRegex_at (prevAt None text k) (drop k text)) as [m|] eqn:Hm;
    [|done].
  apply tagRegex_at_brackets in Hm as [H60 H62].
  apply (subseteq_drop k text) in H60, H62. tauto.
Qed.

(** ** Regions *)

Lemma indexOf_Some c s k :
  indexOf c s = Some k -> s !! k = Some c ∧ Forall (fun d => d ≠ c) (take k s).
Proof.
  revert k. induction s as [|d s IH]; intros k; simpl; [done|].
  destruct (N.eqb_spec d c) as [->|Hd].
  - intros [= <-]. split; [done|constructor].
  - destruct (indexOf c s) as [j|]; [|done]. intros [= <-].
    destruct (IH j eq_refl) as [Hj Hbefore]. split; [done|]. simpl.
    by constructor.
Qed.

Lemma take_length_take {A} n (l : list A) : take (length (take n l)) l = take n l.
Proof.
  rewrite length_take. destruct (Nat.min_spec n (length l)) as [[_ ->] | [Hle ->]];
    [done|]. by rewrite !take_ge by lia.
Qed.

Lemma regionIn_whole content : regionIn content (mkRegion content 0).
Proof. split; simpl; [lia|]. by rewrite drop_0, firstn_all. Qed.

Lemma regionIn_slice content a b :
  a ≤ length content -> regionIn content (mkRegion (slice content a b) a).
Proof.
  intros Ha. unfold slice. split; simpl; [|apply take_length_take].
  rewrite length_take, length_drop. lia.
Qed.

(** The regions the [return] loop pushes are slices of the content that
    start at a [<]. *)
Lemma jsxLoop_regions fuel content lastIndex regions out :
  jsxLoop fuel content lastIndex regions = Ret out ->
  ∃ new, out = regions ++ new
         ∧ Forall (fun region => regionIn content region
                                 ∧ content !! baseOffset region = Some 60%N) new.
Proof.
  revert lastIndex regions.
  induction fuel as [|fuel IH]; intros lastIndex regions; [done|].
  simpl. rewrite regexExec_return.
  destruct (exec returnRegex_at content lastIndex) as [[index m]|] eqn:He.
  2:{ intros [= <-]. exists []. by rewrite app_nil_r. }
  destruct (indexOfFrom 60 content (index + length (m_full m))) as [ltIdx|] eqn:Hlt.
  - intros (new & -> & Hnew)%IH. eexists (_ :: new).
    rewrite <- app_assoc. split; [done|]. constructor; [|done].
    unfold indexOfFrom in Hlt.
    destruct (indexOf 60 (drop (index + length (m_full m)) content)) as [k|] eqn:Hk;
      [|done].
    injection Hlt as <-. apply indexOf_Some in Hk as [Hk _].
    rewrite lookup_drop in Hk. simpl. split; [|done].
    apply regionIn_slice. apply lookup_lt_Some in Hk. lia.
  - apply IH.
Qed.

Lemma lazyUntilCi_prefix a s inner :
  lazyUntilCi a s = Some inner -> s = inner ++ drop (length inner) s.
Proof.
  revert inner. induction s as [|c s IH]; intros inner; rewrite lazyUntilCi_unfold.
  - destruct (startsWithCi a []); [|done]. by intros [= <-].
  - destruct (startsWithCi a (c :: s)); [by intros [= <-]|].
    destruct (lazyUntilCi a s) as [inner'|]; [|done]. intros [= <-]. simpl.
    by rewrite <- (IH inner' eq_refl).
Qed.

Lemma startsWithCi_take a s :
  startsWithCi a s = true -> sameCi a (take (length a) s) = true.
Proof.
  intros Hs. pose proof (startsWithCi_length _ _ Hs) as Hlen.
  unfold sameCi. rewrite length_take, Nat.min_l by done.
  rewrite Nat.eqb_refl. simpl.
  rewrite <- (take_drop (length a) s) in Hs.
  by rewrite startsWithCi_short in Hs by (rewrite length_take; lia).
Qed.

(** A match of the template pattern: the opening tag up to its first [>],
    the inner text (group 1), then the closing tag. *)
Lemma templateRegex_at_shape prev s m :
  templateRegex_at prev s = Some m ->
  ∃ head inner tail,
    s = head ++ [62%N] ++ inner ++ tail
    ∧ m_full m = head ++ [62%N] ++ inner ++ take 11 tail
    ∧ m_groups m = [Some inner]
    ∧ Forall (fun d => d ≠ 62%N) head
    ∧ 9 ≤ length head
    ∧ startsWithCi (units "<template") s = true
    ∧ startsWithCi (units "</template>") tail = true.
Proof.
  unfold templateRegex_at.
  destruct (startsWithCi (units "<template") s) eqn:Hopen; [|done].
  pose proof (takeWhile_dropWhile notGt (drop 9 s)) as Hsplit.
  destruct (dropWhile notGt (drop 9 s)) as [|gt r'] eqn:Hd; [done|].
  pose proof (dropWhile_head _ _ _ _ Hd) as ->%notGt_false.
  destruct (lazyUntilCi (units "</template>") r') as [inner|] eqn:Hinner; [|done].
  intros [= <-]. simpl.
  exists (take 9 s ++ takeWhile notGt (drop 9 s)), inner, (drop (length inner) r').
  pose proof (startsWithCi_length _ _ Hopen) as Hlen.
  change (length (units "<template")) with 9 in Hlen.
  split.
  { rewrite <- (take_drop 9 s) at 1. rewrite <- Hsplit at 1.
    rewrite <- !app_assoc. do 2 f_equal. simpl. f_equal.
    exact (lazyUntilCi_prefix _ _ _ Hinner). }
  split; [by rewrite <- !app_assoc|]. split; [done|].
  split; [|split; [rewrite length_app, length_take; lia|]].
  - apply Forall_app. split.
    + apply (sameCi_no_gt (units "<template")).
      * apply (bool_decide_unpack _). vm_compute. exact I.
      * by apply (startsWithCi_take (units "<template")).
    + eapply Forall_impl; [apply takeWhile_all|]. intros d Hne. by apply notGt_ne.
  - split; [done|]. by apply lazyUntilCi_Some.
Qed.

Lemma extractTemplateRegion_regionIn content :
  ∃ region, extractTemplateRegion content = [region] ∧ regionIn content region.
Proof.
  unfold extractTemplateRegion. rewrite regexExec_template.
  destruct (exec templateRegex_at content 0) as [[index m]|] eqn:He.
  2:{ eexists. split; [done|]. apply regionIn_whole. }
  apply exec_at in He as (_ & Hindex & Hat & _).
  apply templateRegex_at_shape in Hat
    as (head & inner & tail & Hs & Hfull & Hgroups & Hhead & _).
  eexists. split; [done|].
  unfold group. rewrite Hgroups, Hfull. simpl.
  rewrite (indexOf_app_stop 62 head) by done.
  pose proof (f_equal length Hs) as Hlen.
  rewrite length_drop, !length_app in Hlen. simpl in Hlen.
  split; simpl; [lia|].
  replace (index + length head + 1) with (index + (length head + 1)) by lia.
  rewrite <- drop_drop, Hs.
  rewrite (app_assoc head [62%N]).
  rewrite drop_app_length'; [by rewrite take_app_length|].
  rewrite length_app. simpl. lia.
Qed.

Lemma extractJsxRegions_regions content regions :
  extractJsxRegions content = Ret regions ->
  regions = [mkRegion content 0]
  ∨ regions ≠ []
    ∧ Forall (fun region => regionIn content region
                            ∧ content !! baseOffset region = Some 60%N) regions.
Proof.
  unfold extractJsxRegions.
  destruct (jsxLoop (S (length content)) content 0 []) as [found| |] eqn:Hloop;
    [|done..].
  rewrite bind_Ret.
  apply jsxLoop_regions in Hloop as (new & -> & Hnew). simpl.
  case_decide as Hempty; intros [= <-].
  - destruct new; [by left | done].
  - right. split; [by intros ->|done].
Qed.

Lemma extractMarkupRegions_regionIn content languageId regions :
  extractMarkupRegions content languageId = Ret regions ->
  Forall (regionIn content) regions.
Proof.
  assert (Hwhole : Forall (regionIn content) [mkRegion content 0]).
  { constructor; [apply regionIn_whole | constructor]. }
  assert (Htemplate : Forall (regionIn content) (extractTemplateRegion content)).
  { destruct (extractTemplateRegion_regionIn content) as (region & -> & Hin).
    by constructor. }
  assert (Hjsx : extractJsxRegions content = Ret regions ->
                 Forall (regionIn content) regions).
  { intros [-> | [_ Hin]]%extractJsxRegions_regions; [done|].
    eapply Forall_impl; [exact Hin|]. by intros region [? _]. }
  unfold extractMarkupRegions.
  repeat case_decide; try exact Hjsx; by intros [= <-].
Qed.

Lemma templateRegex_at_contains content k m prev :
  templateRegex_at prev (drop k content) = Some m ->
  containsTemplateBlock content.
Proof.
  intros (head & inner & tail & Hs & _ & _ & _ & Hhead & Hopen & Hclose)
    %templateRegex_at_shape.
  exists k, (k + length head), (k + (length head + 1 + length inner)).
  split; [done|]. split; [lia|]. split.
  { rewrite <- lookup_drop, Hs. cbn [app]. by rewrite list_lookup_middle. }
  split; [lia|].
  rewrite <- drop_drop, Hs.
  rewrite (app_assoc head [62%N]), (app_assoc (head ++ [62%N]) inner).
  rewrite drop_app_length'; [done|]. rewrite !length_app. simpl. lia.
Qed.

Lemma extractTemplateRegion_no_block content :
  ¬ containsTemplateBlock content ->
  extractTemplateRegion content = [mkRegion content 0].
Proof.
  intros Hno. unfold extractTemplateRegion. rewrite regexExec_template.
  rewrite exec_None; [done|]. intros k _.
  destruct (templateRegex_at (prevAt None content k) (drop k content)) eqn:Hm;
    [|done].
  by apply templateRegex_at_contains in Hm.
Qed.

(** X11. For [vue] and [svelte], the whole text at offset 0 is the region
    exactly when the content holds no template block: no [<template],
    followed by a [>], followed by [</template>]. *)
Theorem template_fallback_iff_no_block content languageId :
  languageId = "vue" ∨ languageId = "svelte" ->
  (extractMarkupRegions content languageId = Ret [mkRegion content 0]
   ↔ ¬ containsTemplateBlock content).
Proof.
  intros Hlang.
  assert (extractMarkupRegions content languageId
          = Ret (extractTemplateRegion content)) as ->.
  { unfold extractMarkupRegions. by destruct Hlang as [-> | ->]. }
  split.
  - intros Hwhole Hblock.
    apply template_block_splits in Hblock
      as (pre & o & attrs & inner & c & post & Hcontent
          & Ho & Hattrs & Hc & Hpre & Hinner).
    rewrite Hcontent in Hwhole at 1.
    rewrite (extractTemplateRegion_block pre o attrs inner c post
               Ho Hattrs Hc Hpre Hinner) in Hwhole.
    injection Hwhole as _ Hbase. lia.
  - intros Hno. by rewrite extractTemplateRegion_no_block.
Qed.

(** ** The parenthesis scan *)

Lemma staysOpen_spec s depth :
  staysOpen s depth = true ->
  ∀ k, k ≤ length s -> closes (take k s) < depth + opens (take k s).
Proof.
  intros H k Hk. apply Nat.ltb_lt.
  apply (proj1 (forallb_forall _ _) H). apply in_seq. lia.
Qed.

Lemma opens_cons c s :
  opens (c :: s) = (if (c =? 40)%N then 1 else 0) + opens s.
Proof. unfold opens. simpl. by destruct (c =? 40)%N. Qed.

Lemma closes_cons c s :
  closes (c :: s) = (if (c =? 41)%N then 1 else 0) + closes s.
Proof. unfold closes. simpl. by destruct (c =? 41)%N. Qed.

Lemma scanParens_staysOpen s rest i depth :
  (∀ k, k ≤ length s -> closes (take k s) < depth + opens (take k s)) ->
  scanParens (s ++ rest) i depth
  = scanParens rest (i + length s) (depth + opens s - closes s).
Proof.
  revert i depth. induction s as [|c s IH]; intros i depth Hopen.
  - simpl. by rewrite Nat.add_0_r, Nat.sub_0_r, Nat.add_0_r.
  - pose proof (Hopen 0 ltac:(lia)) as H0.
    change (0 < depth + 0) in H0.
    cbn [app scanParens]. rewrite decide_True by lia.
    rewrite IH.
    + replace (S i + length s) with (i + length (c :: s)) by (simpl; lia).
      f_equal. rewrite opens_cons, closes_cons.
      destruct (N.eqb_spec c 40) as [->|H40]; [simpl; lia|].
      destruct (c =? 41)%N; lia.
    + intros k Hk. pose proof (Hopen (S k) ltac:(simpl; lia)) as Hk'.
      cbn [take] in Hk'. rewrite opens_cons, closes_cons in Hk'.
      destruct (N.eqb_spec c 40) as [->|H40]; [simpl in Hk'; lia|].
      destruct (c =? 41)%N; lia.
Qed.

(** ** The checker on well-nested markup *)

Lemma Node_forest_ind (P : Node -> Prop) :
  (∀ name offset len children closeOffset closeLen,
     Forall P children ->
     P (Element name offset len children closeOffset closeLen)) ->
  (∀ name offset len, P (Leaf name offset len)) ->
  ∀ node, P node.
Proof.
  intros HE HL. fix IH 1.
  intros [name offset len children closeOffset closeLen | name offset len];
    [|apply HL].
  apply HE. induction children as [|child children IHc]; constructor;
    [apply IH | exact IHc].
Qed.

Section CheckerFacts.
Variable rules : gmap string NestingRule.
Implicit Types (stack : list ParentFrame) (errors : list NestingError).

Lemma checkTokens_app st tokens1 tokens2 :
  checkTokens rules st (tokens1 ++ tokens2)
  = st' ← checkTokens rules st tokens1; checkTokens rules st' tokens2.
Proof.
  revert st. induction tokens1 as [|t tokens1 IH]; intros st; simpl; [done|].
  destruct (checkToken rules st t) as [st'| |]; simpl; [apply IH|done..].
Qed.

(** An open token: at most one error, against the top frame, and a push. *)
Lemma checkToken_open errors stack name offset len :
  checkToken rules (errors, stack) (mkToken open name offset len)
  = Ret (errors ++ expectedAt rules (frame_name <$> last stack) name offset len,
         stack ++ [mkFrame name offset]).
Proof.
  unfold checkToken. cbn [tok_type tok_name tok_offset tok_length].
  destruct stack as [|top stack _] using rev_ind.
  - simpl. by rewrite app_nil_r.
  - rewrite decide_True by (rewrite length_app; simpl; lia).
    rewrite last_snoc.
    replace (length (stack ++ [top]) - 1) with (length stack)
      by (rewrite length_app; simpl; lia).
    rewrite list_lookup_middle by done. simpl.
    destruct (rules !! ruleKey (frame_name top) name); simpl; [done|].
    by rewrite app_nil_r.
Qed.

Lemma checkToken_close_top errors stack name offset closeOffset closeLen :
  checkToken rules (errors, stack ++ [mkFrame name offset])
    (mkToken close name closeOffset closeLen)
  = Ret (errors, stack).
Proof.
  unfold checkToken. cbn [tok_type tok_name].
  replace (length (stack ++ [mkFrame name offset])) with (S (length stack) + 0)
    by (rewrite length_app; simpl; lia).
  by rewrite (closeScan_found stack (mkFrame name offset) [] name 0).
Qed.

Lemma checkTokens_node node :
  ∀ errors stack,
    checkTokens rules (errors, stack) (tokensOf node)
    = Ret (errors ++ expectedErrors rules (frame_name <$> last stack) node, stack).
Proof.
  induction node as [name offset len children closeOffset closeLen IH
                    | name offset len] using Node_forest_ind;
    intros errors stack.
  - cbn [tokensOf expectedErrors checkTokens].
    rewrite checkToken_open, bind_Ret, checkTokens_app.
    assert (Hchildren : ∀ errors0,
      checkTokens rules (errors0, stack ++ [mkFrame name offset])
        (flat_map tokensOf children)
      = Ret (errors0 ++ flat_map (expectedErrors rules (Some name)) children,
             stack ++ [mkFrame name offset])).
    { induction IH as [|child children Hchild _ IHc]; intros errors0; simpl.
      - by rewrite app_nil_r.
      - rewrite checkTokens_app, Hchild, bind_Ret, IHc.
        by rewrite last_snoc, <- app_assoc. }
    rewrite Hchildren, bind_Ret. cbn [checkTokens].
    rewrite checkToken_close_top, bind_Ret.
    by rewrite <- app_assoc.
  - simpl. by rewrite app_nil_r.
Qed.

Lemma checkTokens_forest forest :
  ∀ errors stack,
    checkTokens rules (errors, stack) (flat_map tokensOf forest)
    = Ret (errors
           ++ flat_map (expectedErrors rules (frame_name <$> last stack)) forest,
           stack).
Proof.
  induction forest as [|node forest IH]; intros errors stack; simpl.
  - by rewrite app_nil_r.
  - rewrite checkTokens_app, checkTokens_node, bind_Ret, IH.
    by rewrite <- app_assoc.
Qed.

(** X14. On the token sequence of well-nested markup, [findNestingErrors]
    reports exactly the elements whose pair (enclosing element, element)
    has a rule in the index, in document order, each with that rule and the
    range of its opening tag; elements at top level and self-closing tags
    are never reported.  Such a sequence leaves the parent stack as it
    found it. *)
Theorem well_nested_errors_are_the_ruled_pairs forest :
  findNestingErrors rules (flat_map tokensOf forest)
  = Ret (flat_map (expectedErrors rules None) forest)
  ∧ ∀ errors stack, ∃ errors',
      checkTokens rules (errors, stack) (flat_map tokensOf forest)
      = Ret (errors', stack).
Proof.
  split.
  - unfold findNestingErrors. by rewrite checkTokens_forest.
  - intros errors stack. eexists. apply checkTokens_forest.
Qed.
End CheckerFacts.

(** ** The errors of any token sequence *)

Section ErrorFacts.
Variable rules : gmap string NestingRule.

Lemma closeScan_prefix stack name n stack' :
  closeScan stack name n = Ret stack' -> ∃ k, stack' = take k stack.
Proof.
  induction n as [|i IH]; simpl.
  - intros [= <-]. exists (length stack). by rewrite firstn_all.
  - destruct (stack !! i) as [frame|]; [|done].
    case_decide; [intros [= <-]; eauto | exact IH].
Qed.

Lemma framesFrom_more seen more stack :
  framesFrom seen stack -> framesFrom (seen ++ more) stack.
Proof.
  intros Hstack. eapply Forall_impl; [exact Hstack|].
  intros frame (pre & p & post & -> & Hp & Hname).
  exists pre, p, (post ++ more). by rewrite <- app_assoc.
Qed.

Lemma checkToken_errors seen errors stack t errors' stack' :
  framesFrom seen stack ->
  checkToken rules (errors, stack) t = Ret (errors', stack') ->
  framesFrom (seen ++ [t]) stack'
  ∧ ∃ new, errors' = errors ++ new
      ∧ Forall (fun e => ∃ pre p post,
                  seen = pre ++ p :: post ∧ errorFrom rules p t e) new
      ∧ sublist (map errorSite new) (map tokenSite (List.filter isOpen [t])).
Proof.
  intros Hstack. unfold checkToken.
  destruct (tok_type t) eqn:Htype.
  - assert (Hpush : framesFrom (seen ++ [t])
                      (stack ++ [mkFrame (tok_name t) (tok_offset t)])).
    { apply Forall_app. split; [by apply framesFrom_more|].
      constructor; [|constructor]. by exists seen, t, []. }
    assert (Hsite : List.filter isOpen [t] = [t]).
    { simpl. unfold isOpen. by rewrite bool_decide_eq_true_2. }
    rewrite Hsite. case_decide as Hlen.
    + destruct (stack !! (length stack - 1)) as [top|] eqn:Htop; [|done].
      destruct (rules !! ruleKey (frame_name top) (tok_name t)) as [rule|] eqn:Hrule;
        simpl; intros [= <- <-]; (split; [exact Hpush|]).
      * eexists [_]. split; [done|]. split; [|done].
        constructor; [|constructor].
        apply list_elem_of_lookup_2 in Htop.
        apply (proj1 (Forall_forall _ _) Hstack) in Htop
          as (pre & p & post & -> & Hp & Hname).
        exists pre, p, post. split; [done|]. unfold errorFrom. simpl.
        rewrite <- Hname. done.
      * exists []. rewrite app_nil_r. split; [done|]. split; [constructor|].
        apply sublist_nil_l.
    + simpl. intros [= <- <-]. split; [exact Hpush|].
      exists []. rewrite app_nil_r. split; [done|]. split; [constructor|].
      apply sublist_nil_l.
  - destruct (closeScan stack (tok_name t) (length stack)) as [s'| |] eqn:Hscan;
      simpl; [|done..].
    intros [= <- <-]. apply closeScan_prefix in Hscan as [k ->]. split.
    + apply framesFrom_more. by apply Forall_take.
    + exists []. rewrite app_nil_r. split; [done|]. split; [constructor|].
      apply sublist_nil_l.
  - intros [= <- <-]. split; [by apply framesFrom_more|].
    exists []. rewrite app_nil_r. split; [done|]. split; [constructor|].
    apply sublist_nil_l.
Qed.

Lemma filter_isOpen_app (l1 l2 : list Token) :
  List.filter isOpen (l1 ++ l2) = List.filter isOpen l1 ++ List.filter isOpen l2.
Proof. apply List.filter_app. Qed.

Lemma checkTokens_errors tokens :
  ∀ seen errors stack errors' stack',
    framesFrom seen stack ->
    checkTokens rules (errors, stack) tokens = Ret (errors', stack') ->
    framesFrom (seen ++ tokens) stack'
    ∧ ∃ new, errors' = errors ++ new
        ∧ Forall (fun e => ∃ pre p mid t post,
                    seen ++ tokens = pre ++ p :: mid ++ t :: post
                    ∧ errorFrom rules p t e) new
        ∧ sublist (map errorSite new) (map tokenSite (List.filter isOpen tokens)).
Proof.
  induction tokens as [|t tokens IH]; intros seen errors stack errors' stack' Hstack.
  - simpl. intros [= <- <-]. rewrite app_nil_r. split; [done|].
    exists []. rewrite app_nil_r. split; [done|]. split; [constructor|]. done.
  - cbn [checkTokens].
    destruct (checkToken rules (errors, stack) t) as [[errors1 stack1]| |] eqn:Hstep;
      [|done..].
    rewrite bind_Ret.
    destruct (checkToken_errors _ _ _ _ _ _ Hstack Hstep)
      as (Hstack1 & new1 & -> & Hnew1 & Hsub1).
    intros (Hstack' & new2 & -> & Hnew2 & Hsub2)%(IH _ _ _ _ _ Hstack1).
    replace ((seen ++ [t]) ++ tokens) with (seen ++ t :: tokens) in *
      by (by rewrite <- app_assoc).
    split; [done|]. exists (new1 ++ new2). rewrite app_assoc. split; [done|].
    split.
    + apply Forall_app. split; [|done].
      eapply Forall_impl; [exact Hnew1|].
      intros e (pre & p & post & -> & He).
      exists pre, p, post, t, tokens. split; [|done].
      by rewrite <- app_assoc.
    + change (t :: tokens) with ([t] ++ tokens).
      rewrite filter_isOpen_app, !map_app. by apply sublist_app.
Qed.
End ErrorFacts.

(** ** Violations *)

Lemma tokenKind_open text t :
  tokenKind text t -> tok_type t = open ->
  has VOID_ELEMENTS (tok_name t) = false
  ∧ has SKIP_CONTENT_TAGS (tok_name t) = false.
Proof.
  intros [Htype Hskip] Hopen. split; [|apply Hskip; by rewrite Hopen].
  rewrite Hopen in Htype. unfold tagType in Htype.
  destruct (startsWith _ _); [done|].
  destruct (endsWith _ _); [done|]. simpl in Htype.
  by destruct (has VOID_ELEMENTS (tok_name t)).
Qed.

Lemma take_drop_region content region off len :
  regionIn content region ->
  off + len ≤ length (text region) ->
  take len (drop (off + baseOffset region) content)
  = take len (drop off (text region)).
Proof.
  intros [_ Hslice] Hlen. rewrite <- Hslice at 1.
  rewrite skipn_firstn_comm, take_take, drop_drop.
  rewrite Nat.min_l by lia. by rewrite (Nat.add_comm off).
Qed.

Lemma tokenAt_region content region t :
  regionIn content region ->
  tok_offset t + tok_length t ≤ length (text region) ->
  tokenAt (text region) t ->
  tokenAt content
    (mkToken (tok_type t) (tok_name t) (tok_offset t + baseOffset region)
       (tok_length t)).
Proof.
  intros Hregion Hin (slash & raw & body & Htake & Hrest).
  exists slash, raw, body. cbn [tok_type tok_name tok_offset tok_length].
  split; [|exact Hrest]. by rewrite take_drop_region.
Qed.

Section ViolationFacts.
Variable rules : gmap string NestingRule.

Lemma analyzeRegion_violations content region vs :
  regionIn content region ->
  analyzeRegion rules region = Ret vs ->
  Forall (violationIn rules content) vs.
Proof.
  intros Hregion. unfold analyzeRegion.
  destruct (tokenizeTags (text region)) as [tokens| |] eqn:Htokens; [|done..].
  rewrite bind_Ret.
  destruct (findNestingErrors rules tokens) as [errors| |] eqn:Herrors; [|done..].
  rewrite bind_Ret. intros [= <-].
  apply tokenizeTags_tokensIn in Htokens as [Hin Hkind].
  apply tokensIn_Forall in Hin.
  unfold findNestingErrors in Herrors.
  destruct (checkTokens rules ([], []) tokens) as [[errors' stack']| |] eqn:Hcheck;
    [|done..].
  rewrite bind_Ret in Herrors. injection Herrors as <-.
  apply (checkTokens_errors rules tokens []) in Hcheck
    as (_ & new & -> & Hnew & _); [|constructor].
  simpl. apply Forall_map. eapply Forall_impl; [exact Hnew|].
  intros e (pre & p & mid & t & post & Htoks
            & Hp & Ht & Hparent & Hchild & Hoff & Hlen & Hrule).
  simpl in Htoks. subst tokens.
  assert (Hpin : p ∈ pre ++ p :: mid ++ t :: post).
  { apply elem_of_app. right. apply elem_of_cons. by left. }
  assert (Htin : t ∈ pre ++ p :: mid ++ t :: post).
  { apply elem_of_app. right. apply elem_of_cons. right.
    apply elem_of_app. right. apply elem_of_cons. by left. }
  pose proof (proj1 (Forall_forall _ _) Hin _ Hpin) as [_ Hpat].
  pose proof (proj1 (Forall_forall _ _) Hin _ Htin) as [Htb Htat].
  pose proof (tokenKind_open _ _ (proj1 (Forall_forall _ _) Hkind _ Hpin) Hp)
    as [Hpvoid Hpskip].
  pose proof (tokenKind_open _ _ (proj1 (Forall_forall _ _) Hkind _ Htin) Ht)
    as [Htvoid Htskip].
  destruct Hregion as [Hbase Hslice].
  unfold violationIn. cbn [v_error absoluteOffset].
  rewrite Hparent, Hchild, Hoff, Hlen.
  split; [lia|]. split.
  { pose proof (tokenAt_region content region t (conj Hbase Hslice) Htb Htat) as H.
    by rewrite Ht in H. }
  split; [done|]. split; [by eapply tokenAt_colonFree|]. done.
Qed.

Lemma analyzeRegions_violations content regions :
  ∀ allErrors vs,
    Forall (regionIn content) regions ->
    Forall (violationIn rules content) allErrors ->
    analyzeRegions rules allErrors regions = Ret vs ->
    Forall (violationIn rules content) vs.
Proof.
  induction regions as [|region regions IH]; intros allErrors vs Hregions Hacc.
  - by intros [= <-].
  - apply Forall_cons in Hregions as [Hregion Hregions]. cbn [analyzeRegions].
    destruct (analyzeRegion rules region) as [found| |] eqn:Hfound; [|done..].
    rewrite bind_Ret. apply IH; [done|]. apply Forall_app. split; [done|].
    by eapply analyzeRegion_violations.
Qed.

Lemma analyzeDocument_regions content languageId vs :
  analyzeDocument rules content languageId = Ret vs ->
  ∃ regions, Forall (regionIn content) regions
             ∧ analyzeRegions rules [] regions = Ret vs.
Proof.
  unfold analyzeDocument.
  destruct (extractMarkupRegions content languageId) as [regions| |] eqn:Hregions;
    [|done..].
  rewrite bind_Ret. intros Hvs. exists regions. split; [|done].
  by eapply extractMarkupRegions_regionIn.
Qed.

End ViolationFacts.

(** ** Tokens, regions and errors: the main properties *)

(** X13. The parenthesis scan of [extractJsxRegions], started at depth 1:
    over a text that never closes the opening parenthesis it runs to the
    end of the text; when that text is balanced and a [)] follows it, the
    scan stops right after this [)], so that [end = i - 1] is its index. *)
Theorem scanParens_stops_at_matching_paren inner tail i :
  staysOpen inner 1 = true ->
  scanParens inner i 1 = i + length inner
  ∧ (opens inner = closes inner ->
     scanParens (inner ++ 41%N :: tail) i 1 = i + length inner + 1).
Proof.
  intros Hopen. pose proof (staysOpen_spec _ _ Hopen) as Hspec. split.
  - rewrite <- (app_nil_r inner) at 1. by rewrite scanParens_staysOpen.
  - intros Hbalanced. rewrite scanParens_staysOpen by done.
    rewrite Hbalanced. replace (1 + closes inner - closes inner) with 1 by lia.
    cbn [scanParens]. rewrite decide_True by lia.
    change ((41 =? 40)%N) with false. change ((41 =? 41)%N) with true.
    cbn [Nat.sub]. destruct tail as [|c tail]; simpl; lia.
Qed.

Lemma scanParens_stops_at_matching_paren_witness :
  scanParens (units "<b onClick={f(x)}/>") 8 1 = 8 + 19
  ∧ scanParens (units "<b onClick={f(x)}/>" ++ 41%N :: units "; }") 8 1
    = 8 + 19 + 1.
Proof.
  destruct (scanParens_stops_at_matching_paren
              (units "<b onClick={f(x)}/>") (units "; }") 8) as [H1 H2].
  - vm_compute. reflexivity.
  - split; [exact H1|]. apply H2. vm_compute. reflexivity.
Defined.



(** X7. The type of a token is read off the tag text alone: [close] when
    it starts with [</], else [self_closing] when it ends with [/>] or the
    name is a void element, else [open]; the test of group 2 never decides
    anything, since [[^>]*] leaves that group empty.  No token but a close
    token is named [script], [style] or [template], and no open token is
    named after a void element. *)
Theorem token_types_follow_tag_text text tokens :
  tokenizeTags text = Ret tokens ->
  Forall (fun t =>
            tokenKind text t
            ∧ (tok_type t = open ->
               has VOID_ELEMENTS (tok_name t) = false
               ∧ has SKIP_CONTENT_TAGS (tok_name t) = false)) tokens.
Proof.
  intros [_ Hkind]%tokenizeTags_tokensIn.
  eapply Forall_impl; [exact Hkind|]. intros t Ht. split; [done|].
  exact (tokenKind_open _ _ Ht).
Qed.

Lemma token_types_follow_tag_text_witness :
  Forall (fun t =>
            tokenKind (units "<ul><LI/><img></ul>") t
            ∧ (tok_type t = open ->
               has VOID_ELEMENTS (tok_name t) = false
               ∧ has SKIP_CONTENT_TAGS (tok_name t) = false))
    [mkToken open "ul" 0 4; mkToken self_closing "li" 4 5;
     mkToken self_closing "img" 9 5; mkToken close "ul" 14 5].
Proof.
  apply (token_types_follow_tag_text (units "<ul><LI/><img></ul>")).
  vm_compute. reflexivity.
Defined.

(** X8. Every token name is a lower-case letter followed by lower-case
    letters, digits and hyphens. *)
Theorem token_names_are_lowercase_names text tokens :
  tokenizeTags text = Ret tokens ->
  Forall (fun t => ∃ c run,
            units (tok_name t) = c :: run ∧ isLower c = true
            ∧ Forall (fun d => isLowerNameChar d = true) run) tokens.
Proof.
  intros [Hin _]%tokenizeTags_tokensIn. apply tokensIn_Forall in Hin.
  eapply Forall_impl; [exact Hin|]. intros t [_ Hat]. by eapply tokenAt_name.
Qed.

Lemma token_names_are_lowercase_names_witness :
  Forall (fun t => ∃ c run,
            units (tok_name t) = c :: run ∧ isLower c = true
            ∧ Forall (fun d => isLowerNameChar d = true) run)
    [mkToken open "my-card2" 0 10; mkToken close "my-card2" 10 11].
Proof.
  apply (token_names_are_lowercase_names (units "<My-Card2></MY-CARD2>")).
  vm_compute. reflexivity.
Defined.

Lemma regionIn_subseteq content region c :
  regionIn content region -> c ∈ text region -> c ∈ content.
Proof.
  intros [_ Hslice] Hc. rewrite <- Hslice in Hc.
  by apply subseteq_take, subseteq_drop in Hc.
Qed.

(** X9. A text without [<], or without [>], has no token, and a document
    without [<], or without [>], has no violation, whatever the language id
    and the rule index. *)
Theorem text_without_brackets_has_no_violation rules content languageId :
  60%N ∉ content ∨ 62%N ∉ content ->
  tokenizeTags content = Ret []
  ∧ analyzeDocument rules content languageId = Ret [].
Proof.
  intros Hno. split; [by apply tokenizeTags_no_bracket|].
  unfold analyzeDocument.
  destruct (extractMarkupRegions content languageId) as [regions| |] eqn:Hregions;
    [|by destruct (extractMarkupRegions_returns content languageId) as [? ?];
       congruence..].
  rewrite bind_Ret.
  apply extractMarkupRegions_regionIn in Hregions.
  induction Hregions as [|region regions Hregion _ IH]; [done|].
  cbn [analyzeRegions]. unfold analyzeRegion.
  rewrite tokenizeTags_no_bracket.
  - simpl. exact IH.
  - destruct Hno as [Hno|Hno]; [left|right]; intros Hc; apply Hno;
      by eapply regionIn_subseteq.
Qed.

Lemma text_without_brackets_has_no_violation_witness :
  tokenizeTags (units "if (a < b) return (x)") = Ret []
  ∧ analyzeDocument (∅ : gmap string NestingRule)
      (units "if (a < b) return (x)") "javascriptreact" = Ret [].
Proof.
  apply text_without_brackets_has_no_violation. right.
  apply (bool_decide_unpack _). vm_compute. exact I.
Defined.

(** X10. [extractMarkupRegions] returns at least one region; every region
    is the slice of the content that starts at its base offset, and lies
    inside the content; every language id other than [javascriptreact] and
    [typescriptreact] gets exactly one region. *)
Theorem regions_are_slices_of_content content languageId regions :
  extractMarkupRegions content languageId = Ret regions ->
  regions ≠ [] ∧ Forall (regionIn content) regions
  ∧ (languageId ≠ "javascriptreact" -> languageId ≠ "typescriptreact" ->
     length regions = 1).
Proof.
  intros Hregions. split; [|split; [by eapply extractMarkupRegions_regionIn|]].
  - revert Hregions. unfold extractMarkupRegions.
    assert (extractJsxRegions content = Ret regions -> regions ≠ []) as Hjsx.
    { by intros [-> | [? _]]%extractJsxRegions_regions. }
    destruct (extractTemplateRegion_regionIn content) as (region & -> & _).
    repeat case_decide; try exact Hjsx; by intros [= <-].
  - intros Hjs Hts. revert Hregions. unfold extractMarkupRegions.
    destruct (extractTemplateRegion_regionIn content) as (region & -> & _).
    repeat case_decide; try done; by intros [= <-].
Qed.

Lemma regions_are_slices_of_content_witness :
  [mkRegion (units "<a>(</a>)") 17; mkRegion (units "<b/>") 44] ≠ []
  ∧ Forall
      (regionIn (units "if (x) return (  <a>(</a>)); else return(y, <b/>);"))
      [mkRegion (units "<a>(</a>)") 17; mkRegion (units "<b/>") 44]
  ∧ ("typescriptreact" ≠ "javascriptreact" ->
     "typescriptreact" ≠ "typescriptreact" ->
     length [mkRegion (units "<a>(</a>)") 17; mkRegion (units "<b/>") 44] = 1).
Proof.
  apply (regions_are_slices_of_content
           (units "if (x) return (  <a>(</a>)); else return(y, <b/>);")
           "typescriptreact").
  vm_compute. reflexivity.
Defined.

Lemma template_fallback_iff_no_block_witness :
  ¬ containsTemplateBlock (units "<div><template></div>").
Proof.
  apply (template_fallback_iff_no_block (units "<div><template></div>") "svelte").
  - right. reflexivity.
  - vm_compute. reflexivity.
Defined.

(** X12. For [javascriptreact] and [typescriptreact], the regions are
    either the fallback, the whole text at offset 0, or slices of the
    content that each start at a [<]. *)
Theorem jsx_regions_start_at_a_tag_opener content languageId regions :
  languageId = "javascriptreact" ∨ languageId = "typescriptreact" ->
  extractMarkupRegions content languageId = Ret regions ->
  regions = [mkRegion content 0]
  ∨ Forall (fun region =>
              content !! baseOffset region = Some 60%N
              ∧ ∃ stop, text region = slice content (baseOffset region) stop)
      regions.
Proof.
  intros Hlang.
  assert (extractMarkupRegions content languageId = extractJsxRegions content)
    as ->.
  { unfold extractMarkupRegions. by destruct Hlang as [-> | ->]. }
  unfold extractJsxRegions.
  destruct (jsxLoop (S (length content)) content 0 []) as [found| |] eqn:Hloop;
    [|done..].
  rewrite bind_Ret.
  apply jsxLoop_regions in Hloop as (new & -> & Hnew). simpl.
  case_decide as Hempty; intros [= <-].
  - destruct new; [by left | done].
  - right. eapply Forall_impl; [exact Hnew|].
    intros region [[_ Hslice] Hlt]. split; [done|].
    exists (baseOffset region + length (text region)). unfold slice.
    rewrite <- Hslice at 1. f_equal. lia.
Qed.

Lemma jsx_regions_start_at_a_tag_opener_witness :
  [mkRegion (units "<a>(</a>)") 17; mkRegion (units "<b/>") 44]
  = [mkRegion (units "if (x) return (  <a>(</a>)); else return(y, <b/>);") 0]
  ∨ Forall (fun region =>
              units "if (x) return (  <a>(</a>)); else return(y, <b/>);"
                !! baseOffset region = Some 60%N
              ∧ ∃ stop,
                  text region
                  = slice (units "if (x) return (  <a>(</a>)); else return(y, <b/>);")
                      (baseOffset region) stop)
      [mkRegion (units "<a>(</a>)") 17; mkRegion (units "<b/>") 44].
Proof.
  apply (jsx_regions_start_at_a_tag_opener
           (units "if (x) return (  <a>(</a>)); else return(y, <b/>);")
           "javascriptreact").
  - left. reflexivity.
  - vm_compute. reflexivity.
Defined.

(** X15. On any token sequence, every error of [findNestingErrors] reports
    an open token [t] under an open token [p] that comes before [t]: the
    names, the offset and the length are theirs, and the rule is the one
    the index stores for the pair of names.  The errors come in token
    order, at most one per open token. *)
Theorem errors_come_from_nested_open_tokens rules tokens errors :
  findNestingErrors rules tokens = Ret errors ->
  Forall (fun e => ∃ pre p mid t post,
            tokens = pre ++ p :: mid ++ t :: post ∧ errorFrom rules p t e)
    errors
  ∧ sublist (map errorSite errors) (map tokenSite (List.filter isOpen tokens)).
Proof.
  unfold findNestingErrors.
  destruct (checkTokens rules ([], []) tokens) as [[errors' stack']| |] eqn:Hcheck;
    [|done..].
  rewrite bind_Ret. intros [= <-].
  apply (checkTokens_errors rules tokens []) in Hcheck
    as (_ & new & -> & Hnew & Hsub); [|constructor].
  done.
Qed.

Lemma errors_come_from_nested_open_tokens_witness :
  let rules : gmap string NestingRule :=
    {[ "ul::div" := mkRule "ul" "div" "only li" ["li"] [] ]} in
  let tokens :=
    [mkToken open "ul" 0 4; mkToken close "li" 4 5; mkToken open "div" 9 5;
     mkToken open "div" 14 5] in
  let errors := [mkError "ul" "div" 9 5 (mkRule "ul" "div" "only li" ["li"] [])] in
  Forall (fun e => ∃ pre p mid t post,
            tokens = pre ++ p :: mid ++ t :: post ∧ errorFrom rules p t e)
    errors
  ∧ sublist (map errorSite errors) (map tokenSite (List.filter isOpen tokens)).
Proof.
  intros rules tokens errors.
  apply (errors_come_from_nested_open_tokens rules tokens errors).
  vm_compute. reflexivity.
Defined.


(** ** Violations against [RULES_MAP] *)

Lemma ALL_HTML_TAGS_colonFree :
  Forall (fun tag => colonFree tag = true) ALL_HTML_TAGS.
Proof. apply (bool_decide_unpack _). vm_compute. exact I. Qed.

Lemma complete_rules_referenced :
  Forall (fun rule => references rule ≠ [] ∧ alternatives rule ≠ [])
    NESTING_RULES_COMPLETE.
Proof. apply (bool_decide_unpack _). vm_compute. exact I. Qed.

Lemma RULES_MAP_violations content languageId vs :
  analyzeDocument RULES_MAP content languageId = Ret vs ->
  Forall (violationIn RULES_MAP content) vs.
Proof.
  intros (regions & Hin & Hvs)%analyzeDocument_regions.
  exact (analyzeRegions_violations RULES_MAP content regions [] vs Hin
           (Forall_nil_2 _) Hvs).
Qed.

Lemma RULES_MAP_pair P C rule :
  colonFree P = true ->
  RULES_MAP !! ruleKey P C = Some rule ->
  parent rule = P ∧ child rule = C
  ∧ P ∈ ALL_HTML_TAGS ∧ C ∈ ALL_HTML_TAGS
  ∧ references rule ≠ [] ∧ alternatives rule ≠ [].
Proof.
  intros HP Hlookup. rewrite RULES_MAP_eq in Hlookup.
  apply buildRulesMap_lookup in Hlookup as [Hin Hkey].
  pose proof (proj1 (Forall_forall _ _) complete_inside rule Hin) as [Hp Hc].
  pose proof (proj1 (Forall_forall _ _) complete_rules_referenced rule Hin)
    as [Hrefs Halts].
  pose proof (proj1 (Forall_forall _ _) ALL_HTML_TAGS_colonFree _ Hp) as Hfree.
  destruct (ruleKey_inj P C (parent rule) (child rule) HP Hfree Hkey)
    as [HPeq HCeq].
  rewrite <- HPeq in Hp. rewrite <- HCeq in Hc.
  split; [by symmetry|]. split; [by symmetry|].
  split; [exact Hp|]. split; [exact Hc|]. split; [exact Hrefs | exact Halts].
Qed.

(** X17. With [RULES_MAP], the rule of a violation is a rule for the
    reported pair: its parent and child are the violation's parent and
    child, both are catalog tags, and the rule carries at least one
    reference and one alternative. *)
Theorem reported_rule_is_for_the_pair content languageId vs :
  analyzeDocument RULES_MAP content languageId = Ret vs ->
  Forall (fun v =>
            let e := v_error v in
            parent (err_rule e) = err_parent e
            ∧ child (err_rule e) = err_child e
            ∧ err_parent e ∈ ALL_HTML_TAGS ∧ err_child e ∈ ALL_HTML_TAGS
            ∧ references (err_rule e) ≠ [] ∧ alternatives (err_rule e) ≠ []) vs.
Proof.
  intros Hvs. apply RULES_MAP_violations in Hvs.
  eapply Forall_impl; [exact Hvs|].
  intros v (_ & _ & Hrule & Hfree & _).
  exact (RULES_MAP_pair _ _ _ Hfree Hrule).
Qed.

Lemma reported_rule_is_for_the_pair_witness :
  ∃ vs, analyzeDocument RULES_MAP (units "<P><DIV></DIV></P>") "html" = Ret vs
    ∧ length vs = 1
    ∧ Forall (fun v =>
            let e := v_error v in
            parent (err_rule e) = err_parent e
            ∧ child (err_rule e) = err_child e
            ∧ err_parent e ∈ ALL_HTML_TAGS ∧ err_child e ∈ ALL_HTML_TAGS
            ∧ references (err_rule e) ≠ [] ∧ alternatives (err_rule e) ≠ []) vs.
Proof.
  eexists. split; [vm_compute; reflexivity|]. split; [reflexivity|].
  apply (reported_rule_is_for_the_pair (units "<P><DIV></DIV></P>") "html").
  vm_compute. reflexivity.
Defined.

(** X18. Rules whose child is a void element or a raw-text tag are never
    reported, whatever the document and the language id: the tokenizer
    never makes an open token of such a tag.  [RULES_MAP] holds 322 such
    rules among its 2276. *)
Theorem rules_for_void_or_raw_children_never_fire :
  (∀ content languageId vs,
     analyzeDocument RULES_MAP content languageId = Ret vs ->
     Forall (fun v =>
               has VOID_ELEMENTS (child (err_rule (v_error v))) = false
               ∧ has SKIP_CONTENT_TAGS (child (err_rule (v_error v))) = false)
       vs)
  ∧ length (List.filter
              (fun rule => has VOID_ELEMENTS (child rule)
                           || has SKIP_CONTENT_TAGS (child rule))
              (map snd (map_to_list RULES_MAP))) = 322.
Proof.
  split; [|vm_compute; exact eq_refl].
  intros content languageId vs Hvs. apply RULES_MAP_violations in Hvs.
  eapply Forall_impl; [exact Hvs|].
  intros v (_ & _ & Hrule & Hfree & _ & _ & Hvoid & Hskip).
  destruct (RULES_MAP_pair _ _ _ Hfree Hrule) as (_ & Hchild & _).
  rewrite Hchild. split; [exact Hvoid | exact Hskip].
Qed.

Lemma rules_for_void_or_raw_children_never_fire_witness :
  ∃ vs,
    analyzeDocument RULES_MAP (units "<ul><div><input><li></li></div></ul>")
      "html" = Ret vs
    ∧ length vs = 1
    ∧ Forall (fun v =>
               has VOID_ELEMENTS (child (err_rule (v_error v))) = false
               ∧ has SKIP_CONTENT_TAGS (child (err_rule (v_error v))) = false)
       vs.
Proof.
  eexists. split; [vm_compute; reflexivity|]. split; [reflexivity|].
  apply (proj1 rules_for_void_or_raw_children_never_fire
           (units "<ul><div><input><li></li></div></ul>") "html").
  vm_compute. reflexivity.
Defined.

(** ** One return block *)

Lemma onlyReturnAt_spec content p k :
  onlyReturnAt content p = true -> k ≤ length content -> k ≠ p ->
  returnRegex_at (prevAt None content k) (drop k content) = None.
Proof.
  intros Honly Hk Hne.
  assert (In k (seq 0 (S (length content)))) as H by (apply in_seq; lia).
  apply (proj1 (forallb_forall _ _) Honly) in H. cbn beta in H.
  rewrite bool_decide_eq_false_2 in H by done. cbn [orb] in H.
  unfold returnOpensAt in H. rewrite returnRegex_at_regex in H.
  destruct (returnRegex_at _ _) as [m|]; [|done].
  rewrite bool_decide_eq_true_2 in H by eauto. discriminate H.
Qed.

Lemma exec_None_from matchAt text lastIndex :
  (∀ k, lastIndex ≤ k -> k ≤ length text ->
        matchAt (prevAt None text k) (drop k text) = None) ->
  exec matchAt text lastIndex = None.
Proof.
  intros Hnone. unfold exec. case_decide as Hle; [|done].
  change (match lastIndex with 0 => None | S k => text !! k end)
    with (prevAt None text lastIndex).
  apply searchFrom_None. intros k Hk. rewrite length_drop in Hk.
  rewrite prevAt_drop, drop_drop by done. apply Hnone; lia.
Qed.

Lemma prevAt_end pre s : prevAt None (pre ++ s) (length pre) = last pre.
Proof.
  destruct pre as [|c pre _] using rev_ind; [done|].
  rewrite last_snoc, length_app. simpl. rewrite Nat.add_1_r. simpl.
  rewrite <- app_assoc. cbn [app]. by rewrite list_lookup_middle.
Qed.

(** The return pattern on [return], white space, [(], white space, and a
    text that starts with [<]. *)
Lemma returnRegex_at_opening prev ws1 ws2 rest :
  isWordOpt prev = false ->
  forallb isSpace ws1 = true -> forallb isSpace ws2 = true ->
  head rest = Some 60%N ->
  returnRegex_at prev (units "return" ++ ws1 ++ [40%N] ++ ws2 ++ rest)
  = Some (mkMatch (units "return" ++ ws1 ++ [40%N] ++ ws2) []).
Proof.
  intros Hprev Hws1 Hws2 Hrest. destruct rest as [|lt rest]; [done|].
  injection Hrest as ->.
  assert (Forall (fun d => isSpace d = true) ws1) as H1.
  { apply Forall_forall. intros d Hd%list_elem_of_In.
    exact (proj1 (forallb_forall _ _) Hws1 d Hd). }
  assert (Forall (fun d => isSpace d = true) ws2) as H2.
  { apply Forall_forall. intros d Hd%list_elem_of_In.
    exact (proj1 (forallb_forall _ _) Hws2 d Hd). }
  unfold returnRegex_at, wordBoundary. fold (isWordOpt prev). rewrite Hprev.
  rewrite startsWith_app.
  change (from_option isWordChar false
            (head (units "return" ++ ws1 ++ [40%N] ++ ws2 ++ 60%N :: rest)))
    with true.
  cbn [xorb andb].
  change (drop 6 (units "return" ++ ws1 ++ [40%N] ++ ws2 ++ 60%N :: rest))
    with (ws1 ++ 40%N :: ws2 ++ 60%N :: rest).
  change (take 6 (units "return" ++ ws1 ++ [40%N] ++ ws2 ++ 60%N :: rest))
    with (units "return").
  destruct (takeWhile_app_stop isSpace ws1 40 (ws2 ++ 60%N :: rest) H1 eq_refl)
    as [-> ->].
  rewrite N.eqb_refl.
  destruct (takeWhile_app_stop isSpace ws2 60 rest H2 eq_refl) as [-> _].
  done.
Qed.

Lemma jsxLoop_S fuel content lastIndex regions :
  jsxLoop (S fuel) content lastIndex regions
  = match exec returnRegex_at content lastIndex with
    | None => Ret regions
    | Some (index, m) =>
        let start := index + length (m_full m) in
        match indexOfFrom 60 content start with
        | None => jsxLoop fuel content start regions
        | Some ltIdx =>
            jsxLoop fuel content start
              (regions
               ++ [mkRegion
                     (slice content ltIdx
                        (scanParens (drop start content) start 1 - 1))
                     ltIdx])
        end
    end.
Proof. cbn [jsxLoop]. by rewrite regexExec_return. Qed.

(** One occurrence of the return pattern, before a text that starts with
    [<]: one region, from that [<] to where the parenthesis scan ends. *)
Lemma extractJsxRegions_one pre ws1 ws2 rest :
  let opening := units "return" ++ ws1 ++ [40%N] ++ ws2 in
  let content := pre ++ opening ++ rest in
  let start := length pre + length opening in
  isWordOpt (last pre) = false ->
  forallb isSpace ws1 = true -> forallb isSpace ws2 = true ->
  head rest = Some 60%N ->
  onlyReturnAt content (length pre) = true ->
  extractJsxRegions content
  = Ret [mkRegion (take (scanParens rest start 1 - 1 - start) rest) start].
Proof.
  intros opening content start Hprev Hws1 Hws2 Hlt Honly.
  assert (Hdrop : drop start content = rest).
  { unfold start, content. rewrite <- length_app, app_assoc.
    by rewrite drop_app_length. }
  assert (Hmatch : exec returnRegex_at content 0
                   = Some (length pre, mkMatch opening [])).
  { unfold content. apply exec_first.
    - intros k Hk. apply (onlyReturnAt_spec _ (length pre)); [done| |lia].
      rewrite length_app. lia.
    - rewrite prevAt_end. unfold opening. rewrite <- !app_assoc.
      by apply returnRegex_at_opening. }
  assert (Hnext : exec returnRegex_at content start = None).
  { apply exec_None_from. intros k Hk1 Hk2.
    apply (onlyReturnAt_spec _ (length pre)); [done..|].
    unfold start, opening in Hk1. rewrite length_app in Hk1. simpl in Hk1. lia. }
  assert (Hindex : indexOfFrom 60 content start = Some start).
  { unfold indexOfFrom. rewrite Hdrop.
    destruct rest as [|c rest']; [done|]. injection Hlt as ->. simpl.
    by rewrite Nat.add_0_r. }
  assert (Hfuel : ∃ fuel, S (length content) = S (S fuel)).
  { exists (length content - 1). unfold content, opening.
    rewrite !length_app. simpl. lia. }
  destruct Hfuel as [fuel Hfuel].
  unfold extractJsxRegions. rewrite Hfuel, jsxLoop_S, Hmatch.
  cbn zeta. cbn [m_full]. fold start.
  rewrite Hindex, jsxLoop_S, Hnext, bind_Ret. cbn [app length].
  rewrite decide_False by lia. unfold slice. by rewrite Hdrop.
Qed.

(** X19. One return block.  When the return pattern occurs once in the
    content, as [return], white space, [(], white space, followed by text
    that starts with [<], is balanced in its parentheses and is closed by
    [)], then [extractJsxRegions] yields exactly that text as the only
    region, at its offset in the content. *)
Theorem single_return_block_is_the_region pre ws1 ws2 jsx post :
  let opening := units "return" ++ ws1 ++ [40%N] ++ ws2 in
  let content := pre ++ opening ++ jsx ++ [41%N] ++ post in
  isWordOpt (last pre) = false ->
  forallb isSpace ws1 = true -> forallb isSpace ws2 = true ->
  head jsx = Some 60%N ->
  staysOpen jsx 1 = true -> opens jsx = closes jsx ->
  onlyReturnAt content (length pre) = true ->
  extractJsxRegions content
  = Ret [mkRegion jsx (length pre + length opening)].
Proof.
  intros opening content Hprev Hws1 Hws2 Hlt Hopen Hbalanced Honly.
  subst content opening.
  rewrite (extractJsxRegions_one pre ws1 ws2 (jsx ++ [41%N] ++ post));
    [|done|done|done|by destruct jsx|exact Honly].
  set (start := length pre + length (units "return" ++ ws1 ++ [40%N] ++ ws2)).
  rewrite (scanParens_staysOpen jsx _ start 1 (staysOpen_spec _ _ Hopen)).
  rewrite Hbalanced.
  replace (1 + closes jsx - closes jsx) with 1 by lia.
  cbn [app scanParens]. rewrite decide_True by lia.
  change ((41 =? 40)%N) with false. change ((41 =? 41)%N) with true.
  cbn [Nat.sub].
  assert (∀ i, scanParens post i 0 = i) as ->.
  { intros i. by destruct post. }
  replace (S (start + length jsx) - 1 - start) with (length jsx) by lia.
  by rewrite take_app_length.
Qed.

Lemma single_return_block_is_the_region_witness :
  extractJsxRegions
    (units "const A = () => { return (  <a onClick={f(x)}><b/></a>); }")
  = Ret [mkRegion (units "<a onClick={f(x)}><b/></a>") 28].
Proof.
  apply (single_return_block_is_the_region
           (units "const A = () => { ") [32%N] [32%N; 32%N]
           (units "<a onClick={f(x)}><b/></a>") (units "; }"));
    vm_compute; reflexivity.
Defined.

(** X20. A return block that is never closed.  When the text after the
    opening never closes its parenthesis, the region runs from the [<] to
    the end of the content less its last code unit: [end = i - 1] with [i]
    the length of the content. *)
Theorem unclosed_return_block_loses_last_unit pre ws1 ws2 jsx :
  let opening := units "return" ++ ws1 ++ [40%N] ++ ws2 in
  let content := pre ++ opening ++ jsx in
  isWordOpt (last pre) = false ->
  forallb isSpace ws1 = true -> forallb isSpace ws2 = true ->
  head jsx = Some 60%N ->
  staysOpen jsx 1 = true ->
  onlyReturnAt content (length pre) = true ->
  extractJsxRegions content
  = Ret [mkRegion (take (length jsx - 1) jsx) (length pre + length opening)].
Proof.
  intros opening content Hprev Hws1 Hws2 Hlt Hopen Honly.
  subst content opening.
  rewrite (extractJsxRegions_one pre ws1 ws2 jsx);
    [|done|done|done|done|exact Honly].
  set (start := length pre + length (units "return" ++ ws1 ++ [40%N] ++ ws2)).
  rewrite <- (app_nil_r jsx) at 1.
  rewrite (scanParens_staysOpen jsx [] start 1 (staysOpen_spec _ _ Hopen)).
  cbn [scanParens].
  by replace (start + length jsx - 1 - start) with (length jsx - 1) by lia.
Qed.

Lemma unclosed_return_block_loses_last_unit_witness :
  extractJsxRegions (units "return <p>x</p>; return(<ul><div></div></ul>")
  = Ret [mkRegion (units "<ul><div></div></ul") 24].
Proof.
  apply (unclosed_return_block_loses_last_unit
           (units "return <p>x</p>; ") [] [] (units "<ul><div></div></ul>"));
    vm_compute; reflexivity.
Defined.

(** ** Well-formed markup and its text *)

Lemma place_MElement offset name attrs children :
  place offset (MElement name attrs children)
  = [Element (tagName name) offset (length (openTag name attrs))
       (placeAll (offset + length (openTag name attrs)) children)
       (offset + length (openTag name attrs) + length (flat_map render children))
       (length (closeTag name))].
Proof. reflexivity. Qed.

Lemma Markup_forest_ind (P : Markup -> Prop) :
  (∀ s, P (MText s)) ->
  (∀ name attrs children, Forall P children -> P (MElement name attrs children)) ->
  (∀ name attrs slash, P (MVoid name attrs slash)) ->
  (∀ name attrs content, P (MRaw name attrs content)) ->
  ∀ m, P m.
Proof.
  intros HT HE HV HR. fix IH 1.
  intros [s | name attrs children | name attrs slash | name attrs content];
    [apply HT | | apply HV | apply HR].
  apply HE. induction children as [|child children IHc]; constructor;
    [apply IH | exact IHc].
Qed.

Lemma tokenizeLoop_more fuel k text lastIndex skipUntil tokens out :
  tokenizeLoop fuel text lastIndex skipUntil tokens = Ret out ->
  tokenizeLoop (fuel + k) text lastIndex skipUntil tokens = Ret out.
Proof.
  revert lastIndex skipUntil tokens.
  induction fuel as [|fuel IH]; intros lastIndex skipUntil tokens; [done|].
  cbn [tokenizeLoop Nat.add].
  destruct (regexExec tagRegex 2 text lastIndex) as [[index m]|]; [|done].
  destruct (tokenizeStep index m skipUntil) as [[skipUntil' pushed]| |];
    [|done..].
  rewrite !bind_Ret. apply IH.
Qed.

Lemma drop_app_eq {A} (l a b : list A) n :
  drop n l = a ++ b -> drop (n + length a) l = b.
Proof. intros H. by rewrite <- drop_drop, H, drop_app_length. Qed.

Lemma drop_cons_lookup {A} (l : list A) n c rest :
  drop n l = c :: rest -> l !! n = Some c ∧ n < length l.
Proof.
  intros H. assert (l !! n = Some c) as Hc.
  { rewrite <- (Nat.add_0_r n), <- lookup_drop, H. done. }
  split; [done|]. by eapply lookup_lt_Some.
Qed.

(** The search of the tag pattern passes over text that starts no tag. *)
Lemma exec_tag_skip text lastIndex s rest :
  drop lastIndex text = s ++ rest -> noTagStart s = true ->
  exec tagRegex_at text lastIndex = exec tagRegex_at text (lastIndex + length s).
Proof.
  revert lastIndex. induction s as [|c s IH]; intros lastIndex Hdrop Hno.
  - simpl. by rewrite Nat.add_0_r.
  - simpl in Hdrop. pose proof (drop_cons_lookup _ _ _ _ Hdrop) as [Hc Hlt].
    cbn [noTagStart] in Hno. apply andb_prop in Hno as [Hhere Hno].
    replace (lastIndex + length (c :: s)) with (S lastIndex + length s)
      by (simpl; lia).
    assert (drop (S lastIndex) text = s ++ rest) as Hdrop'.
    { change (c :: s ++ rest) with ([c] ++ (s ++ rest)) in Hdrop.
      apply drop_app_eq in Hdrop. simpl in Hdrop.
      by rewrite Nat.add_1_r in Hdrop. }
    rewrite <- (IH (S lastIndex) Hdrop' Hno).
    unfold exec. rewrite !decide_True by lia. rewrite Hdrop. cbn [searchFrom].
    assert (tagRegex_at (match lastIndex with 0 => None | S k => text !! k end)
              (c :: s ++ rest) = None) as ->.
    { unfold tagRegex_at. destruct (c =? 60)%N; [|done].
      destruct s as [|d s']; [done|]. apply andb_prop in Hhere as [Hd Hslash].
      apply negb_true_iff in Hd, Hslash. cbn [app optionalUnit].
      by rewrite Hslash, Hd. }
    by rewrite Hc, Hdrop'.
Qed.

Lemma wfName_rawName name : wfName name = true -> rawName name.
Proof.
  destruct name as [|c run]; [done|]. intros [Hc Hrun]%andb_prop.
  exists c, run. split; [done|]. split; [done|].
  apply Forall_forall. intros d Hd%list_elem_of_In.
  exact (proj1 (forallb_forall _ _) Hrun d Hd).
Qed.

Lemma wfAttrs_spec attrs :
  wfAttrs attrs = true ->
  Forall (fun d => notGt d = true) attrs
  ∧ ∀ rest, ∃ a tl, attrs ++ 62%N :: rest = a :: tl ∧ isNameChar a = false.
Proof.
  intros [Hno Hhead]%andb_prop. split.
  - apply Forall_forall. intros d Hd%list_elem_of_In.
    exact (proj1 (forallb_forall _ _) Hno d Hd).
  - intros rest. destruct attrs as [|a attrs]; simpl.
    + by exists 62%N, rest.
    + exists a, (attrs ++ 62%N :: rest). split; [done|].
      by apply negb_true_iff.
Qed.

(** The tag pattern on a tag as written: it matches the whole tag, with
    the name as group 1. *)
Lemma tagRegex_at_tag prev slash name attrs rest :
  slash = [] ∨ slash = [47%N] ->
  wfName name = true -> wfAttrs attrs = true ->
  tagRegex_at prev (60%N :: slash ++ name ++ attrs ++ 62%N :: rest)
  = Some (mkMatch (60%N :: slash ++ name ++ attrs ++ [62%N])
            [Some name; Some []]).
Proof.
  intros Hslash Hname Hattrs.
  destruct (wfName_rawName _ Hname) as (c & run & -> & Hc & Hrun).
  destruct (wfAttrs_spec _ Hattrs) as [Hno Hhead].
  destruct (Hhead rest) as (a & tl & Ha & Hna).
  unfold tagRegex_at. rewrite N.eqb_refl.
  assert (optionalUnit 47 (slash ++ (c :: run) ++ attrs ++ 62%N :: rest)
          = (slash, (c :: run) ++ attrs ++ 62%N :: rest)) as ->.
  { destruct Hslash as [-> | ->]; [|done]. simpl.
    apply isLetter_isNameChar, isNameChar_byte in Hc as (_ & Hc & _).
    by destruct (N.eqb_spec c 47). }
  cbn [app]. rewrite Hc.
  destruct (takeWhile_app_stop isNameChar run a tl Hrun Hna) as [Htake Hdrop].
  rewrite Ha, Htake, Hdrop, <- Ha.
  destruct (takeWhile_app_stop notGt attrs 62 rest Hno eq_refl) as [-> ->].
  done.
Qed.

Lemma exec_tag_here text lastIndex slash name attrs rest :
  slash = [] ∨ slash = [47%N] ->
  wfName name = true -> wfAttrs attrs = true ->
  drop lastIndex text = 60%N :: slash ++ name ++ attrs ++ 62%N :: rest ->
  exec tagRegex_at text lastIndex
  = Some (lastIndex,
          mkMatch (60%N :: slash ++ name ++ attrs ++ [62%N])
            [Some name; Some []]).
Proof.
  intros Hslash Hname Hattrs Hdrop.
  pose proof (drop_cons_lookup _ _ _ _ Hdrop) as [_ Hlt].
  unfold exec. rewrite decide_True by lia. rewrite Hdrop.
  destruct (drop lastIndex text) eqn:E; [done|].
  injection Hdrop as -> ->. cbn [searchFrom].
  by rewrite tagRegex_at_tag.
Qed.

Lemma endsWith_slash_gt x :
  endsWith (units "/>") (x ++ [62%N])
  = match last x with Some c => (c =? 47)%N | None => false end.
Proof.
  change (units "/>") with [47%N; 62%N]. unfold endsWith.
  destruct x as [|c y _] using rev_ind; [done|].
  rewrite last_snoc, <- app_assoc. simpl app.
  rewrite length_app. cbn [length].
  replace (length y + 2 - 2) with (length y) by lia.
  rewrite drop_app_length.
  replace (2 <=? length y + 2) with true by (symmetry; apply Nat.leb_le; lia).
  change (startsWith [47%N; 62%N] [c; 62%N])
    with ((47 =? c)%N && ((62 =? 62)%N && true)).
  rewrite N.eqb_refl, !andb_true_r. cbn [andb]. apply N.eqb_sym.
Qed.

(** The loop body, outside a skipped span, on a tag whose name is not a
    raw-text name or that is a closing tag: it pushes the token of the
    tag. *)
Lemma tokenizeStep_tag index slash name attrs :
  slash = [] ∨ slash = [47%N] -> wfName name = true ->
  has SKIP_CONTENT_TAGS (tagName name) = false ∨ slash = [47%N] ->
  let full := 60%N :: slash ++ name ++ attrs ++ [62%N] in
  tokenizeStep index (mkMatch full [Some name; Some []]) None
  = Ret (None,
         Some (mkToken (tagType full (tagName name)) (tagName name) index
                 (length full))).
Proof.
  intros Hslash Hname Hskip full. unfold tokenizeStep, group.
  cbn [m_full m_groups lookup list_lookup Nat.sub truthy].
  change (bool_decide (Some [] = Some (units "/"))) with false.
  rewrite (orb_false_l (endsWith _ _)).
  fold (tagName name). unfold tagType.
  pose proof (tagShape_isClose slash name attrs (wfName_rawName _ Hname) Hslash)
    as Hclose.
  fold full in Hclose. rewrite Hclose.
  destruct Hskip as [Hskip | ->].
  - rewrite Hskip, andb_false_r. done.
  - rewrite bool_decide_eq_true_2 by done. done.
Qed.

Lemma endsWith_openTag name attrs :
  wfName name = true ->
  endsWith (units "/>") (openTag name attrs)
  = bool_decide (last attrs = Some 47%N).
Proof.
  intros Hname. unfold openTag.
  replace (60%N :: name ++ attrs ++ [62%N])
    with (((60%N :: name) ++ attrs) ++ [62%N])
    by (simpl; by rewrite <- app_assoc).
  rewrite endsWith_slash_gt, (last_app (60%N :: name)).
  destruct (last attrs) as [a|] eqn:Ha.
  - destruct (N.eqb_spec a 47) as [->|Hne].
    + by rewrite bool_decide_eq_true_2.
    + rewrite bool_decide_eq_false_2; [done|]. by intros [= ->].
  - rewrite bool_decide_eq_false_2 by done.
    destruct (last (60%N :: name)) as [d|] eqn:Hd; [|done].
    destruct (wfName_rawName _ Hname) as (c & run & -> & Hc & Hrun).
    rewrite last_cons_cons in Hd. apply last_Some_elem_of in Hd.
    assert (isNameChar d = true) as Hname_d.
    { apply elem_of_cons in Hd as [-> | Hd]; [by apply isLetter_isNameChar|].
      exact (proj1 (Forall_forall _ _) Hrun d Hd). }
    apply isNameChar_byte in Hname_d as (_ & Hne & _).
    by destruct (N.eqb_spec d 47).
Qed.

Lemma tagType_open name attrs :
  wfName name = true -> last attrs ≠ Some 47%N ->
  has VOID_ELEMENTS (tagName name) = false ->
  tagType (openTag name attrs) (tagName name) = open.
Proof.
  intros Hname Hlast Hvoid. unfold tagType.
  rewrite (endsWith_openTag name attrs Hname), Hvoid.
  rewrite bool_decide_eq_false_2 by done.
  pose proof (tagShape_isClose [] name attrs (wfName_rawName _ Hname)
                (or_introl eq_refl)) as Hclose.
  cbn [app] in Hclose. unfold openTag. by rewrite Hclose.
Qed.

Lemma tagType_void name attrs slash :
  wfName name = true ->
  slash || has VOID_ELEMENTS (tagName name) = true ->
  tagType (openTag name (voidAttrs attrs slash)) (tagName name) = self_closing.
Proof.
  intros Hname Hvoid. unfold tagType.
  rewrite (endsWith_openTag name _ Hname).
  pose proof (tagShape_isClose [] name (voidAttrs attrs slash)
                (wfName_rawName _ Hname) (or_introl eq_refl)) as Hclose.
  cbn [app] in Hclose. unfold openTag at 1. rewrite Hclose.
  rewrite bool_decide_eq_false_2 by done.
  destruct slash; [|by simpl in Hvoid; rewrite Hvoid, orb_true_r].
  unfold voidAttrs. rewrite last_snoc.
  by rewrite bool_decide_eq_true_2.
Qed.

Lemma tagType_close name :
  wfName name = true ->
  tagType (closeTag name) (tagName name) = close.
Proof.
  intros Hname. unfold tagType, closeTag.
  pose proof (tagShape_isClose [47%N] name [] (wfName_rawName _ Hname)
                (or_intror eq_refl)) as Hclose.
  cbn [app] in Hclose. by rewrite Hclose.
Qed.

Lemma tokenizesTo_step text lastIndex slash name attrs rest
    skipUntil skipUntil' pushed tokens out :
  slash = [] ∨ slash = [47%N] ->
  wfName name = true -> wfAttrs attrs = true ->
  let full := 60%N :: slash ++ name ++ attrs ++ [62%N] in
  tokenizeStep lastIndex (mkMatch full [Some name; Some []]) skipUntil
  = Ret (skipUntil', pushed) ->
  drop lastIndex text = full ++ rest ->
  tokenizesTo text (lastIndex + length full) skipUntil'
    (tokens ++ option_list pushed) out ->
  tokenizesTo text lastIndex skipUntil tokens out.
Proof.
  intros Hslash Hname Hattrs full Hstep Hdrop [fuel Hloop].
  exists (S fuel). cbn [tokenizeLoop]. rewrite regexExec_tag.
  rewrite (exec_tag_here text lastIndex slash name attrs rest Hslash Hname Hattrs).
  - fold full. rewrite Hstep, bind_Ret. exact Hloop.
  - rewrite Hdrop. unfold full. simpl. by rewrite <- !app_assoc.
Qed.

Lemma tokenizesTo_tag text lastIndex slash name attrs rest tokens out :
  slash = [] ∨ slash = [47%N] ->
  wfName name = true -> wfAttrs attrs = true ->
  has SKIP_CONTENT_TAGS (tagName name) = false ∨ slash = [47%N] ->
  let full := 60%N :: slash ++ name ++ attrs ++ [62%N] in
  drop lastIndex text = full ++ rest ->
  tokenizesTo text (lastIndex + length full) None
    (tokens ++ [mkToken (tagType full (tagName name)) (tagName name) lastIndex
                  (length full)]) out ->
  tokenizesTo text lastIndex None tokens out.
Proof.
  intros Hslash Hname Hattrs Hskip full Hdrop Hloop.
  apply (tokenizesTo_step text lastIndex slash name attrs rest None None
           (Some (mkToken (tagType full (tagName name)) (tagName name) lastIndex
                    (length full)))); try done.
  exact (tokenizeStep_tag lastIndex slash name attrs Hslash Hname Hskip).
Qed.

(** A raw-text opening tag starts a skipped span, and the closing tag of
    that name ends it; neither pushes a token. *)
Lemma tokenizeStep_raw_open index name attrs :
  wfName name = true -> has SKIP_CONTENT_TAGS (tagName name) = true ->
  tokenizeStep index (mkMatch (openTag name attrs) [Some name; Some []]) None
  = Ret (Some (tagName name), None).
Proof.
  intros Hname Hskip. unfold tokenizeStep, group.
  cbn [m_full m_groups lookup list_lookup Nat.sub truthy].
  fold (tagName name).
  pose proof (tagShape_isClose [] name attrs (wfName_rawName _ Hname)
                (or_introl eq_refl)) as Hclose.
  cbn [app] in Hclose. unfold openTag. rewrite Hclose, Hskip.
  by rewrite bool_decide_eq_false_2.
Qed.

Lemma tokenizeStep_raw_close index name :
  wfName name = true -> has SKIP_CONTENT_TAGS (tagName name) = true ->
  tokenizeStep index (mkMatch (closeTag name) [Some name; Some []])
    (Some (tagName name))
  = Ret (None, None).
Proof.
  intros Hname Hskip. unfold tokenizeStep, group.
  cbn [m_full m_groups lookup list_lookup Nat.sub].
  fold (tagName name).
  assert (truthy (Some (tagName name)) = true) as ->.
  { apply has_skip_nonempty in Hskip. unfold truthy.
    apply negb_true_iff. by apply String.eqb_neq. }
  pose proof (tagShape_isClose [47%N] name [] (wfName_rawName _ Hname)
                (or_intror eq_refl)) as Hclose.
  cbn [app] in Hclose. unfold closeTag. rewrite Hclose.
  by rewrite !bool_decide_eq_true_2.
Qed.

Lemma tokenizesTo_text text lastIndex s rest skipUntil tokens out :
  drop lastIndex text = s ++ rest -> noTagStart s = true ->
  tokenizesTo text (lastIndex + length s) skipUntil tokens out ->
  tokenizesTo text lastIndex skipUntil tokens out.
Proof.
  intros Hdrop Hno [[|fuel] Hloop]; [done|]. exists (S fuel).
  cbn [tokenizeLoop] in *. rewrite regexExec_tag in *.
  by rewrite (exec_tag_skip text lastIndex s rest).
Qed.

Lemma tokenizesTo_end text skipUntil tokens :
  tokenizesTo text (length text) skipUntil tokens tokens.
Proof.
  exists 1. cbn [tokenizeLoop]. rewrite regexExec_tag. unfold exec.
  rewrite decide_True by lia. by rewrite drop_all.
Qed.

Lemma tokenizesTo_tokenizeTags text out :
  tokenizesTo text 0 None [] out -> tokenizeTags text = Ret out.
Proof.
  intros [fuel Hloop]. destruct (tokenizeTags_returns text) as [out' Hout'].
  rewrite Hout'. unfold tokenizeTags in Hout'.
  apply (tokenizeLoop_more _ fuel) in Hout'.
  apply (tokenizeLoop_more _ (S (length text))) in Hloop.
  rewrite (Nat.add_comm fuel) in Hloop. congruence.
Qed.

Section Render.
Variables (text : list N) (out : list Token).

Lemma tokenizesTo_children children :
  Forall (tokenizesMarkup text out) children ->
  ∀ lastIndex rest tokens,
    drop lastIndex text = flat_map render children ++ rest ->
    tokenizesTo text (lastIndex + length (flat_map render children)) None
      (tokens ++ flat_map tokensOf (placeAll lastIndex children)) out ->
    tokenizesTo text lastIndex None tokens out.
Proof.
  induction 1 as [|child children Hchild _ IH]; intros lastIndex rest tokens.
  - simpl. by rewrite Nat.add_0_r, app_nil_r.
  - cbn [flat_map placeAll]. rewrite <- app_assoc, length_app, flat_map_app.
    intros Hdrop Hloop.
    apply (Hchild lastIndex (flat_map render children ++ rest)); [done|].
    apply (IH _ rest); [by apply drop_app_eq|].
    by rewrite <- app_assoc, <- Nat.add_assoc.
Qed.

Lemma tokenizesTo_render m :
  wfMarkup m = true -> tokenizesMarkup text out m.
Proof.
  induction m as [s | name attrs children IH | name attrs slash
                 | name attrs content]
    using Markup_forest_ind; intros Hwf lastIndex rest tokens; cbn [render].
  - intros Hdrop. simpl. rewrite app_nil_r.
    by apply (tokenizesTo_text _ _ s rest).
  - cbn [wfMarkup] in Hwf.
    apply andb_prop in Hwf as [[[[[Hname Hattrs]%andb_prop Hlast]%andb_prop
                                  Hvoid]%andb_prop Hskip]%andb_prop Hchildren].
    apply negb_true_iff in Hvoid, Hskip.
    apply negb_true_iff, bool_decide_eq_false_1 in Hlast.
    assert (Forall (tokenizesMarkup text out) children) as Hch.
    { apply Forall_forall. intros child Hin.
      apply (proj1 (Forall_forall _ _) IH child Hin).
      apply (proj1 (forallb_forall _ _) Hchildren). by apply list_elem_of_In. }
    rewrite place_MElement. rewrite <- !app_assoc, !length_app.
    intros Hdrop Hloop.
    apply (tokenizesTo_tag _ _ [] name attrs
             (flat_map render children ++ closeTag name ++ rest));
      [by left|done|done|by left|exact Hdrop|].
    cbn [app]. fold (openTag name attrs).
    rewrite (tagType_open name attrs Hname Hlast Hvoid).
    apply (tokenizesTo_children children Hch _ (closeTag name ++ rest));
      [by apply drop_app_eq in Hdrop|].
    apply drop_app_eq, drop_app_eq in Hdrop.
    apply (tokenizesTo_tag _ _ [47%N] name [] rest);
      [by right|done|done|by right|exact Hdrop|].
    change (60%N :: [47%N] ++ name ++ [] ++ [62%N]) with (closeTag name).
    rewrite (tagType_close name Hname).
    revert Hloop. simpl flat_map. rewrite app_nil_r.
    rewrite <- !app_assoc, !Nat.add_assoc. simpl app. done.
  - cbn [wfMarkup] in Hwf.
    apply andb_prop in Hwf as [[[Hname Hattrs]%andb_prop Hvoid]%andb_prop Hskip].
    apply negb_true_iff in Hskip.
    intros Hdrop Hloop.
    apply (tokenizesTo_tag _ _ [] name (voidAttrs attrs slash) rest);
      [by left|done|done|by left|exact Hdrop|].
    cbn [app]. fold (openTag name (voidAttrs attrs slash)).
    rewrite (tagType_void name attrs slash Hname Hvoid).
    exact Hloop.
  - cbn [wfMarkup] in Hwf.
    apply andb_prop in Hwf as [[[Hname Hattrs]%andb_prop Hskip]%andb_prop Hcontent].
    rewrite <- !app_assoc, !length_app. simpl place. simpl flat_map.
    rewrite app_nil_r. intros Hdrop Hloop.
    apply (tokenizesTo_step _ _ [] name attrs (content ++ closeTag name ++ rest)
             None (Some (tagName name)) None);
      [by left|done|done|by apply tokenizeStep_raw_open|exact Hdrop|].
    cbn [app option_list]. fold (openTag name attrs). rewrite app_nil_r.
    apply drop_app_eq in Hdrop.
    apply (tokenizesTo_text _ _ content (closeTag name ++ rest)); [done..|].
    apply drop_app_eq in Hdrop.
    apply (tokenizesTo_step _ _ [47%N] name [] rest
             (Some (tagName name)) None None);
      [by right|done|done|by apply tokenizeStep_raw_close|exact Hdrop|].
    change (60%N :: [47%N] ++ name ++ [] ++ [62%N]) with (closeTag name).
    cbn [option_list]. rewrite app_nil_r.
    revert Hloop. by rewrite !Nat.add_assoc.
Qed.
End Render.

Lemma tokenizeTags_render forest :
  forallb wfMarkup forest = true ->
  tokenizeTags (flat_map render forest)
  = Ret (flat_map tokensOf (placeAll 0 forest)).
Proof.
  intros Hwf. apply tokenizesTo_tokenizeTags.
  apply (tokenizesTo_children (flat_map render forest) _ forest) with (rest := []).
  - apply Forall_forall. intros m Hin. apply tokenizesTo_render.
    apply (proj1 (forallb_forall _ _) Hwf). by apply list_elem_of_In.
  - by rewrite drop_0, app_nil_r.
  - simpl. apply tokenizesTo_end.
Qed.

(** X21. A well-formed document is checked exactly.  For markup made of
    text that starts no tag, elements, tags without content and raw-text
    elements, the tokens of the text are the tags of the elements and of
    the tags without content, at their offsets; and when the whole text is
    the region, as for [html], the violations are exactly the elements
    whose pair (enclosing element, element) has a rule in the index, in
    document order, each at the offset and over the length of its opening
    tag. *)
Theorem well_formed_document_is_checked_exactly rules forest languageId :
  forallb wfMarkup forest = true ->
  extractMarkupRegions (flat_map render forest) languageId
  = Ret [mkRegion (flat_map render forest) 0] ->
  tokenizeTags (flat_map render forest)
  = Ret (flat_map tokensOf (placeAll 0 forest))
  ∧ analyzeDocument rules (flat_map render forest) languageId
    = Ret (map (fun e => mkViolation e (err_offset e))
             (flat_map (expectedErrors rules None) (placeAll 0 forest))).
Proof.
  intros Hwf Hregion. pose proof (tokenizeTags_render forest Hwf) as Htokens.
  split; [exact Htokens|].
  unfold analyzeDocument. rewrite Hregion, bind_Ret.
  cbn [analyzeRegions]. unfold analyzeRegion. cbn [text baseOffset].
  rewrite Htokens, bind_Ret. unfold findNestingErrors.
  rewrite checkTokens_forest, !bind_Ret. cbn [mbind outcome_bind app fst].
  f_equal. apply map_ext. intros e. by rewrite Nat.add_0_r.
Qed.

Lemma well_formed_document_is_checked_exactly_witness :
  let rules : gmap string NestingRule :=
    {[ "ul::div" := mkRule "ul" "div" "only li" ["li"] [];
       "p::br" := mkRule "p" "br" "never" [] [] ]} in
  let forest :=
    [MText (units "<!DOCTYPE html>");
     MElement (units "UL") (units " class='a'")
       [MText (units "1 < 2");
        MRaw (units "style") [] (units "p > a {}");
        MElement (units "Div") []
          [MElement (units "p") [] [MVoid (units "br") [] false]];
        MVoid (units "img") (units " src=x ") true]] in
  tokenizeTags (flat_map render forest)
  = Ret (flat_map tokensOf (placeAll 0 forest))
  ∧ analyzeDocument rules (flat_map render forest) "html"
    = Ret [mkViolation
             (mkError "ul" "div" 57 5 (mkRule "ul" "div" "only li" ["li"] []))
             57].
Proof.
  intros rules forest.
  apply (well_formed_document_is_checked_exactly rules forest "html").
  - vm_compute. reflexivity.
  - vm_compute. reflexivity.
Defined.

(** ** Diagnostics *)

Import Extension.

Lemma fold_left_push {A B} (f : A -> B) (l : list A) (acc : list B) :
  fold_left (fun acc x => acc ++ [f x]) l acc = acc ++ map f l.
Proof.
  revert acc. induction l as [|x l IH]; intros acc; simpl.
  - by rewrite app_nil_r.
  - by rewrite IH, <- app_assoc.
Qed.

Lemma buildRelatedInfo_length doc range err :
  length (buildRelatedInfo doc range err)
  = (if decide (alternatives (err_rule (v_error err)) = []) then 0 else 1)
    + length (references (err_rule (v_error err))).
Proof.
  unfold buildRelatedInfo. rewrite fold_left_push, length_app, length_map.
  f_equal. by destruct (alternatives (err_rule (v_error err))).
Qed.

(** X22. [validateDocument] always returns, and replaces the diagnostics
    of the document by one diagnostic per violation of [analyzeDocument],
    in order, leaving those of other documents as they are.  For every
    violation the range asked of [positionAt] lies inside the text; the
    message names the parent, the child and the reason of the rule itself;
    the link of the code is the URL of the rule's first reference, so the
    fallback is never taken; and the related information holds the
    alternatives and every reference, at least two entries. *)
Theorem diagnostics_describe_the_violations cfg doc diagnosticCollection :
  ∃ vs,
    analyzeDocument RULES_MAP (getText doc) (languageId doc) = Ret vs
    ∧ validateDocument cfg doc diagnosticCollection
      = Ret (<[uri doc := map (diagnosticOf doc (getSeverity cfg)) vs]>
               diagnosticCollection)
    ∧ Forall (fun v =>
        let e := v_error v in
        let d := diagnosticOf doc (getSeverity cfg) v in
        absoluteOffset v + err_length e ≤ length (getText doc)
        ∧ diag_message d
          = buildMessage (parent (err_rule e)) (child (err_rule e))
              (reason (err_rule e))
        ∧ (∃ ref, head (references (err_rule e)) = Some ref
                  ∧ target (diag_code d) = url ref)
        ∧ length (relatedInformation d) = 1 + length (references (err_rule e))
        ∧ 2 ≤ length (relatedInformation d)) vs.
Proof.
  destruct (analyzeDocument_returns RULES_MAP (getText doc) (languageId doc))
    as [vs Hvs].
  exists vs. split; [exact Hvs|]. split.
  { unfold validateDocument. rewrite Hvs, bind_Ret.
    by rewrite (fold_left_push (diagnosticOf doc (getSeverity cfg)) vs []). }
  apply RULES_MAP_violations in Hvs.
  eapply Forall_impl; [exact Hvs|].
  intros v (Hin & _ & Hrule & Hfree & _).
  destruct (RULES_MAP_pair _ _ _ Hfree Hrule)
    as (Hparent & Hchild & _ & _ & Hrefs & Halts).
  clear Hvs Hrule. cbn zeta. split; [exact Hin|].
  split.
  { unfold diagnosticOf. cbn [diag_message]. rewrite Hparent, Hchild.
    reflexivity. }
  assert (length (relatedInformation (diagnosticOf doc (getSeverity cfg) v))
          = 1 + length (references (err_rule (v_error v)))) as Hlen.
  { unfold diagnosticOf. cbn [relatedInformation].
    rewrite buildRelatedInfo_length. rewrite decide_False by exact Halts.
    reflexivity. }
  destruct (references (err_rule (v_error v))) as [|ref refs] eqn:Href;
    [destruct (Hrefs eq_refl)|].
  split.
  { exists ref. split; [reflexivity|]. unfold diagnosticOf.
    cbn [diag_code target]. rewrite Href. reflexivity. }
  split; [exact Hlen|]. rewrite Hlen. cbn [length]. lia.
Qed.
